(** * Brand-Infinity-Engine: the generation orchestrator core

    A shallow embedding of the knowledge store, the circuit breaker, the
    agent tool loop, the plan-coverage check, the n8n callback route, the
    response handler, the orchestrator's [run], the in-memory sandbox, the
    session manager, the memory store and the embedding service's cache,
    followed by the properties the specification states about them and by
    further properties read off the code.

    Conventions.  JavaScript [number]s that the code only ever uses as
    integer counters, versions and millisecond clocks are [Z]; the one
    place where the code does floating-point arithmetic (the coverage
    percentage) uses the binary64 operations of [SpecFloat].  A [Map] whose
    iteration order is not observed is a [gmap]; one whose order is observed
    is an association list.  [Date.now()] is an explicit argument.  An
    [async] function between whose [await]s other calls change what it works
    on is given whole and in two halves, up to that [await] and from it on.
    Objects
    the code only calls into (the event stream, the loggers, the language
    model, the database) are modelled by what they are given: an append-only
    log, or an oracle supplied by the environment. *)

From stdpp Require Import gmap strings list pretty sorting.
From Stdlib Require Import ZArith Ascii String SpecFloat.

Local Open Scope string_scope.
Local Open Scope list_scope.
Local Open Scope Z_scope.

(** ** Strings as the code uses them *)

Module Js.

(** [s.split(sep)] for a one-character separator. *)
Fixpoint split_aux (sep : ascii) (cur : string) (s : string) : list string :=
  match s with
  | EmptyString => [String.rev cur]
  | String c rest =>
      if Ascii.eqb c sep then String.rev cur :: split_aux sep EmptyString rest
      else split_aux sep (String c cur) rest
  end.

Definition split (sep : ascii) (s : string) : list string :=
  split_aux sep EmptyString s.

(** A string is truthy when it is not empty: [filter(Boolean)], [!s]. *)
Definition truthy (s : string) : bool :=
  match s with EmptyString => false | _ => true end.

(** [s.startsWith(p)]. *)
Definition startsWith (s p : string) : bool := String.prefix p s.

Fixpoint all_chars (f : ascii -> bool) (s : string) : bool :=
  match s with
  | EmptyString => true
  | String c rest => f c && all_chars f rest
  end.

(** [JSON.stringify(s)] for a string [s]: the string between double quotes,
    with the double quote and the backslash escaped by a backslash, the
    control characters that have a short escape written with it, and the
    other characters below the space as [\u00] and two hexadecimal digits. *)
Definition hex_digit (n : nat) : ascii :=
  ascii_of_nat (if n <? 10 then 48 + n else 87 + n)%nat.

Definition quote_char (c : ascii) : string :=
  let n := nat_of_ascii c in
  let escaped (s : string) := String "092" s in
  if (n =? 34)%nat then escaped (String c "")
  else if (n =? 92)%nat then escaped (String c "")
  else if (n =? 8)%nat then escaped "b"
  else if (n =? 12)%nat then escaped "f"
  else if (n =? 10)%nat then escaped "n"
  else if (n =? 13)%nat then escaped "r"
  else if (n =? 9)%nat then escaped "t"
  else if (n <? 32)%nat then
    escaped (String "u" (String "0" (String "0"
               (String (hex_digit (n / 16)) (String (hex_digit (n mod 16)) "")))))
  else String c "".

Fixpoint quote_chars (s : string) : string :=
  match s with
  | EmptyString => EmptyString
  | String c rest => quote_char c +:+ quote_chars rest
  end.

Definition JSON_stringify (s : string) : string :=
  String "034" (quote_chars s +:+ String "034" "").

(** [number] where the code computes with fractions: IEEE 754 binary64,
    rounding to nearest, ties to even. *)
Definition prec : Z := 53.
Definition emax : Z := 1024.

Definition of_int (n : Z) : spec_float := binary_normalize prec emax n 0 false.
Definition div (x y : spec_float) : spec_float := SFdiv prec emax x y.
Definition mul (x y : spec_float) : spec_float := SFmul prec emax x y.

(** [Math.round(x)] for a finite [x]: the integer nearest to [x], a tie
    going up.  The value of a finite float is [m * 2^e]; the rounding is
    computed on that value exactly.  ([Math.round] leaves [NaN] and the
    infinities as they are; they are mapped to 0 here.) *)
Definition Math_round (x : spec_float) : Z :=
  match x with
  | S754_finite sign m e =>
      let v := if sign then Z.neg m else Z.pos m in
      if 0 <=? e then v * 2 ^ e
      else (2 * v + 2 ^ (- e)) / 2 ^ (1 - e)
  | _ => 0
  end.

End Js.

(** ** Knowledge store (knowledge/store.ts) *)

Module KnowledgeStore.

Inductive ErrorCode := INVALID_PATH | CONTENT_TOO_LARGE | VERSION_CONFLICT.

Record VersionedDocument := mkDoc {
  doc_path : string;
  doc_content : string;
  doc_version : Z;
  doc_createdAt : Z;
  doc_updatedAt : Z;
  doc_createdBy : string;
  doc_updatedBy : string;
  doc_contentHash : string
}.

Record WriteError := mkWriteError {
  err_code : ErrorCode;
  err_message : string;
  err_currentVersion : option Z;
  err_expectedVersion : option Z
}.

Record WriteResult := mkWriteResult {
  wr_success : bool;
  wr_path : string;
  wr_version : Z;
  wr_previousVersion : option Z;
  wr_error : option WriteError
}.

(** What [eventStream.emit] is given. *)
Inductive Event :=
| KNOWLEDGE_CONFLICT (path : string) (currentVersion attemptedVersion : Z) (agent : string)
| KNOWLEDGE_WRITTEN (path : string) (version : Z) (previousVersion : option Z)
                    (agent category : string)
| KNOWLEDGE_UPDATED (path : string) (version : Z) (previousVersion : option Z)
                    (agent category : string)
| KNOWLEDGE_DELETED (path : string) (agent : string).

(** The store.  [subscriptions] keeps the insertion order of the [Map] and of
    each [Set] of callbacks, since [notifySubscribers] iterates them; a
    callback is an identifier, and calling it is recorded in
    [notifications].  [events] is the log of the event stream, oldest
    first. *)
Record Store := mkStore {
  documents : gmap string VersionedDocument;
  subscriptions : list (string * list nat);
  currentAgent : string;
  maxDocumentSize : Z;
  events : list Event;
  notifications : list (nat * VersionedDocument)
}.

Definition with_documents (d : gmap string VersionedDocument) (s : Store) : Store :=
  mkStore d (subscriptions s) (currentAgent s) (maxDocumentSize s) (events s)
          (notifications s).

Definition emit (e : Event) (s : Store) : Store :=
  mkStore (documents s) (subscriptions s) (currentAgent s) (maxDocumentSize s)
          (events s ++ [e]) (notifications s).

Definition notify (calls : list (nat * VersionedDocument)) (s : Store) : Store :=
  mkStore (documents s) (subscriptions s) (currentAgent s) (maxDocumentSize s)
          (events s) (notifications s ++ calls).

(** [new KnowledgeStore(config)]: the default ceiling is 10 MiB. *)
Definition new (maxDocumentSize : option Z) : Store :=
  mkStore ∅ [] "zeus" (default (10 * 1024 * 1024) maxDocumentSize) [] [].

Definition setCurrentAgent (agent : string) (s : Store) : Store :=
  mkStore (documents s) (subscriptions s) agent (maxDocumentSize s) (events s)
          (notifications s).

(** The character class [[a-zA-Z0-9\/_-]]. *)
Definition is_path_char (c : ascii) : bool :=
  let n := nat_of_ascii c in
  ((97 <=? n) && (n <=? 122) || (65 <=? n) && (n <=? 90) ||
   (48 <=? n) && (n <=? 57) || (n =? 47) || (n =? 95) || (n =? 45))%nat.

(** [/^\/[a-zA-Z0-9\/_-]+$/.test(path)]. *)
Definition isValidPath (path : string) : bool :=
  match path with
  | String c rest =>
      Ascii.eqb c "/" && Js.truthy rest && Js.all_chars is_path_char rest
  | EmptyString => false
  end.

Definition validCategories : list string :=
  ["requirements"; "research"; "architecture"; "plan"; "progress";
   "verification"; "deployment"; "error"; "checkpoint"; "metadata"].

(** [path.split('/').filter(Boolean)[0]], kept if it is a known category. *)
Definition getCategoryFromPath (path : string) : string :=
  match filter (fun p => Js.truthy p = true) (Js.split "/" path) with
  | category :: _ =>
      if bool_decide (category ∈ validCategories) then category else "metadata"
  | [] => "metadata"
  end.

(** The callbacks [notifySubscribers] calls, in order: those registered on
    the exact path, then those registered on every other key the path starts
    with. *)
Definition subscribers_of (path : string) (subs : list (string * list nat)) : list nat :=
  (match List.find (fun e => String.eqb (fst e) path) subs with
   | Some e => snd e
   | None => []
   end) ++
  flat_map (fun e => if Js.startsWith path (fst e) && negb (String.eqb (fst e) path)
                     then snd e else []) subs.

Definition notifySubscribers (path : string) (doc : VersionedDocument) (s : Store) : Store :=
  notify (map (fun cb => (cb, doc)) (subscribers_of path (subscriptions s))) s.

(** [existing?.version ?? 0]. *)
Definition currentVersion (path : string) (s : Store) : Z :=
  match documents s !! path with
  | Some d => doc_version d
  | None => 0
  end.

(** [read(path, options)]: the current document, or [null] when it is
    absent or a different version is asked for. *)
Definition read (path : string) (version : option Z) (s : Store)
    : option VersionedDocument :=
  match documents s !! path with
  | None => None
  | Some doc =>
      match version with
      | Some v => if doc_version doc =? v then Some doc else None
      | None => Some doc
      end
  end.

Definition delete (path : string) (s : Store) : bool * Store :=
  match documents s !! path with
  | Some _ =>
      (true, emit (KNOWLEDGE_DELETED path (currentAgent s))
                  (with_documents (base.delete path (documents s)) s))
  | None => (false, s)
  end.

Definition getVersion (path : string) (s : Store) : option Z :=
  doc_version <$> documents s !! path.

(** [subscribe]: the callback joins the [Set] registered for the path. *)
Fixpoint add_subscriber (path : string) (callback : nat)
    (subs : list (string * list nat)) : list (string * list nat) :=
  match subs with
  | [] => [(path, [callback])]
  | (p, cbs) :: rest =>
      if String.eqb p path
      then (p, if bool_decide (callback ∈ cbs) then cbs else cbs ++ [callback]) :: rest
      else (p, cbs) :: add_subscriber path callback rest
  end.

Definition subscribe (path : string) (callback : nat) (s : Store) : Store :=
  mkStore (documents s) (add_subscriber path callback (subscriptions s))
          (currentAgent s) (maxDocumentSize s) (events s) (notifications s).

(** The function [subscribe] returns: the callback leaves the [Set], which
    stays in the [Map] even when empty. *)
Definition unsubscribe (path : string) (callback : nat) (s : Store) : Store :=
  mkStore (documents s)
          (map (λ e, if String.eqb (fst e) path
                     then (fst e, filter (λ cb, cb ≠ callback) (snd e)) else e)
               (subscriptions s))
          (currentAgent s) (maxDocumentSize s) (events s) (notifications s).

Definition getSnapshot (s : Store) : gmap string VersionedDocument := documents s.

Definition restoreSnapshot (snapshot : gmap string VersionedDocument) (s : Store) : Store :=
  with_documents snapshot s.

Definition clear (s : Store) : Store :=
  mkStore ∅ [] (currentAgent s) (maxDocumentSize s) (events s) (notifications s).

(** The specification's wording of the path check, for comparison with
    [isValidPath]: a hierarchical key, that is a leading [/] followed by
    segments separated by [/], every segment non-empty. *)
Definition nonempty_segments_only (path : string) : bool :=
  match Js.split "/" path with
  | root :: segment :: segments =>
      negb (Js.truthy root) && forallb Js.truthy (segment :: segments)
  | _ => false
  end.

(** [expectedVersion !== undefined && currentVersion !== expectedVersion]:
    the expected version when the check fires. *)
Definition stale (current : Z) (expectedVersion : option Z) : option Z :=
  match expectedVersion with
  | Some expected => if current =? expected then None else Some expected
  | None => None
  end.

Section Write.

(** [createHash('sha256').update(content).digest('hex')]. *)
Variable sha256 : string -> string.

Definition write (path content : string) (expectedVersion : option Z) (now : Z)
    (s : Store) : WriteResult * Store :=
  if negb (isValidPath path) then
    (mkWriteResult false path (-1) None
       (Some (mkWriteError INVALID_PATH
          ("Invalid path: " +:+ path +:+
           ". Must start with / and contain only alphanumeric, /, -, _")
          None None)), s)
  else if Z.of_nat (String.length content) >? maxDocumentSize s then
    (mkWriteResult false path (-1) None
       (Some (mkWriteError CONTENT_TOO_LARGE
          ("Content size " +:+ pretty (Z.of_nat (String.length content)) +:+
           " exceeds max " +:+ pretty (maxDocumentSize s))
          None None)), s)
  else
    let existing := documents s !! path in
    let current := currentVersion path s in
    match stale current expectedVersion with
    | Some expected =>
        (mkWriteResult false path current None
           (Some (mkWriteError VERSION_CONFLICT
              ("Version conflict: expected " +:+ pretty expected +:+
               ", current is " +:+ pretty current)
              (Some current) (Some expected))),
         emit (KNOWLEDGE_CONFLICT path current expected (currentAgent s)) s)
    | None =>
        let newVersion := current + 1 in
        let doc :=
          mkDoc path content newVersion
                (from_option doc_createdAt now existing) now
                (from_option doc_createdBy (currentAgent s) existing)
                (currentAgent s) (sha256 content) in
        let previous := doc_version <$> existing in
        let category := getCategoryFromPath path in
        let s1 := with_documents (<[path := doc]> (documents s)) s in
        let s2 := emit (match existing with
                        | Some _ => KNOWLEDGE_UPDATED path newVersion previous
                                                      (currentAgent s) category
                        | None => KNOWLEDGE_WRITTEN path newVersion previous
                                                    (currentAgent s) category
                        end) s1 in
        (mkWriteResult true path newVersion previous None,
         notifySubscribers path doc s2)
    end.

(** One call on the store, as a caller can make it. *)
Inductive Op :=
| Write (path content : string) (expectedVersion : option Z) (now : Z)
| Read (path : string) (version : option Z)
| Delete (path : string)
| GetVersion (path : string)
| Subscribe (path : string) (callback : nat)
| Unsubscribe (path : string) (callback : nat)
| SetCurrentAgent (agent : string)
| RestoreSnapshot (snapshot : gmap string VersionedDocument)
| Clear.

(** The result of a write, if the call is one, and the store after it. *)
Definition step (op : Op) (s : Store) : option WriteResult * Store :=
  match op with
  | Write path content expectedVersion now =>
      let w := write path content expectedVersion now s in (Some (fst w), snd w)
  | Read _ _ | GetVersion _ => (None, s)
  | Delete path => (None, snd (delete path s))
  | Subscribe path callback => (None, subscribe path callback s)
  | Unsubscribe path callback => (None, unsubscribe path callback s)
  | SetCurrentAgent agent => (None, setCurrentAgent agent s)
  | RestoreSnapshot snapshot => (None, restoreSnapshot snapshot s)
  | Clear => (None, clear s)
  end.

Fixpoint run (ops : list Op) (s : Store) : Store :=
  match ops with
  | [] => s
  | op :: ops' => run ops' (snd (step op s))
  end.

(** The versions returned by the successful writes to [path], in order. *)
Fixpoint written_versions (path : string) (ops : list Op) (s : Store) : list Z :=
  match ops with
  | [] => []
  | op :: ops' =>
      let (r, s') := step op s in
      match op, r with
      | Write path' _ _ _, Some wr =>
          if wr_success wr && String.eqb path' path
          then wr_version wr :: written_versions path ops' s'
          else written_versions path ops' s'
      | _, _ => written_versions path ops' s'
      end
  end.

(** The calls that cannot remove the document at [path]. *)
Definition keeps (path : string) (op : Op) : bool :=
  match op with
  | Delete path' => negb (String.eqb path' path)
  | RestoreSnapshot _ | Clear => false
  | _ => true
  end.

(** The one call that puts documents in the store without [write]. *)
Definition restores (op : Op) : bool :=
  match op with RestoreSnapshot _ => true | _ => false end.

End Write.

(** [exists(path)]. *)
Definition exists_ (path : string) (s : Store) : bool :=
  bool_decide (is_Some (documents s !! path)).

(** [!prefix || path.startsWith(prefix)]. *)
Definition has_prefix (prefix : option string) (path : string) : bool :=
  match prefix with
  | Some p => negb (Js.truthy p) || Js.startsWith path p
  | None => true
  end.

(** [listPaths(prefix)]: the keys the prefix selects, sorted by the default
    order of [Array.prototype.sort], which compares strings unit by unit. *)
Definition listPaths (prefix : option string) (s : Store) : list string :=
  merge_sort String.le
    (filter (λ path, has_prefix prefix path = true) (map_to_list (documents s)).*1).

(** A callback is registered under a key of the subscription map. *)
Definition registered (callback : nat) (key : string) (s : Store) : Prop :=
  ∃ callbacks, (key, callbacks) ∈ subscriptions s ∧ callback ∈ callbacks.

(** The versions that the [knowledge.written] and [knowledge.updated] events
    of a log report for a path, oldest first. *)
Definition logged_versions (path : string) (log : list Event) : list Z :=
  omap (λ e, match e with
             | KNOWLEDGE_WRITTEN p v _ _ _ | KNOWLEDGE_UPDATED p v _ _ _ =>
                 if String.eqb p path then Some v else None
             | _ => None
             end) log.

End KnowledgeStore.

(** ** Circuit breaker (utils/circuit_breaker.ts) *)

Module CircuitBreaker.

Inductive CircuitState := CLOSED | OPEN | HALF_OPEN.

(** What the three redis keys [name:failures], [name:lastFailure] and
    [name:state] hold, read back as the code reads them.  A key is absent
    ([None]) until it is set.  [persistStatus] writes [String(failures)],
    [String(lastFailure ?? '')] and the state; [loadStatus] reads a number
    back with [parseInt] or [Number] when the string is not empty, so the
    failure count is kept as the number it denotes and the last failure as
    [Some None] for the empty string and [Some (Some t)] for a time. *)
Record RedisKeys := mkKeys {
  key_failures : option Z;
  key_lastFailure : option (option Z);
  key_state : option CircuitState
}.

(** The injected client: one whose every [get] and [set] throws, or one
    that stores what it is given. *)
Inductive Redis := Unreachable | Reachable (keys : RedisKeys).

Record Breaker := mkBreaker {
  name : string;
  redis : Redis;
  threshold : Z;
  resetTimeout : Z;
  failureWindow : Z;
  state : CircuitState;
  failures : Z;
  lastFailure : option Z
}.

Record CircuitOptions := mkOptions {
  opt_threshold : option Z;
  opt_resetTimeout : option Z;
  opt_failureWindow : option Z
}.

Definition new (name : string) (redisClient : Redis) (opts : CircuitOptions) : Breaker :=
  mkBreaker name redisClient
            (default 3 (opt_threshold opts))
            (default 30000 (opt_resetTimeout opts))
            (default 60000 (opt_failureWindow opts))
            CLOSED 0 None.

Definition set_status (st : CircuitState) (f : Z) (last : option Z) (b : Breaker) : Breaker :=
  mkBreaker (name b) (redis b) (threshold b) (resetTimeout b) (failureWindow b) st f last.

Definition getState (b : Breaker) : CircuitState := state b.

Definition setState (st : CircuitState) (b : Breaker) : Breaker :=
  set_status st (failures b) (lastFailure b) b.

(** [persistStatus]: three [set]s inside a [try] whose [catch] is empty. *)
Definition persistStatus (b : Breaker) : Breaker :=
  match redis b with
  | Unreachable => b
  | Reachable _ =>
      mkBreaker (name b)
                (Reachable (mkKeys (Some (failures b)) (Some (lastFailure b))
                                   (Some (state b))))
                (threshold b) (resetTimeout b) (failureWindow b)
                (state b) (failures b) (lastFailure b)
  end.

(** [loadStatus]: three [get]s, then each field is replaced by what was read
    if it is truthy (for the state: if it is not [null]), inside a [try] whose
    [catch] is empty. *)
Definition loadStatus (b : Breaker) : Breaker :=
  match redis b with
  | Unreachable => b
  | Reachable keys =>
      set_status (default (state b) (key_state keys))
                 (default (failures b) (key_failures keys))
                 (match key_lastFailure keys with
                  | Some (Some last) => Some last
                  | _ => lastFailure b
                  end) b
  end.

(** How a call of the wrapped function settles. *)
Inductive Outcome (T E : Type) := Resolved (value : T) | Rejected (err : E).
Arguments Resolved {T E} value.
Arguments Rejected {T E} err.

(** How [execute] settles: with the function's value, with the breaker's own
    error, or with the function's error thrown again. *)
Inductive Result (T E : Type) :=
| Returned (value : T)
| ThrewOpen (message : string)
| Rethrew (err : E).
Arguments Returned {T E} value.
Arguments ThrewOpen {T E} message.
Arguments Rethrew {T E} err.

(** What one [execute] did: its result, the breaker after it, and the state
    the breaker was in at each call it made of the wrapped function. *)
Record Execution (T E : Type) := mkExecution {
  result : Result T E;
  calls : list CircuitState;
  breaker : Breaker
}.
Arguments mkExecution {T E} result calls breaker.
Arguments result {T E} e.
Arguments calls {T E} e.
Arguments breaker {T E} e.

(** The wrapped function is given the clock when it is called and says how
    it settles and what the clock is then; [now] is the clock when [execute]
    is entered. *)
Definition execute {T E : Type} (fn : Z -> Outcome T E * Z) (now : Z) (b : Breaker)
    : Execution T E :=
  let b := loadStatus b in
  let entry :=
    match state b with
    | OPEN =>
        let last := default 0 (lastFailure b) in
        if now - last >? resetTimeout b
        then Some (set_status HALF_OPEN (failures b) (lastFailure b) b)
        else None
    | _ => Some b
    end in
  match entry with
  | None => mkExecution (ThrewOpen ("Circuit breaker " +:+ name b +:+ " is OPEN")) [] b
  | Some b =>
      match fn now with
      | (Resolved value, _) =>
          mkExecution (Returned value) [state b]
                      (persistStatus (set_status CLOSED 0 None b))
      | (Rejected err, now') =>
          let failures' := failures b + 1 in
          let state' :=
            match state b with
            | HALF_OPEN => OPEN
            | st => if failures' >=? threshold b then OPEN else st
            end in
          mkExecution (Rethrew err) [state b]
                      (persistStatus (set_status state' failures' (Some now') b))
      end
  end.

Definition getStatus (b : Breaker) : Breaker := loadStatus b.

Definition reset (b : Breaker) : Breaker := persistStatus (set_status CLOSED 0 None b).

(** A run of [execute] calls, each with its function and its entry clock. *)
Fixpoint execute_all {T E : Type} (runs : list ((Z -> Outcome T E * Z) * Z))
    (b : Breaker) : Breaker :=
  match runs with
  | [] => b
  | (fn, now) :: rest => execute_all rest (breaker (execute fn now b))
  end.


(** What redis holds agrees with the breaker's fields: loading changes
    nothing.  This holds of a new breaker over an unreachable or an empty
    redis, and after every [persistStatus]. *)
Definition in_sync (b : Breaker) : Prop := loadStatus b = b.

End CircuitBreaker.

(** ** Agent tool loop (agents/base-agent.ts) *)

Module BaseAgent.

Inductive BlockType := text | tool_use | tool_result.

Record ContentBlock := mkBlock {
  block_type : BlockType;
  block_text : option string;
  block_id : option string;
  block_name : option string;
  block_input : option string;
  block_tool_use_id : option string;
  block_content : option string;
  block_is_error : option bool
}.

Inductive StopReason := end_turn | stop_tool_use | max_tokens | stop_sequence.

Record LLMResponse := mkResponse {
  content : list ContentBlock;
  stopReason : StopReason;
  inputTokens : Z;
  outputTokens : Z
}.

Inductive Role := user | assistant.

Record Message := mkMessage { role : Role; message_content : list ContentBlock }.

Record AgentError := mkAgentError {
  code : string;
  message : string;
  recoverable : bool
}.

(** [data] is kept as the JSON text it serialises to, [None] when it is
    [undefined] or [null]; [error] is the message as it is. *)
Record ToolResult := mkToolResult {
  success : bool;
  data : option string;
  error : option string
}.

(** The events the loop emits; the identifier and the timestamp that [emit]
    adds are left out. *)
Inductive Event :=
| AGENT_THINKING
| AGENT_TOOL_CALL (tool : option string) (args : option string)
| AGENT_TOOL_RESULT (tool : option string) (success : bool) (error : option string).

Record Agent := mkAgent {
  maxCalls : Z;
  callsMade : Z;
  tokensUsed : Z;
  state_iterationsUsed : Z;
  state_callsMade : Z;
  state_tokensUsed : Z;
  emitted : list Event
}.

Definition emit (e : Event) (a : Agent) : Agent :=
  mkAgent (maxCalls a) (callsMade a) (tokensUsed a) (state_iterationsUsed a)
          (state_callsMade a) (state_tokensUsed a) (emitted a ++ [e]).

(** [createError(code, message)]: [recoverable] defaults to [true]. *)
Definition createError (code message : string) : AgentError :=
  mkAgentError code message true.

Section Loop.

(** The world outside the agent: the model, the budget tracker and whatever
    the tools touch. *)
Variable World : Type.

(** [client.messages.create]: the API's error message, or a response. *)
Variable create : list Message -> World -> (string + LLMResponse) * World.

(** [context.budget.recordUsage]: the message of what it throws, if it
    throws. *)
Variable recordUsage : Z -> Z -> World -> option string * World.

(** [handleToolCall], which subclasses override: the message of what it
    throws, or a result. *)
Variable handleToolCall :
  option string -> option string -> World -> (string + ToolResult) * World.

Definition callLLM (messages : list Message) (a : Agent) (w : World)
    : (AgentError + LLMResponse) * Agent * World :=
  if callsMade a >=? maxCalls a then
    (inl (createError "AGENT_BUDGET_EXCEEDED"
            ("Max calls (" +:+ pretty (maxCalls a) +:+ ") exceeded")), a, w)
  else
    let a := emit AGENT_THINKING a in
    match create messages w with
    | (inl msg, w) => (inl (createError "LLM_API_ERROR" msg), a, w)
    | (inr response, w) =>
        let a := mkAgent (maxCalls a) (callsMade a + 1)
                         (tokensUsed a + (inputTokens response + outputTokens response))
                         (state_iterationsUsed a) (state_callsMade a)
                         (state_tokensUsed a) (emitted a) in
        match recordUsage (inputTokens response) (outputTokens response) w with
        | (Some msg, w) => (inl (createError "LLM_API_ERROR" msg), a, w)
        | (None, w) =>
            (inr response,
             mkAgent (maxCalls a) (callsMade a) (tokensUsed a) (state_iterationsUsed a)
                     (callsMade a) (tokensUsed a) (emitted a), w)
        end
    end.

Definition executeTool (name input : option string) (a : Agent) (w : World)
    : ToolResult * Agent * World :=
  let a := emit (AGENT_TOOL_CALL name input) a in
  let (r, w) := handleToolCall name input w in
  let result := match r with
                | inl msg => mkToolResult false None (Some msg)
                | inr result => result
                end in
  (result, emit (AGENT_TOOL_RESULT name (success result) (error result)) a, w).

(** The [for] loop over the blocks of one response.  The content of a tool
    result is [JSON.stringify(result.data ?? result.error)]. *)
Fixpoint process (blocks : list ContentBlock)
    (assistantContent toolResults : list ContentBlock) (textResponse : string)
    (a : Agent) (w : World)
    : list ContentBlock * list ContentBlock * string * Agent * World :=
  match blocks with
  | [] => (assistantContent, toolResults, textResponse, a, w)
  | block :: rest =>
      match block_type block with
      | text =>
          process rest (assistantContent ++ [block]) toolResults
                  (textResponse +:+ default "" (block_text block)) a w
      | tool_use =>
          let '(result, a, w) := executeTool (block_name block) (block_input block) a w in
          process rest (assistantContent ++ [block])
                  (toolResults ++
                   [mkBlock tool_result None None None None (block_id block)
                            (match data result with
                             | Some d => Some d
                             | None => Js.JSON_stringify <$> error result
                             end)
                            (Some (negb (success result)))])
                  textResponse a w
      | tool_result => process rest assistantContent toolResults textResponse a w
      end
  end.

Definition maxIterations : nat := 50.

(** What a run of the loop did: how it settled, how many times it called
    [callLLM], and the responses it received, oldest first. *)
Record Run := mkRun {
  settled : AgentError + (list Message * string);
  llmCalls : nat;
  received : list LLMResponse;
  agent : Agent;
  world : World
}.

(** The [while] loop with [remaining = maxIterations - iterations] turns
    left. *)
Fixpoint loop (remaining : nat) (iterations : Z) (messages : list Message)
    (llmCalls : nat) (received : list LLMResponse) (a : Agent) (w : World) : Run :=
  match remaining with
  | O =>
      mkRun (inl (createError "AGENT_LOOP_DETECTED"
                    ("Max iterations (" +:+ pretty (Z.of_nat maxIterations) +:+
                     ") exceeded")))
            llmCalls received a w
  | S remaining =>
      let iterations := iterations + 1 in
      let a := mkAgent (maxCalls a) (callsMade a) (tokensUsed a) iterations
                       (state_callsMade a) (state_tokensUsed a) (emitted a) in
      match callLLM messages a w with
      | (inl err, a, w) => mkRun (inl err) (S llmCalls) received a w
      | (inr response, a, w) =>
          let '(assistantContent, toolResults, textResponse, a, w) :=
            process (content response) [] [] "" a w in
          let messages := messages ++ [mkMessage assistant assistantContent] in
          match toolResults with
          | _ :: _ =>
              loop remaining iterations (messages ++ [mkMessage user toolResults])
                   (S llmCalls) (received ++ [response]) a w
          | [] =>
              match stopReason response with
              | end_turn =>
                  mkRun (inr (messages, textResponse)) (S llmCalls)
                        (received ++ [response]) a w
              | _ =>
                  loop remaining iterations messages (S llmCalls)
                       (received ++ [response]) a w
              end
          end
      end
  end.

Definition runAgentLoop (initialMessages : list Message) (a : Agent) (w : World) : Run :=
  loop maxIterations 0 initialMessages 0 [] a w.

End Loop.




End BaseAgent.

(** ** Orchestrator (core/orchestrator.ts) *)

Module Orchestrator.

(** The parts of the requirements and plan documents that the coverage check
    reads after [JSON.parse]. *)
Record Requirement := mkRequirement { req_id : string; req_description : string }.

Record RequirementsDocument := mkRequirements {
  explicit : list Requirement;
  implicit : list Requirement
}.

(** [coversRequirements] may be missing from a task. *)
Record PlanTask := mkTask { task_id : string; coversRequirements : option (list string) }.

Record PlanDocument := mkPlan { tasks : list PlanTask }.

Record Coverage := mkCoverage {
  isComplete : bool;
  percentage : Z;
  gaps : list string
}.

(** The two nested [for] loops that fill the [Set] of covered ids. *)
Definition coveredReqs (plan : PlanDocument) : gset string :=
  foldl (λ covered task,
           foldl (λ covered reqId, covered ∪ {[reqId]}) covered
                 (default [] (coversRequirements task)))
        ∅ (tasks plan).

(** The body of [validatePlanCoverage] once both documents are parsed. *)
Definition coverage_of (requirements : RequirementsDocument) (plan : PlanDocument)
    : Coverage :=
  let allReqs := explicit requirements ++ implicit requirements in
  let covered := coveredReqs plan in
  let gaps := map req_id (filter (λ r, req_id r ∉ covered) allReqs) in
  let percentage :=
    if (0 <? List.length allReqs)%nat
    then Js.mul (Js.div (Js.of_int (Z.of_nat (size covered)))
                        (Js.of_int (Z.of_nat (List.length allReqs))))
                (Js.of_int 100)
    else Js.of_int 100 in
  mkCoverage (bool_decide (gaps = [])) (Js.Math_round percentage) gaps.

(** What a [throw] carries, as far as [run] tells: an [Error] with its
    message, or anything else. *)
Inductive Thrown := ErrorObject (message : string) | NotAnError.

Section Coverage.

(** [JSON.parse] followed by the field accesses of the check: the error it
    throws, or the document. *)
Variable parse_requirements : string -> Thrown + RequirementsDocument.
Variable parse_plan : string -> Thrown + PlanDocument.

Definition validatePlanCoverage (knowledge : KnowledgeStore.Store) : Thrown + Coverage :=
  match KnowledgeStore.read "/requirements/main.json" None knowledge,
        KnowledgeStore.read "/plan/main.json" None knowledge with
  | Some reqDoc, Some planDoc =>
      match parse_requirements (KnowledgeStore.doc_content reqDoc) with
      | inl e => inl e
      | inr requirements =>
          match parse_plan (KnowledgeStore.doc_content planDoc) with
          | inl e => inl e
          | inr plan => inr (coverage_of requirements plan)
          end
      end
  | _, _ => inr (mkCoverage false 0 ["Documents not found"])
  end.

End Coverage.

Inductive Phase :=
| idle | intake | research | architecture | plan_validation | building
| verification | deployment | complete | failed.

Global Instance Phase_eq_dec : EqDecision Phase.
Proof. solve_decision. Defined.

Inductive AgentName := hermes | athena | hephaestus | apollo | artemis.

(** [result.data], of which [run] reads [url]. *)
Record AgentData := mkAgentData { url : option string; errors : list string }.

Record AgentResult := mkAgentResult {
  agent_success : bool;
  agent_data : option AgentData;
  agent_error_message : option string
}.

Record GenerationOptions := mkGenerationOptions {
  opt_projectId : string;
  opt_projectName : string;
  opt_prompt : string;
  opt_skipDeploy : bool
}.

(** [budget.getTotalBudget()]. *)
Record TotalBudget := mkTotalBudget { totalTokens : Z; estimatedCost : spec_float }.

(** The result of a run; [duration], which reads the clock, and [warnings],
    always empty, are left out. *)
Record GenerationResult := mkGenerationResult {
  success : bool;
  projectId : string;
  files : gmap string string;
  filesCount : nat;
  tokensUsed : Z;
  cost : spec_float;
  deployedUrl : option string;
  error : option string;
  summary : string
}.

Inductive Event :=
| GENERATION_STARTED (projectId projectName prompt : string)
| PHASE_STARTED (phase : Phase)
| PHASE_COMPLETED (phase : Phase)
| GENERATION_COMPLETED (result : GenerationResult)
| GENERATION_FAILED (error : string) (phase : Phase)
| AGENT_EVENT (agent : AgentName) (payload : string).

(** What the agents share with the orchestrator: the knowledge store, the
    files of the sandbox, the budget tracker's totals and the event
    stream. *)
Record World := mkWorld {
  knowledge : KnowledgeStore.Store;
  sandbox : gmap string string;
  budget : TotalBudget;
  stream : list Event
}.

(** The orchestrator: its options, the state machine (current phase and
    the transitions made), the checkpoints taken, and the shared world. *)
Record State := mkState {
  options : GenerationOptions;
  phase : Phase;
  history : list (Phase * Phase * string);
  checkpoints : list (string * gmap string KnowledgeStore.VersionedDocument);
  world : World
}.

Definition with_world (w : World) (st : State) : State :=
  mkState (options st) (phase st) (history st) (checkpoints st) w.

(** A step of [run]: it throws or returns, and leaves a state. *)
Definition M (A : Type) : Type := State -> (Thrown + A) * State.

Definition ret {A : Type} (x : A) : M A := λ st, (inr x, st).

Definition throw {A : Type} (e : Thrown) : M A := λ st, (inl e, st).

Definition bind {A B : Type} (m : M A) (k : A -> M B) : M B :=
  λ st, match m st with
        | (inl e, st') => (inl e, st')
        | (inr x, st') => k x st'
        end.

Global Instance M_bind : MBind M := λ A B k m, bind m k.

(** [try { m } catch (e) { handler e }]. *)
Definition try_catch {A : Type} (m : M A) (handler : Thrown -> M A) : M A :=
  λ st, match m st with
        | (inl e, st') => handler e st'
        | (inr x, st') => (inr x, st')
        end.

(** Reading a field of the orchestrator. *)
Definition get {A : Type} (f : State -> A) : M A := λ st, (inr (f st), st).

Definition emit (e : Event) : M unit :=
  λ st, (inr tt,
         with_world (mkWorld (knowledge (world st)) (sandbox (world st))
                             (budget (world st)) (stream (world st) ++ [e])) st).

(** [sandbox.getFiles()] and [budget.getTotalBudget()]. *)
Definition getFiles (st : State) : gmap string string := sandbox (world st).
Definition getTotalBudget (st : State) : TotalBudget := budget (world st).

(** [e instanceof Error ? e.message : 'Unknown error']. *)
Definition message_of (e : Thrown) : string :=
  match e with
  | ErrorObject message => message
  | NotAnError => "Unknown error"
  end.

Section Run.

Variable parse_requirements : string -> Thrown + RequirementsDocument.
Variable parse_plan : string -> Thrown + PlanDocument.

(** [agent.run()] for each of the five agents: it works on the shared world
    and throws or returns a result. *)
Variable agent_run : AgentName -> World -> (Thrown + AgentResult) * World.

(** Modelled from the spec: the [V14_PHASE_TRANSITIONS] table and the
    [StateMachine] class are not among the sources.  The specification says
    the transition table is fixed and gives each phase its valid next phases;
    [transition] moves to a phase that the table allows from the current one,
    recording the move, and throws on any other. *)
Variable transitions : Phase -> list Phase.

Definition transition (to : Phase) (reason : string) : M unit :=
  λ st, if bool_decide (to ∈ transitions (phase st))
        then (inr tt, mkState (options st) to
                              (history st ++ [(phase st, to, reason)])
                              (checkpoints st) (world st))
        else (inl (ErrorObject "Invalid phase transition"), st).

(** Modelled from the spec: the [CheckpointManager] class is not among the
    sources.  A checkpoint is the knowledge store's snapshot under the given
    tag. *)
Definition checkpoint (tag : string) : M unit :=
  λ st, (inr tt,
         mkState (options st) (phase st) (history st)
                 (checkpoints st ++ [(tag, KnowledgeStore.getSnapshot (knowledge (world st)))])
                 (world st)).

Definition run_agent (name : AgentName) : M AgentResult :=
  λ st, let (r, w) := agent_run name (world st) in (r, with_world w st).

Definition validate : M Coverage :=
  λ st, (validatePlanCoverage parse_requirements parse_plan (knowledge (world st)), st).

Definition runPhase {A : Type} (p : Phase) (label : string) (fn : M A) : M A :=
  transition p ("Starting " +:+ label) ;;
  emit (PHASE_STARTED p) ;;
  x ← fn;
  checkpoint "phase_completed" ;;
  emit (PHASE_COMPLETED p) ;;
  ret x.

(** [if (!result.success) throw new Error(result.error?.message)]. *)
Definition must_succeed (result : AgentResult) : M unit :=
  if agent_success result then ret tt
  else throw (ErrorObject (default "" (agent_error_message result))).

(** [runFixLoop] only looks the builder up. *)
Definition runFixLoop : M unit := ret tt.

(** Phase 6, unless [options.skipDeploy]; it returns [deployedUrl]. *)
Definition deploy : M (option string) :=
  λ st,
    if opt_skipDeploy (options st) then ret None st
    else runPhase deployment "deployment"
           (result ← run_agent artemis;
            must_succeed result ;;
            match agent_data result with
            | Some d => ret (url d)
            | None => throw (ErrorObject
                         "Cannot read properties of undefined (reading 'url')")
            end) st.

(** The phases of the [try] in [run], to the transition to [complete]; it
    returns [deployedUrl]. *)
Definition phases : M (option string) :=
  runPhase intake "intake" (result ← run_agent hermes; must_succeed result) ;;
  runPhase research "research" (result ← run_agent athena; must_succeed result) ;;
  runPhase plan_validation "plan_validation"
    (coverage ← validate;
     if isComplete coverage then ret tt
     else
       transition architecture "Incomplete coverage" ;;
       run_agent athena ;;
       retry ← validate;
       if isComplete retry then ret tt
       else throw (ErrorObject ("Plan only covers " +:+ pretty (percentage retry) +:+
                                "% of requirements"))) ;;
  runPhase building "building" (result ← run_agent hephaestus; must_succeed result) ;;
  runPhase verification "verification"
    (result ← run_agent apollo;
     if agent_success result then ret tt
     else transition building "Verification failed" ;; runFixLoop) ;;
  deployed ← deploy;
  transition complete "Success" ;;
  ret deployed.

(** The result [run] builds, from the sandbox and the budget as they are
    when it is built. *)
Definition result_of (success : bool) (deployed error : option string)
    (summary : string) : M GenerationResult :=
  λ st, ret (mkGenerationResult success (opt_projectId (options st)) (getFiles st)
               (size (getFiles st)) (totalTokens (getTotalBudget st))
               (estimatedCost (getTotalBudget st)) deployed error summary) st.

Definition run : M GenerationResult :=
  o ← get options;
  emit (GENERATION_STARTED (opt_projectId o) (opt_projectName o) (opt_prompt o)) ;;
  try_catch (deployed ← phases;
     result ← result_of true deployed None "Generation completed successfully";
     emit (GENERATION_COMPLETED result) ;;
     ret result)
    (λ e,
       transition failed (message_of e) ;;
       current ← get phase;
       emit (GENERATION_FAILED (message_of e) current) ;;
       result_of false None (Some (message_of e)) "Generation failed").

End Run.

End Orchestrator.

(** ** n8n callback route (app/api/v1/callbacks/n8n/route.ts) *)

Module N8nCallback.

(** [payload.result] and [payload.error]; [result_json] is the whole object
    as JSON text. *)
Record ResultData := mkResultData { output_url : option string; result_json : string }.

Record ErrorData := mkErrorData { error_code : option string; error_message : option string }.

(** The callback payload after [JSON.parse]; a field that is missing is
    [None]. *)
Record Payload := mkPayload {
  requestId : option string;
  taskId : option string;
  executionId : option string;
  workflowId : option string;
  status : option string;
  result : option ResultData;
  error : option ErrorData
}.

(** A row of [request_tasks], with the columns the route reads or writes. *)
Record Task := mkTask {
  id : string;
  request_id : string;
  task_status : string;
  task_name : string;
  assigned_to : string;
  output_data : option string;
  task_output_url : option string;
  task_error_message : option string;
  completed_at : option string
}.

(** A row of [provider_metadata]. *)
Record ProviderMetadata := mkProviderMetadata {
  meta_request_id : string;
  meta_task_id : string;
  provider_name : string;
  provider_job_id : string;
  meta_workflow_id : option string;
  meta_completed_at : string;
  meta_result : option ResultData
}.

(** The calls made on [eventLogger]. *)
Inductive Logged :=
| TaskCompleted (requestId taskId taskName assignedTo output : string)
| TaskFailed (requestId taskId taskName assignedTo errorCode errorMessage : string)
| ProviderCallback (requestId taskId provider executionId outcome : string)
                   (outputUrl : option string).

(** Everything the route can change: the two tables, the ids of the
    [content_requests] rows it joins with, the event log, and the requests
    handed to [requestOrchestrator.resumeRequest]. *)
Record World := mkWorld {
  request_tasks : list Task;
  content_requests : list string;
  provider_metadata : list ProviderMetadata;
  logged : list Logged;
  resumed : list string
}.

Inductive Body :=
| Failure (error : string)
| AlreadyDone (message currentStatus : string)
| Done (message taskId : string).

(** [success] is [false] in a [Failure] body and [true] in the others. *)
Definition body_success (b : Body) : bool :=
  match b with Failure _ => false | _ => true end.

Record Response := mkResponse { http_status : Z; body : Body }.

Record Request := mkRequest { signature_header : option string; rawBody : string }.

(** Where the route stands after the test of the task's status: it has
    answered, or it goes on with the payload and the task row it read. *)
Inductive Checked :=
| Answered (response : Response)
| InProgress (payload : Payload) (task : Task).

(** [!x] for a string that may be missing. *)
Definition missing (x : option string) : bool :=
  match x with Some s => negb (Js.truthy s) | None => true end.

(** [.select(...).eq('id', taskId).eq('request_id', requestId).single()]
    with the inner join on [content_requests]: the row, when exactly one
    matches. *)
Definition select_task (taskId requestId : string) (w : World) : option Task :=
  match filter (λ t, id t = taskId ∧ request_id t = requestId ∧
                     request_id t ∈ content_requests w) (request_tasks w) with
  | [task] => Some task
  | _ => None
  end.

(** [.update(change).eq('id', taskId)]. *)
Definition update_task (taskId : string) (change : Task -> Task) (w : World) : World :=
  mkWorld (map (λ t, if decide (id t = taskId) then change t else t) (request_tasks w))
          (content_requests w) (provider_metadata w) (logged w) (resumed w).

Definition insert_metadata (row : ProviderMetadata) (w : World) : World :=
  mkWorld (request_tasks w) (content_requests w) (provider_metadata w ++ [row])
          (logged w) (resumed w).

Definition log (e : Logged) (w : World) : World :=
  mkWorld (request_tasks w) (content_requests w) (provider_metadata w)
          (logged w ++ [e]) (resumed w).

Definition resumeRequest (requestId : string) (w : World) : World :=
  mkWorld (request_tasks w) (content_requests w) (provider_metadata w)
          (logged w) (resumed w ++ [requestId]).

Section Route.

(** [process.env.N8N_WEBHOOK_SECRET]. *)
Variable webhookSecret : option string.

(** [crypto.createHmac('sha256', key).update(body).digest('hex')]. *)
Variable hmac_sha256_hex : string -> string -> string.

(** [JSON.parse]: [None] when it throws. *)
Variable parse : string -> option Payload.

(** [new Date().toISOString()]. *)
Variable now : string.

Definition POST (request : Request) (w : World) : Response * World :=
  match webhookSecret with
  | None | Some "" =>
      (mkResponse 500 (Failure "Webhook authentication not configured"), w)
  | Some secret =>
  match signature_header request with
  | None | Some "" => (mkResponse 401 (Failure "Missing webhook signature"), w)
  | Some signature =>
  let expectedSignature := hmac_sha256_hex secret (rawBody request) in
  (* timingSafeEqual throws on buffers of different lengths; the outer catch
     answers 500 with the error's message *)
  if negb (String.length signature =? String.length expectedSignature)%nat then
    (mkResponse 500 (Failure "Input buffers must have the same byte length"), w)
  else if negb (String.eqb signature expectedSignature) then
    (mkResponse 401 (Failure "Invalid webhook signature"), w)
  else
  match parse (rawBody request) with
  | None => (mkResponse 500 (Failure "Unexpected token in JSON"), w)
  | Some payload =>
  if missing (requestId payload) || missing (taskId payload) || missing (status payload)
  then (mkResponse 400 (Failure "Missing required fields: requestId, taskId, status"), w)
  else
  let requestId := default "" (requestId payload) in
  let taskId := default "" (taskId payload) in
  match select_task taskId requestId w with
  | None => (mkResponse 404 (Failure "Task not found or request mismatch"), w)
  | Some task =>
  if negb (String.eqb (task_status task) "in_progress") then
    (mkResponse 200 (AlreadyDone "Task already completed or cancelled" (task_status task)),
     w)
  else if String.eqb (default "" (status payload)) "success" then
    let w :=
      if missing (executionId payload) then w
      else insert_metadata
             (mkProviderMetadata requestId taskId "n8n"
                (default "" (executionId payload)) (workflowId payload) now
                (result payload)) w in
    let w :=
      update_task taskId
        (λ t, mkTask (id t) (request_id t) "completed" (task_name t) (assigned_to t)
                     (Some (from_option result_json "{}" (result payload)))
                     (result payload ≫= output_url) (task_error_message t) (Some now))
        w in
    let w := log (TaskCompleted requestId taskId (task_name task) (assigned_to task)
                    (from_option result_json "{}" (result payload))) w in
    let w := log (ProviderCallback requestId taskId "n8n"
                    (if missing (executionId payload) then "unknown"
                     else default "" (executionId payload))
                    "completed" (result payload ≫= output_url)) w in
    let w := resumeRequest requestId w in
    (mkResponse 200 (Done "Task completed successfully" taskId), w)
  else
    let errorMessage :=
      match error payload ≫= error_message with
      | Some m => if Js.truthy m then m else "n8n workflow failed"
      | None => "n8n workflow failed"
      end in
    let errorCode :=
      match error payload ≫= error_code with
      | Some c => if Js.truthy c then c else "N8N_WORKFLOW_ERROR"
      | None => "N8N_WORKFLOW_ERROR"
      end in
    let w :=
      update_task taskId
        (λ t, mkTask (id t) (request_id t) "failed" (task_name t) (assigned_to t)
                     (output_data t) (task_output_url t)
                     (Some (errorCode +:+ ": " +:+ errorMessage)) (Some now))
        w in
    let w := log (TaskFailed requestId taskId (task_name task) (assigned_to task)
                    errorCode errorMessage) w in
    let w := log (ProviderCallback requestId taskId "n8n"
                    (if missing (executionId payload) then "unknown"
                     else default "" (executionId payload))
                    "failed" None) w in
    let w := resumeRequest requestId w in
    (mkResponse 200 (Done "Task failure recorded" taskId), w)
  end end end end.

(** [POST] above is the route run from its first line to its [return] with
    nothing else running meanwhile and every write carried out.  The route
    is an [async] function: it reads the task at one [await] and writes at
    later ones, and another delivery can run in between; and what [insert]
    and [update] return, an error included, is not looked at.  The two
    halves follow.

    [check]: the route up to and including the test of the task's status.
    It changes nothing; it answers, or finds the task in progress. *)
Definition check (request : Request) (w : World) : Checked :=
  match webhookSecret with
  | None | Some "" =>
      Answered (mkResponse 500 (Failure "Webhook authentication not configured"))
  | Some secret =>
  match signature_header request with
  | None | Some "" => Answered (mkResponse 401 (Failure "Missing webhook signature"))
  | Some signature =>
  let expectedSignature := hmac_sha256_hex secret (rawBody request) in
  if negb (String.length signature =? String.length expectedSignature)%nat then
    Answered (mkResponse 500 (Failure "Input buffers must have the same byte length"))
  else if negb (String.eqb signature expectedSignature) then
    Answered (mkResponse 401 (Failure "Invalid webhook signature"))
  else
  match parse (rawBody request) with
  | None => Answered (mkResponse 500 (Failure "Unexpected token in JSON"))
  | Some payload =>
  if missing (requestId payload) || missing (taskId payload) || missing (status payload)
  then Answered
         (mkResponse 400 (Failure "Missing required fields: requestId, taskId, status"))
  else
  match select_task (default "" (taskId payload)) (default "" (requestId payload)) w with
  | None => Answered (mkResponse 404 (Failure "Task not found or request mismatch"))
  | Some task =>
  if negb (String.eqb (task_status task) "in_progress") then
    Answered
      (mkResponse 200 (AlreadyDone "Task already completed or cancelled" (task_status task)))
  else InProgress payload task
  end end end end.

(** [complete]: the route from there on, with the payload and the task row
    it read, on the tables as they are by then.  [inserted] and [updated]
    say whether the database carried out the insert and the update. *)
Definition complete (inserted updated : bool) (payload : Payload) (task : Task)
    (w : World) : Response * World :=
  let requestId := default "" (requestId payload) in
  let taskId := default "" (taskId payload) in
  if String.eqb (default "" (status payload)) "success" then
    let w :=
      if missing (executionId payload) || negb inserted then w
      else insert_metadata
             (mkProviderMetadata requestId taskId "n8n"
                (default "" (executionId payload)) (workflowId payload) now
                (result payload)) w in
    let w :=
      if updated then
        update_task taskId
          (λ t, mkTask (id t) (request_id t) "completed" (task_name t) (assigned_to t)
                       (Some (from_option result_json "{}" (result payload)))
                       (result payload ≫= output_url) (task_error_message t) (Some now))
          w
      else w in
    let w := log (TaskCompleted requestId taskId (task_name task) (assigned_to task)
                    (from_option result_json "{}" (result payload))) w in
    let w := log (ProviderCallback requestId taskId "n8n"
                    (if missing (executionId payload) then "unknown"
                     else default "" (executionId payload))
                    "completed" (result payload ≫= output_url)) w in
    let w := resumeRequest requestId w in
    (mkResponse 200 (Done "Task completed successfully" taskId), w)
  else
    let errorMessage :=
      match error payload ≫= error_message with
      | Some m => if Js.truthy m then m else "n8n workflow failed"
      | None => "n8n workflow failed"
      end in
    let errorCode :=
      match error payload ≫= error_code with
      | Some c => if Js.truthy c then c else "N8N_WORKFLOW_ERROR"
      | None => "N8N_WORKFLOW_ERROR"
      end in
    let w :=
      if updated then
        update_task taskId
          (λ t, mkTask (id t) (request_id t) "failed" (task_name t) (assigned_to t)
                       (output_data t) (task_output_url t)
                       (Some (errorCode +:+ ": " +:+ errorMessage)) (Some now))
          w
      else w in
    let w := log (TaskFailed requestId taskId (task_name task) (assigned_to task)
                    errorCode errorMessage) w in
    let w := log (ProviderCallback requestId taskId "n8n"
                    (if missing (executionId payload) then "unknown"
                     else default "" (executionId payload))
                    "failed" None) w in
    let w := resumeRequest requestId w in
    (mkResponse 200 (Done "Task failure recorded" taskId), w).

End Route.

End N8nCallback.

(** ** Response handler (api/response-handler.ts) *)

Module ResponseHandler.

Record UserResponse := mkUserResponse {
  ur_questionId : string;
  response : string;
  selectedOptionId : option string;
  timedOut : bool;
  ur_timestamp : Z
}.

(** The argument of [submitResponse]: a string or an object, as its type
    declares, or [undefined] or [null], which the [PUT] route hands over like
    any other [body.response]. *)
Inductive Answer :=
| Plain (response : string)
| Structured (response : string) (selectedOptionId : option string)
| Nullish.

(** How a call of [submitResponse] ends: it returns a boolean, or a
    [TypeError] is thrown. *)
Inductive Outcome := Returned (answered : bool) | TypeError.

(** A pending question.  [resolve] is the promise its [resolve] function
    settles and [timeout] the timer [setTimeout] returned, both by
    identifier. *)
Record PendingQuestion := mkPending {
  sessionId : string;
  questionId : string;
  timestamp : Z;
  resolve : nat;
  timeout : nat
}.

(** An armed timer: what its callback closes over (the key, the question
    id and the promise's [resolve]) and its delay. *)
Record Timer := mkTimer {
  timer_key : string;
  timer_questionId : string;
  timer_resolve : nat;
  timer_delay : Z
}.

(** Who called a promise's [resolve]. *)
Inductive Source := BySubmit (answer : Answer) | ByTimer | ByCancel.

(** One call of a [resolve] function. *)
Record Resolution := mkResolution {
  promise : nat;
  source : Source;
  value : UserResponse
}.

(** The handler with the part of the runtime it drives: the armed timers and
    the calls made so far of the promises' [resolve] functions, oldest first.
    [next] numbers the promises and timers. *)
Record Handler := mkHandler {
  pendingQuestions : gmap string PendingQuestion;
  defaultTimeout : Z;
  timers : gmap nat Timer;
  resolved : list Resolution;
  next : nat
}.

Definition new : Handler := mkHandler ∅ 120000 ∅ [] 0.

Definition makeKey (sessionId questionId : string) : string :=
  sessionId +:+ ":" +:+ questionId.

(** [waitForResponse]: the promise it returns, and the handler with the
    timer armed and the question registered. *)
Definition waitForResponse (sessionId questionId : string) (timeout : option Z)
    (now : Z) (h : Handler) : nat * Handler :=
  let key := makeKey sessionId questionId in
  let promise := next h in
  let timeoutId := next h in
  (promise,
   mkHandler
     (<[key := mkPending sessionId questionId now promise timeoutId]> (pendingQuestions h))
     (defaultTimeout h)
     (<[timeoutId := mkTimer key questionId promise (default (defaultTimeout h) timeout)]>
        (timers h))
     (resolved h) (S (next h))).

(** The callback given to [setTimeout], run by the runtime when the timer
    [t] is due and has not been cleared. *)
Definition fire (t : nat) (now : Z) (h : Handler) : Handler :=
  match timers h !! t with
  | None => h
  | Some timer =>
      match pendingQuestions h !! timer_key timer with
      | Some _ =>
          mkHandler (delete (timer_key timer) (pendingQuestions h)) (defaultTimeout h)
                    (delete t (timers h))
                    (resolved h ++
                     [mkResolution (timer_resolve timer) ByTimer
                        (mkUserResponse (timer_questionId timer) "" None true now)])
                    (next h)
      | None =>
          mkHandler (pendingQuestions h) (defaultTimeout h) (delete t (timers h))
                    (resolved h) (next h)
      end
  end.

(** [submitResponse].  The timer is cleared and the entry deleted before
    the response is built; reading [response.response] of [undefined] or
    [null] throws there, before [resolve] is called. *)
Definition submitResponse (sessionId questionId : string) (answer : Answer) (now : Z)
    (h : Handler) : Outcome * Handler :=
  let key := makeKey sessionId questionId in
  match pendingQuestions h !! key with
  | None => (Returned false, h)
  | Some pending =>
      let pendingQuestions' := delete key (pendingQuestions h) in
      let timers' := delete (timeout pending) (timers h) in
      let resolve_with userResponse :=
        (Returned true,
         mkHandler pendingQuestions' (defaultTimeout h) timers'
                   (resolved h ++
                    [mkResolution (resolve pending) (BySubmit answer) userResponse])
                   (next h)) in
      match answer with
      | Plain r => resolve_with (mkUserResponse questionId r None false now)
      | Structured r o => resolve_with (mkUserResponse questionId r o false now)
      | Nullish =>
          (TypeError,
           mkHandler pendingQuestions' (defaultTimeout h) timers' (resolved h) (next h))
      end
  end.

Definition hasPending (sessionId questionId : string) (h : Handler) : bool :=
  bool_decide (is_Some (pendingQuestions h !! makeKey sessionId questionId)).

(** The body of a [PUT] request to the generation route after
    [request.json()]: the three fields the route takes from it. *)
Record PutBody := mkPutBody {
  put_sessionId : option string;
  put_questionId : option string;
  put_response : Answer
}.

(** The [PUT] route (api/generate/v14/route.ts), by the status it answers
    with; [body] is [None] when reading it throws.  The route hands
    [body.response] to [submitResponse] as it is and does not look at what
    comes back; a throw is answered 500. *)
Definition PUT (body : option PutBody) (now : Z) (h : Handler) : Z * Handler :=
  match body with
  | None => (500, h)
  | Some b =>
      match put_sessionId b, put_questionId b with
      | Some sessionId, Some questionId =>
          if Js.truthy sessionId && Js.truthy questionId then
            match submitResponse sessionId questionId (put_response b) now h with
            | (Returned _, h') => (200, h')
            | (TypeError, h') => (500, h')
            end
          else (400, h)
      | _, _ => (400, h)
      end
  end.

(** What [cancelSession] does to the entry under a key: the resolution
    carries the question id of the entry. *)
Definition cancel_key (key : string) (now : Z) (h : Handler) : bool * Handler :=
  match pendingQuestions h !! key with
  | None => (false, h)
  | Some pending =>
      (true,
       mkHandler (delete key (pendingQuestions h)) (defaultTimeout h)
                 (delete (timeout pending) (timers h))
                 (resolved h ++
                  [mkResolution (resolve pending) ByCancel
                     (mkUserResponse (questionId pending) "" None true now)])
                 (next h))
  end.

(** [cancel]: the resolution carries the question id the call is given. *)
Definition cancel (sessionId questionId : string) (now : Z) (h : Handler)
    : bool * Handler :=
  let key := makeKey sessionId questionId in
  match pendingQuestions h !! key with
  | None => (false, h)
  | Some pending =>
      (true,
       mkHandler (delete key (pendingQuestions h)) (defaultTimeout h)
                 (delete (timeout pending) (timers h))
                 (resolved h ++
                  [mkResolution (resolve pending) ByCancel
                     (mkUserResponse questionId "" None true now)])
                 (next h))
  end.

(** [cancelSession]: every entry of the session is cancelled.  The order of
    the calls is the map's iteration order, which the model does not keep. *)
Definition cancelSession (sessionId' : string) (now : Z) (h : Handler) : nat * Handler :=
  let keys := (map_to_list (filter (λ kv, sessionId (snd kv) = sessionId')
                                   (pendingQuestions h))).*1 in
  (List.length keys, foldl (λ h key, snd (cancel_key key now h)) h keys).

Definition getPendingCount (h : Handler) : nat := size (pendingQuestions h).

(** What can happen to a handler: a call of one of its methods, or a timer
    coming due. *)
Inductive Event :=
| Wait (sessionId questionId : string) (timeout : option Z) (now : Z)
| Submit (sessionId questionId : string) (answer : Answer) (now : Z)
| Fire (timer : nat) (now : Z)
| Cancel (sessionId questionId : string) (now : Z)
| CancelSession (sessionId : string) (now : Z).

Definition step (e : Event) (h : Handler) : Handler :=
  match e with
  | Wait sessionId questionId timeout now =>
      snd (waitForResponse sessionId questionId timeout now h)
  | Submit sessionId questionId answer now =>
      snd (submitResponse sessionId questionId answer now h)
  | Fire timer now => fire timer now h
  | Cancel sessionId questionId now => snd (cancel sessionId questionId now h)
  | CancelSession sessionId now => snd (cancelSession sessionId now h)
  end.



(** The calls made of the [resolve] function of a promise. *)
Definition resolutions (p : nat) (h : Handler) : list Resolution :=
  filter (λ r, promise r = p) (resolved h).

End ResponseHandler.

(** ** In-memory sandbox (sandbox/memory-sandbox.ts) *)

Module MemorySandbox.

(** What [eventStream.emit] is given. *)
Inductive Event :=
| FILE_CREATED (path : string) (size lines : nat)
| FILE_UPDATED (path : string) (size lines : nat)
| FILE_DELETED (path : string)
| CHECKPOINT_CREATED (checkpointId : string) (fileCount : nat)
| CHECKPOINT_RESTORED (checkpointId : string) (fileCount : nat).

(** [metadata] is kept as the JSON text it serialises to. *)
Record SandboxSnapshot := mkSnapshot {
  snap_id : string;
  snap_timestamp : Z;
  snap_files : gmap string string;
  snap_metadata : option string
}.

(** The sandbox: its files, its snapshots, oldest first, and the log of the
    event stream. *)
Record Sandbox := mkSandbox {
  files : gmap string string;
  snapshots : list SandboxSnapshot;
  events : list Event
}.

Definition maxSnapshots : nat := 5.

(** [new MemorySandbox(config)]. *)
Definition new (initialFiles : option (gmap string string)) : Sandbox :=
  mkSandbox (default ∅ initialFiles) [] [].

Definition emit (e : Event) (s : Sandbox) : Sandbox :=
  mkSandbox (files s) (snapshots s) (events s ++ [e]).

(** [.replace(/\\/g, '/')]. *)
Fixpoint slashes (s : string) : string :=
  match s with
  | EmptyString => EmptyString
  | String c rest => String (if Ascii.eqb c "\" then "/"%char else c) (slashes rest)
  end.

(** [.replace(/^\/+/, '')]. *)
Fixpoint strip_leading (s : string) : string :=
  match s with
  | EmptyString => EmptyString
  | String c rest => if Ascii.eqb c "/" then strip_leading rest else s
  end.

(** [.replace(/\/+/g, '/')]: every run of slashes becomes one slash;
    [after_slash] says that the character before was a slash. *)
Fixpoint collapse_from (after_slash : bool) (s : string) : string :=
  match s with
  | EmptyString => EmptyString
  | String c rest =>
      if Ascii.eqb c "/"
      then if after_slash then collapse_from true rest
           else String "/" (collapse_from true rest)
      else String c (collapse_from false rest)
  end.

Definition collapse (s : string) : string := collapse_from false s.

Definition normalizePath (path : string) : string :=
  collapse (strip_leading (slashes path)).

(** [writeFile]: whether the file existed is asked of the path as given,
    the content is stored under the normalised path. *)
Definition writeFile (path content : string) (s : Sandbox) : Sandbox :=
  let existed := bool_decide (is_Some (files s !! path)) in
  let s := mkSandbox (<[normalizePath path := content]> (files s)) (snapshots s)
                     (events s) in
  emit ((if existed then FILE_UPDATED else FILE_CREATED) path (String.length content)
          (List.length (Js.split "010" content))) s.

(** [readFile]: the message of the error it throws, or the content. *)
Definition readFile (path : string) (s : Sandbox) : string + string :=
  match files s !! normalizePath path with
  | Some content => inr content
  | None => inl ("File not found: " +:+ path)
  end.

Definition deleteFile (path : string) (s : Sandbox) : bool * Sandbox :=
  match files s !! normalizePath path with
  | Some _ =>
      (true, emit (FILE_DELETED path)
                  (mkSandbox (delete (normalizePath path) (files s)) (snapshots s)
                             (events s)))
  | None => (false, s)
  end.

Definition fileExists (path : string) (s : Sandbox) : bool :=
  bool_decide (is_Some (files s !! normalizePath path)).

Definition getFiles (s : Sandbox) : gmap string string := files s.

Definition getFileCount (s : Sandbox) : nat := size (files s).

(** [createSnapshot]: [id] is what [crypto.randomUUID()] returns and [now]
    the clock.  The [while] loop shifts the oldest snapshots out until at
    most [maxSnapshots] are left. *)
Definition createSnapshot (id : string) (now : Z) (metadata : option string)
    (s : Sandbox) : string * Sandbox :=
  let pushed := snapshots s ++ [mkSnapshot id now (files s) metadata] in
  (id, emit (CHECKPOINT_CREATED id (size (files s)))
            (mkSandbox (files s) (drop (List.length pushed - maxSnapshots) pushed)
                       (events s))).

(** [restoreSnapshot]: the first snapshot with the id, if there is one. *)
Definition restoreSnapshot (snapshotId : string) (s : Sandbox) : bool * Sandbox :=
  match List.find (λ snapshot, String.eqb (snap_id snapshot) snapshotId) (snapshots s) with
  | Some snapshot =>
      (true, emit (CHECKPOINT_RESTORED snapshotId (size (snap_files snapshot)))
                  (mkSandbox (snap_files snapshot) (snapshots s) (events s)))
  | None => (false, s)
  end.

Definition listSnapshots (s : Sandbox) : list (string * Z * nat) :=
  map (λ snapshot, (snap_id snapshot, snap_timestamp snapshot, size (snap_files snapshot)))
      (snapshots s).

Definition clear (s : Sandbox) : Sandbox := mkSandbox ∅ (snapshots s) (events s).

(** One call on the sandbox. *)
Inductive Op :=
| WriteFile (path content : string)
| DeleteFile (path : string)
| CreateSnapshot (id : string) (now : Z) (metadata : option string)
| RestoreSnapshot (snapshotId : string)
| Clear.

Definition step (op : Op) (s : Sandbox) : Sandbox :=
  match op with
  | WriteFile path content => writeFile path content s
  | DeleteFile path => snd (deleteFile path s)
  | CreateSnapshot id now metadata => snd (createSnapshot id now metadata s)
  | RestoreSnapshot snapshotId => snd (restoreSnapshot snapshotId s)
  | Clear => clear s
  end.

Definition run (ops : list Op) (s : Sandbox) : Sandbox := foldl (λ s op, step op s) s ops.

(** How many snapshots a sequence of calls creates, and under which ids. *)
Fixpoint created_ids (ops : list Op) : list string :=
  match ops with
  | [] => []
  | CreateSnapshot id _ _ :: rest => id :: created_ids rest
  | _ :: rest => created_ids rest
  end.

Definition creates (ops : list Op) : nat := List.length (created_ids ops).

(** A path in the form [normalizePath] produces: no backslash, no slash at
    the start, no two slashes in a row. *)
Fixpoint tidy (after_slash : bool) (s : string) : bool :=
  match s with
  | EmptyString => true
  | String c rest =>
      if Ascii.eqb c "\" then false
      else if Ascii.eqb c "/" then negb after_slash && tidy true rest
      else tidy false rest
  end.

Definition normal (path : string) : bool := tidy true path.

End MemorySandbox.

(** ** Session manager (api/session-manager.ts) *)

Module SessionManager.

Inductive Status := active | completed | failed | aborted.

(** A session; the orchestrator it holds is an object, kept by identity. *)
Record Session := mkSession {
  session_id : string;
  orchestrator : nat;
  createdAt : Z;
  lastActivity : Z;
  status : Status
}.

(** The manager: its sessions, and whether its cleanup interval is
    running. *)
Record Manager := mkManager {
  sessions : gmap string Session;
  cleanupInterval : bool
}.

Definition maxSessionAge : Z := 3600000.

(** [new SessionManager()]: the constructor starts the cleanup interval. *)
Definition new : Manager := mkManager ∅ true.

Definition with_sessions (m : gmap string Session) (mgr : Manager) : Manager :=
  mkManager m (cleanupInterval mgr).

Definition set_status (st : Status) (s : Session) : Session :=
  mkSession (session_id s) (orchestrator s) (createdAt s) (lastActivity s) st.

Definition register (sessionId : string) (orchestrator : nat) (now : Z) (mgr : Manager)
    : Manager :=
  with_sessions (<[sessionId := mkSession sessionId orchestrator now now active]>
                   (sessions mgr)) mgr.

Definition unregister (sessionId : string) (mgr : Manager) : Manager :=
  with_sessions (alter (set_status completed) sessionId (sessions mgr)) mgr.

Definition get (sessionId : string) (mgr : Manager) : option Session :=
  sessions mgr !! sessionId.

Definition getOrchestrator (sessionId : string) (mgr : Manager) : option nat :=
  orchestrator <$> sessions mgr !! sessionId.

Definition touch (sessionId : string) (now : Z) (mgr : Manager) : Manager :=
  with_sessions
    (alter (λ s, mkSession (session_id s) (orchestrator s) (createdAt s) now (status s))
           sessionId (sessions mgr)) mgr.

Definition markFailed (sessionId : string) (mgr : Manager) : Manager :=
  with_sessions (alter (set_status failed) sessionId (sessions mgr)) mgr.

Definition abort (sessionId : string) (mgr : Manager) : bool * Manager :=
  match sessions mgr !! sessionId with
  | Some session =>
      match status session with
      | active =>
          (true, with_sessions (<[sessionId := set_status aborted session]> (sessions mgr))
                               mgr)
      | _ => (false, mgr)
      end
  | None => (false, mgr)
  end.

(** [getStatus]: [None] for [{ found: false }], the status and the age
    otherwise. *)
Definition getStatus (sessionId : string) (now : Z) (mgr : Manager)
    : option (Status * Z) :=
  (λ session, (status session, now - createdAt session)) <$> sessions mgr !! sessionId.

(** [getActiveCount]: the loop over the values that counts the active
    ones. *)
Definition getActiveCount (mgr : Manager) : nat :=
  map_fold (λ _ session count,
              match status session with active => S count | _ => count end)
           0%nat (sessions mgr).

(** The two tests of [cleanup], in the order the loop makes them. *)
Definition too_old (now : Z) (session : Session) : bool :=
  now - createdAt session >? maxSessionAge.

Definition finished_and_idle (now : Z) (session : Session) : bool :=
  match status session with
  | completed | failed => now - lastActivity session >? 300000
  | _ => false
  end.

(** [cleanup]: the loop over the entries, deleting from the map it iterates.
    An entry deleted is not visited again and none is added, so every entry
    the map held when the loop started is visited once. *)
Definition cleanup (now : Z) (mgr : Manager) : Manager :=
  with_sessions
    (foldl (λ m entry,
              if too_old now (snd entry) then delete (fst entry) m
              else if finished_and_idle now (snd entry) then delete (fst entry) m
              else m)
           (sessions mgr) (map_to_list (sessions mgr))) mgr.

Definition destroy (mgr : Manager) : Manager := mkManager ∅ false.

End SessionManager.

(** ** Memory store (memory/retrieval.ts) *)

Module MemoryStore.

Record MemoryEntry := mkEntry {
  id : string;
  type : string;
  category : string;
  content : string;
  embedding : option (list spec_float);
  tags : list string;
  sourceProject : option string;
  createdBy : string;
  createdAt : Z;
  accessCount : Z;
  lastAccessedAt : Z;
  confidence : spec_float;
  metadata : option string
}.

(** What [store] is given: an entry without [id], [accessCount] and
    [lastAccessedAt].  An [embedding] in it would be overwritten, so it is
    left out. *)
Record NewEntry := mkNewEntry {
  new_type : string;
  new_category : string;
  new_content : string;
  new_tags : list string;
  new_sourceProject : option string;
  new_createdBy : string;
  new_createdAt : Z;
  new_confidence : spec_float;
  new_metadata : option string
}.

Record StoreResult := mkStoreResult {
  success : bool;
  result_id : option string;
  error : option string
}.

(** The store.  [entries] is the [Map] in insertion order, which
    [evictLeastUsed] observes. *)
Record Store := mkStore {
  entries : list (string * MemoryEntry);
  maxEntries : Z;
  maxContentSize : Z;
  minConfidence : spec_float;
  embeddingEnabled : bool
}.

Record MemoryConfig := mkConfig {
  cfg_maxEntries : option Z;
  cfg_maxContentSize : option Z;
  cfg_minConfidence : option spec_float;
  cfg_embeddingEnabled : option bool
}.

(** The default [minConfidence] is the double written [0.3]. *)
Definition new (config : MemoryConfig) : Store :=
  mkStore [] (default 10000 (cfg_maxEntries config))
          (default 50000 (cfg_maxContentSize config))
          (default (Js.div (Js.of_int 3) (Js.of_int 10)) (cfg_minConfidence config))
          (default true (cfg_embeddingEnabled config)).

Definition with_entries (l : list (string * MemoryEntry)) (s : Store) : Store :=
  mkStore l (maxEntries s) (maxContentSize s) (minConfidence s) (embeddingEnabled s).

(** [Map.prototype.set]: an existing key keeps its place. *)
Fixpoint map_set (key : string) (entry : MemoryEntry) (l : list (string * MemoryEntry))
    : list (string * MemoryEntry) :=
  match l with
  | [] => [(key, entry)]
  | (k, e) :: rest =>
      if String.eqb k key then (k, entry) :: rest else (k, e) :: map_set key entry rest
  end.

Definition map_get (key : string) (l : list (string * MemoryEntry)) : option MemoryEntry :=
  snd <$> List.find (λ kv, String.eqb (fst kv) key) l.

Definition map_delete (key : string) (l : list (string * MemoryEntry))
    : list (string * MemoryEntry) :=
  filter (λ kv, fst kv ≠ key) l.

(** The test of the loop in [evictLeastUsed], once [leastUsed] is set. *)
Definition less_used (entry least : MemoryEntry) : bool :=
  (accessCount entry <? accessCount least) ||
  (accessCount entry =? accessCount least) &&
  (lastAccessedAt entry <? lastAccessedAt least).

Definition leastUsed (l : list (string * MemoryEntry)) : option MemoryEntry :=
  foldl (λ least kv,
           match least with
           | None => Some (snd kv)
           | Some least' => if less_used (snd kv) least' then Some (snd kv) else Some least'
           end) None l.

Definition evictLeastUsed (s : Store) : Store :=
  match leastUsed (entries s) with
  | Some least => with_entries (map_delete (id least) (entries s)) s
  | None => s
  end.

Section Store.

(** [embeddings.embed]: [None] when it throws. *)
Variable embed : string -> option (list spec_float).

(** [store] from its call to its return, when no other call runs while it
    waits for the embedding: [newId] is what [uuid()] returns and [now] the
    clock. *)
Definition store (entry : NewEntry) (newId : string) (now : Z) (s : Store)
    : StoreResult * Store :=
  if Z.of_nat (String.length (new_content entry)) >? maxContentSize s then
    (mkStoreResult false None (Some "Content too large"), s)
  else if SFltb (new_confidence entry) (minConfidence s) then
    (mkStoreResult false None (Some "Confidence too low"), s)
  else
    let s := if Z.of_nat (List.length (entries s)) >=? maxEntries s
             then evictLeastUsed s else s in
    let embedding := if embeddingEnabled s then embed (new_content entry) else None in
    let fullEntry :=
      mkEntry newId (new_type entry) (new_category entry) (new_content entry) embedding
              (new_tags entry) (new_sourceProject entry) (new_createdBy entry)
              (new_createdAt entry) 0 now (new_confidence entry) (new_metadata entry) in
    (mkStoreResult true (Some newId) None,
     with_entries (map_set newId fullEntry (entries s)) s).

Definition get (key : string) (s : Store) : option MemoryEntry := map_get key (entries s).

Definition delete (key : string) (s : Store) : bool * Store :=
  (bool_decide (is_Some (map_get key (entries s))),
   with_entries (map_delete key (entries s)) s).

Definition recordAccess (key : string) (now : Z) (s : Store) : Store :=
  with_entries
    (map (λ kv, if String.eqb (fst kv) key
                then (fst kv,
                      let e := snd kv in
                      mkEntry (id e) (type e) (category e) (content e) (embedding e)
                              (tags e) (sourceProject e) (createdBy e) (createdAt e)
                              (accessCount e + 1) now (confidence e) (metadata e))
                else kv) (entries s)) s.

Definition clear (s : Store) : Store := with_entries [] s.

(** One call on the store. *)
Inductive Op :=
| StoreEntry (entry : NewEntry) (newId : string) (now : Z)
| Delete (key : string)
| RecordAccess (key : string) (now : Z)
| Clear.

Definition step (op : Op) (s : Store) : Store :=
  match op with
  | StoreEntry entry newId now => snd (store entry newId now s)
  | Delete key => snd (delete key s)
  | RecordAccess key now => recordAccess key now s
  | Clear => clear s
  end.

Definition run (ops : list Op) (s : Store) : Store := foldl (λ s op, step op s) s ops.

End Store.

(** [store] is an [async] function: when embedding is enabled it waits at
    [await this.embeddings.embed(...)], and other calls on the store run
    before it goes on.  A call that waits has passed the two checks and the
    capacity test and has drawn its id and its time stamp. *)
Record InFlight := mkInFlight {
  flight_id : string;
  flight_entry : NewEntry;
  flight_now : Z
}.

(** [store] up to the [await]: the refusal, or the call as it waits, and the
    store after the eviction. *)
Definition store_begin (entry : NewEntry) (newId : string) (now : Z) (s : Store)
    : (StoreResult + InFlight) * Store :=
  if Z.of_nat (String.length (new_content entry)) >? maxContentSize s then
    (inl (mkStoreResult false None (Some "Content too large")), s)
  else if SFltb (new_confidence entry) (minConfidence s) then
    (inl (mkStoreResult false None (Some "Confidence too low")), s)
  else
    (inr (mkInFlight newId entry now),
     if Z.of_nat (List.length (entries s)) >=? maxEntries s then evictLeastUsed s else s).

(** [store] from the [await] on, with the embedding that came back, [None]
    when [embed] threw: the entry is set in the store as it is by then. *)
Definition store_finish (call : InFlight) (embedding : option (list spec_float))
    (s : Store) : StoreResult * Store :=
  let entry := flight_entry call in
  let fullEntry :=
    mkEntry (flight_id call) (new_type entry) (new_category entry) (new_content entry)
            embedding (new_tags entry) (new_sourceProject entry) (new_createdBy entry)
            (new_createdAt entry) 0 (flight_now call) (new_confidence entry)
            (new_metadata entry) in
  (mkStoreResult true (Some (flight_id call)) None,
   with_entries (map_set (flight_id call) fullEntry (entries s)) s).

(** The store with the calls of [store] that wait for their embedding. *)
Record Machine := mkMachine { the_store : Store; waiting : list InFlight }.

(** What happens to the store, one thing at a time: a call of [store]
    starts, the embedding of a waiting call arrives, or one of the calls that
    do not wait is made. *)
Inductive Event :=
| StoreStarts (entry : NewEntry) (newId : string) (now : Z)
| EmbeddingArrives (newId : string) (embedding : option (list spec_float))
| DeleteCalled (key : string)
| RecordAccessCalled (key : string) (now : Z)
| ClearCalled.

(** The first waiting call with an id, and the others. *)
Fixpoint take_flight (newId : string) (calls : list InFlight)
    : option InFlight * list InFlight :=
  match calls with
  | [] => (None, [])
  | call :: rest =>
      if String.eqb (flight_id call) newId then (Some call, rest)
      else let (found, rest') := take_flight newId rest in (found, call :: rest')
  end.

(** With embedding disabled [store] has no [await] and runs to its end. *)
Definition advance (e : Event) (m : Machine) : Machine :=
  match e with
  | StoreStarts entry newId now =>
      match store_begin entry newId now (the_store m) with
      | (inl _, s) => mkMachine s (waiting m)
      | (inr call, s) =>
          if embeddingEnabled s then mkMachine s (waiting m ++ [call])
          else mkMachine (snd (store_finish call None s)) (waiting m)
      end
  | EmbeddingArrives newId embedding =>
      match take_flight newId (waiting m) with
      | (Some call, rest) =>
          mkMachine (snd (store_finish call embedding (the_store m))) rest
      | (None, _) => m
      end
  | DeleteCalled key => mkMachine (snd (delete key (the_store m))) (waiting m)
  | RecordAccessCalled key now => mkMachine (recordAccess key now (the_store m)) (waiting m)
  | ClearCalled => mkMachine (clear (the_store m)) (waiting m)
  end.

Definition execute (events : list Event) (m : Machine) : Machine :=
  foldl (λ m e, advance e m) m events.

(** A call of [store] gets past the capacity test. *)
Definition passes (e : Event) (m : Machine) : bool :=
  match e with
  | StoreStarts entry newId now =>
      match store_begin entry newId now (the_store m) with
      | (inr _, _) => true
      | (inl _, _) => false
      end
  | _ => false
  end.

(** The largest number of calls of [store] that are, at one moment of a
    run, past the capacity test and not yet at [entries.set]. *)
Fixpoint overlap (events : list Event) (m : Machine) : nat :=
  match events with
  | [] => 0
  | e :: events' =>
      Nat.max (if passes e m then S (List.length (waiting m)) else 0)
              (overlap events' (advance e m))
  end.

End MemoryStore.

(** ** Embedding service (memory/embeddings.ts) *)

Module EmbeddingService.

(** [ToInt32]: what the bit operators make of a number. *)
Definition to_int32 (z : Z) : Z := (z + 2 ^ 31) mod 2 ^ 32 - 2 ^ 31.

(** [text.slice(0, n)]. *)
Fixpoint slice_start (n : nat) (s : string) : string :=
  match n, s with
  | S n, String c rest => String c (slice_start n rest)
  | _, _ => EmptyString
  end.

(** One turn of the loop of [getCacheKey]:
    [hash = ((hash << 5) - hash) + char; hash = hash & hash]. *)
Definition hash_step (hash : Z) (c : ascii) : Z :=
  to_int32 (to_int32 (hash * 2 ^ 5) - hash + Z.of_nat (nat_of_ascii c)).

Fixpoint hash_from (hash : Z) (s : string) : Z :=
  match s with
  | EmptyString => hash
  | String c rest => hash_from (hash_step hash c) rest
  end.

(** The service: its configuration, its cache in insertion order, and the
    inputs it has sent to the embeddings API, oldest first. *)
Record Service := mkService {
  model : string;
  dimensions : Z;
  cache : list (string * list spec_float);
  cacheEnabled : bool;
  maxCacheSize : Z;
  requests : list string
}.

Definition getCacheKey (text : string) (s : Service) : string :=
  model s +:+ ":" +:+ pretty (dimensions s) +:+ ":" +:+
  pretty (hash_from 0 (slice_start 1000 text)).

Definition truncateText (text : string) : string :=
  if Z.of_nat (String.length text) >? 30000
  then slice_start (Z.to_nat 30000) text else text.

(** [Map.prototype.get], [set] and [delete] on the cache. *)
Definition cache_get (key : string) (l : list (string * list spec_float))
    : option (list spec_float) :=
  snd <$> List.find (λ kv, String.eqb (fst kv) key) l.

Fixpoint cache_set (key : string) (embedding : list spec_float)
    (l : list (string * list spec_float)) : list (string * list spec_float) :=
  match l with
  | [] => [(key, embedding)]
  | (k, e) :: rest =>
      if String.eqb k key then (k, embedding) :: rest
      else (k, e) :: cache_set key embedding rest
  end.

Definition cache_delete (key : string) (l : list (string * list spec_float))
    : list (string * list spec_float) :=
  filter (λ kv, fst kv ≠ key) l.

Definition with_cache (l : list (string * list spec_float)) (s : Service) : Service :=
  mkService (model s) (dimensions s) l (cacheEnabled s) (maxCacheSize s) (requests s).

(** [addToCache]: at capacity the oldest key goes first. *)
Definition addToCache (key : string) (embedding : list spec_float) (s : Service) : Service :=
  let kept :=
    if Z.of_nat (List.length (cache s)) >=? maxCacheSize s then
      match cache s with
      | (firstKey, _) :: _ =>
          if Js.truthy firstKey then cache_delete firstKey (cache s) else cache s
      | [] => cache s
      end
    else cache s in
  with_cache (cache_set key embedding kept) s.

Section Embed.

(** [openai.embeddings.create({ model, input, dimensions })], of which
    [embed] reads [data[0].embedding]: [None] when it throws. *)
Variable create : string -> string -> Z -> option (list spec_float).

(** [embed]: [None] when it throws. *)
Definition embed (text : string) (s : Service) : option (list spec_float) * Service :=
  let cacheKey := getCacheKey text s in
  if cacheEnabled s && bool_decide (is_Some (cache_get cacheKey (cache s))) then
    (cache_get cacheKey (cache s), s)
  else
    let s := mkService (model s) (dimensions s) (cache s) (cacheEnabled s) (maxCacheSize s)
                       (requests s ++ [truncateText text]) in
    match create (model s) (truncateText text) (dimensions s) with
    | None => (None, s)
    | Some embedding =>
        (Some embedding, if cacheEnabled s then addToCache cacheKey embedding s else s)
    end.

End Embed.

Definition clearCache (s : Service) : Service := with_cache [] s.

End EmbeddingService.

(** * Properties *)

Module KnowledgeStoreSpec.
Import KnowledgeStore.

(** How the pattern of [isValidPath] stands to the specification's wording:
    over the allowed characters, a key made of non-empty segments passes the
    pattern; the pattern also passes keys with empty segments. *)
Lemma truthy_rev_app (s t : string) :
  Js.truthy t = true → Js.truthy (String.rev_app s t) = true.
Proof.
  revert t. induction s as [| c s IH]; intros t Ht; simpl; [exact Ht |].
  apply IH. reflexivity.
Qed.

Lemma truthy_rev (c : ascii) (s : string) : Js.truthy (String.rev (String c s)) = true.
Proof. unfold String.rev. simpl. apply truthy_rev_app. reflexivity. Qed.

Lemma split_aux_head sep c cur s :
  ∃ head rest, Js.split_aux sep (String c cur) s = head :: rest ∧
               Js.truthy head = true.
Proof.
  revert c cur. induction s as [| c' s IH]; intros c cur; simpl.
  - eexists _, _. split; [reflexivity | apply truthy_rev].
  - destruct (Ascii.eqb c' sep).
    + eexists _, _. split; [reflexivity | apply truthy_rev].
    + apply IH.
Qed.

Lemma segments_pass_the_pattern path :
  nonempty_segments_only path = true →
  Js.all_chars is_path_char path = true →
  isValidPath path = true.
Proof.
  unfold nonempty_segments_only, Js.split, isValidPath.
  destruct path as [| c rest]; simpl; [discriminate |].
  destruct (Ascii.eqb c "/") eqn:Hc.
  - destruct rest as [| c' rest]; simpl; [discriminate |].
    intros _ Hchars. apply andb_prop in Hchars as [_ Hchars]. exact Hchars.
  - destruct (split_aux_head "/" c "" rest) as (head & tl & -> & Hhead).
    rewrite Hhead. destruct tl; discriminate.
Qed.

Section WithHash.

Variable sha256 : string -> string.

(** The two ways a write ends: rejected, the documents untouched; or
    committed, the document at the path replaced by one whose version is the
    successor of the current one. *)
Lemma write_cases path content expectedVersion now s :
  let r := fst (write sha256 path content expectedVersion now s) in
  let s' := snd (write sha256 path content expectedVersion now s) in
  (wr_success r = false ∧ is_Some (wr_error r) ∧ documents s' = documents s) ∨
  (wr_success r = true ∧ wr_error r = None ∧
   wr_version r = currentVersion path s + 1 ∧
   stale (currentVersion path s) expectedVersion = None ∧
   ∃ doc, documents s' = <[path := doc]> (documents s) ∧
          doc_version doc = currentVersion path s + 1 ∧
          doc_content doc = content ∧ doc_path doc = path).
Proof.
  unfold write.
  destruct (isValidPath path); simpl; [| left; eauto].
  destruct (_ >? _); simpl; [left; eauto |].
  destruct (stale _ _) eqn:Hst; simpl; [left; eauto |].
  right. repeat split; eauto.
Qed.

Lemma currentVersion_insert path path' doc s :
  currentVersion path (with_documents (<[path' := doc]> (documents s)) s) =
  if decide (path' = path) then doc_version doc else currentVersion path s.
Proof.
  unfold currentVersion; simpl. rewrite lookup_insert.
  destruct (decide (path' = path)); reflexivity.
Qed.

Lemma currentVersion_documents path s s' :
  documents s' = documents s → currentVersion path s' = currentVersion path s.
Proof. unfold currentVersion. intros ->. reflexivity. Qed.

(** C1, amended.  A write whose [expectedVersion] differs from the current
    version of the path (0 when no document is there) leaves the document map
    as it was and returns an unsuccessful result.  The error is
    [VERSION_CONFLICT], carrying the current and the expected version, when
    the path is valid and the content within the size ceiling; the two earlier
    checks answer first otherwise, with [INVALID_PATH] for an invalid path and
    [CONTENT_TOO_LARGE] for a valid path with oversized content. *)
Theorem stale_write_rejected path content expected now s :
  expected ≠ currentVersion path s →
  let r := fst (write sha256 path content (Some expected) now s) in
  let s' := snd (write sha256 path content (Some expected) now s) in
  documents s' = documents s ∧ wr_success r = false ∧
  match isValidPath path, Z.of_nat (String.length content) >? maxDocumentSize s with
  | false, _ => err_code <$> wr_error r = Some INVALID_PATH
  | true, true => err_code <$> wr_error r = Some CONTENT_TOO_LARGE
  | true, false =>
      wr_version r = currentVersion path s ∧
      ∃ message,
        wr_error r = Some (mkWriteError VERSION_CONFLICT message
                             (Some (currentVersion path s)) (Some expected))
  end.
Proof.
  intros Hne. unfold write.
  destruct (isValidPath path); simpl; [| auto].
  destruct (_ >? _); simpl; [auto |].
  destruct (Z.eqb_spec (currentVersion path s) expected) as [Heq | _].
  - congruence.
  - simpl. eauto.
Qed.

(** C9, amended.  A write fails with [INVALID_PATH] exactly when the path
    fails the check of [isValidPath]: a leading [/] followed by one or more
    characters of the allowed set.  [/] is in that set, so empty segments are
    accepted.  On that failure the store is unchanged as a whole: nothing is
    stored, no event is emitted, no subscriber is called.  (The allowed set is
    the letters, the digits, [/], [_] and [-]; it leaves out the [.] of the
    repository's own document paths such as [/requirements/main.json].) *)
Theorem invalid_path_iff_pattern path content expectedVersion now s :
  let r := fst (write sha256 path content expectedVersion now s) in
  let s' := snd (write sha256 path content expectedVersion now s) in
  (err_code <$> wr_error r = Some INVALID_PATH ↔ isValidPath path = false) ∧
  (err_code <$> wr_error r = Some INVALID_PATH → s' = s ∧ wr_success r = false).
Proof.
  unfold write.
  destruct (isValidPath path); simpl.
  - destruct (_ >? _); simpl; [intuition discriminate |].
    destruct (stale _ _); simpl; intuition discriminate.
  - intuition.
Qed.

(** C10.  On a valid path, with content within the size ceiling, a write
    without [expectedVersion] succeeds whatever document is there: it reports
    no error (so no [VERSION_CONFLICT]), returns the current version plus
    one, and the path then holds a document with the new content and that
    version, every other path being untouched. *)
Theorem blind_write_succeeds path content now s :
  isValidPath path = true →
  Z.of_nat (String.length content) ≤ maxDocumentSize s →
  let r := fst (write sha256 path content None now s) in
  let s' := snd (write sha256 path content None now s) in
  wr_success r = true ∧ wr_error r = None ∧
  wr_version r = currentVersion path s + 1 ∧
  wr_previousVersion r = getVersion path s ∧
  (∃ doc, documents s' !! path = Some doc ∧ doc_content doc = content ∧
          doc_version doc = currentVersion path s + 1) ∧
  (∀ path', path' ≠ path → documents s' !! path' = documents s !! path').
Proof.
  intros Hvalid Hsize. unfold write. rewrite Hvalid. simpl.
  destruct (Z.gtb_spec (Z.of_nat (String.length content)) (maxDocumentSize s));
    [lia |].
  simpl. repeat split.
  - eexists. rewrite lookup_insert_eq. eauto.
  - intros path' Hne. rewrite lookup_insert_ne; auto.
Qed.

(** One call that keeps the path: either it is a successful write to the
    path, which returns and stores the successor of the current version, or
    the current version of the path is what it was. *)
Lemma step_keeps path op s :
  keeps path op = true →
  match op, fst (step sha256 op s) with
  | Write path' _ _ _, Some wr =>
      if wr_success wr && String.eqb path' path
      then wr_version wr = currentVersion path s + 1 ∧
           currentVersion path (snd (step sha256 op s)) = currentVersion path s + 1
      else currentVersion path (snd (step sha256 op s)) = currentVersion path s
  | _, _ => currentVersion path (snd (step sha256 op s)) = currentVersion path s
  end.
Proof.
  intros Hkeeps.
  destruct op as [path' content ev now | | path' | | | | | |]; simpl in *;
    try reflexivity; try discriminate.
  - destruct (write_cases path' content ev now s)
      as [(Hf & _ & Hdocs) | (Ht & _ & Hv & _ & doc & Hdocs & Hdv & _)].
    + rewrite Hf. simpl. apply currentVersion_documents, Hdocs.
    + rewrite Ht. simpl. destruct (String.eqb_spec path' path) as [-> | Hne].
      * split; [exact Hv |].
        unfold currentVersion at 1. rewrite Hdocs, lookup_insert_eq. exact Hdv.
      * unfold currentVersion. rewrite Hdocs, lookup_insert_ne; auto.
  - unfold delete. destruct (documents s !! path') eqn:Hl; simpl; [| reflexivity].
    unfold currentVersion; simpl.
    destruct (String.eqb_spec path' path) as [-> | Hne]; [discriminate |].
    rewrite lookup_delete_ne; auto.
Qed.

(** C2, amended.  Over any sequence of calls in which the path is not
    deleted and the store is neither cleared nor restored from a snapshot,
    the successful writes to the path return, in order, the versions
    [v + 1, v + 2, ...] where [v] is the version the path starts from (0 when
    it holds no document): the N-th returns [v + N], none is reused, skipped
    or rolled back, and the version stored at the end is the last one
    returned.  From an empty store the N-th successful write returns N. *)
Theorem versions_count_up path ops s :
  forallb (keeps path) ops = true →
  written_versions sha256 path ops s =
    (λ n, currentVersion path s + Z.of_nat n) <$>
      seq 1 (List.length (written_versions sha256 path ops s)) ∧
  currentVersion path (run sha256 ops s) =
    currentVersion path s + Z.of_nat (List.length (written_versions sha256 path ops s)).
Proof.
  revert s. induction ops as [| op ops IH]; intros s Hkeeps.
  - simpl. split; [reflexivity | lia].
  - simpl in Hkeeps. apply andb_prop in Hkeeps as [Hop Hops].
    pose proof (step_keeps path op s Hop) as Hstep.
    cbn [written_versions run].
    destruct (step sha256 op s) as [r s'] eqn:Hs. cbn [fst snd] in *.
    specialize (IH s' Hops). destruct IH as [IHv IHc].
    assert (Hsame : currentVersion path s' = currentVersion path s →
              written_versions sha256 path ops s' =
                (λ n, currentVersion path s + Z.of_nat n) <$>
                  seq 1 (List.length (written_versions sha256 path ops s')) ∧
              currentVersion path (run sha256 ops s') =
                currentVersion path s +
                Z.of_nat (List.length (written_versions sha256 path ops s'))).
    { intros Heq. rewrite <- Heq. auto. }
    destruct op as [path' content ev now | | | | | | | |];
      try rewrite Hs in Hstep; cbn [fst] in Hstep; destruct r as [wr |];
      try (apply Hsame; exact Hstep).
    destruct (wr_success wr && String.eqb path' path).
    + destruct Hstep as [Hv Hc]. cbn [List.length seq fmap list_fmap]. split.
      * f_equal; [lia |]. rewrite IHv at 1. rewrite <- (fmap_S_seq 1), <- list_fmap_compose.
        apply list_fmap_ext. intros _ n _. simpl. lia.
      * rewrite IHc. lia.
    + apply Hsame; exact Hstep.
Qed.

(** A store filled by calls other than [restoreSnapshot] holds documents
    under valid paths only. *)
Lemma run_valid_paths ops s :
  forallb (λ op, negb (restores op)) ops = true →
  (∀ path doc, documents s !! path = Some doc → isValidPath path = true) →
  ∀ path doc, documents (run sha256 ops s) !! path = Some doc → isValidPath path = true.
Proof.
  revert s. induction ops as [| op ops IH]; intros s Hops Hs; [exact Hs |].
  simpl in Hops. apply andb_prop in Hops as [Hop Hops].
  cbn [run]. apply IH; [exact Hops |].
  intros path doc.
  destruct op as [path' content ev now | | path' | | | | | snapshot |]; simpl;
    try apply Hs; try discriminate.
  - unfold write. destruct (isValidPath path') eqn:Hvalid; simpl; [| apply Hs].
    destruct (_ >? _); simpl; [apply Hs |].
    destruct (stale _ _); simpl; [apply Hs |].
    intros Hl. apply lookup_insert_Some in Hl as [[<- _] | [_ Hl]];
      [exact Hvalid | eapply Hs, Hl].
  - unfold delete. destruct (documents s !! path'); simpl; [| apply Hs].
    intros Hl. apply lookup_delete_Some in Hl as [_ Hl]. eapply Hs, Hl.
Qed.

End WithHash.

(** The claims above at concrete inputs, with the identity as the hash. *)

(** C1 as stated fails on an invalid path: the expected version 3 differs
    from the current version 0, yet the error is [INVALID_PATH]. *)
Lemma stale_write_invalid_path :
  let s := new None in
  let r := fst (write (λ c, c) "requirements" "{}" (Some 3) 0 s) in
  currentVersion "requirements" s = 0 ∧
  err_code <$> wr_error r = Some INVALID_PATH ∧ wr_version r = -1.
Proof. vm_compute. auto. Qed.

Lemma stale_write_rejected_witness :
  let s := snd (write (λ c, c) "/plan/main" "{}" None 0 (new None)) in
  7 ≠ currentVersion "/plan/main" s ∧
  documents (snd (write (λ c, c) "/plan/main" "[]" (Some 7) 1 s)) = documents s ∧
  wr_version (fst (write (λ c, c) "/plan/main" "[]" (Some 7) 1 s)) = 1.
Proof.
  assert (H : 7 ≠ currentVersion "/plan/main"
                (snd (write (λ c, c) "/plan/main" "{}" None 0 (new None))))
    by (vm_compute; discriminate).
  split; [exact H |].
  pose proof (stale_write_rejected (λ c, c) "/plan/main" "[]" 7 1 _ H) as (Hd & _ & Hv).
  split; [exact Hd | exact (proj1 Hv)].
Defined.

(** C2 as stated fails once a delete comes between two writes: both writes
    succeed and both return version 1. *)
Lemma version_reused_after_delete :
  written_versions (λ c, c) "/plan/main"
    [Write "/plan/main" "a" None 0; Delete "/plan/main"; Write "/plan/main" "b" None 1]
    (new None) = [1; 1].
Proof. vm_compute. reflexivity. Qed.

Lemma versions_count_up_witness :
  let ops := [Write "/plan/main" "a" None 0; Write "/research/x" "r" None 1;
              Write "/plan/main" "b" (Some 5) 2; Delete "/research/x";
              Write "/plan/main" "c" (Some 1) 3; Read "/plan/main" None] in
  forallb (keeps "/plan/main") ops = true ∧
  written_versions (λ c, c) "/plan/main" ops (new None) = [1; 2] ∧
  currentVersion "/plan/main" (run (λ c, c) ops (new None)) = 2.
Proof.
  split; [reflexivity |].
  pose proof (versions_count_up (λ c, c) "/plan/main"
                [Write "/plan/main" "a" None 0; Write "/research/x" "r" None 1;
                 Write "/plan/main" "b" (Some 5) 2; Delete "/research/x";
                 Write "/plan/main" "c" (Some 1) 3; Read "/plan/main" None]
                (new None) eq_refl) as [Hv Hc].
  split; [rewrite Hv | rewrite Hc]; vm_compute; reflexivity.
Defined.

(** C9 as stated fails in both directions: [//] has an empty segment and is
    accepted and stored; [/requirements/main.json] has only non-empty
    segments and is rejected. *)
Lemma path_pattern_is_not_segments :
  let r1 := write (λ c, c) "//" "x" None 0 (new None) in
  let r2 := write (λ c, c) "/requirements/main.json" "x" None 0 (new None) in
  nonempty_segments_only "//" = false ∧
  wr_success (fst r1) = true ∧ getVersion "//" (snd r1) = Some 1 ∧
  nonempty_segments_only "/requirements/main.json" = true ∧
  err_code <$> wr_error (fst r2) = Some INVALID_PATH.
Proof. vm_compute. auto. Qed.

Lemma blind_write_succeeds_witness :
  let s := snd (write (λ c, c) "/plan/main" "{}" None 0 (new None)) in
  isValidPath "/plan/main" = true ∧
  Z.of_nat (String.length "[]") ≤ maxDocumentSize s ∧
  wr_version (fst (write (λ c, c) "/plan/main" "[]" None 1 s)) = 2.
Proof.
  split; [reflexivity |]. split; [vm_compute; discriminate |].
  pose proof (blind_write_succeeds (λ c, c) "/plan/main" "[]" 1
                (snd (write (λ c, c) "/plan/main" "{}" None 0 (new None)))
                eq_refl ltac:(vm_compute; discriminate)) as (_ & _ & Hv & _).
  rewrite Hv. vm_compute. reflexivity.
Defined.

(** ** Reads, deletes, the event log and the subscribers *)

Section Observations.

Variable sha256 : string -> string.

(** A successful write can be read back: the path holds a document with the
    content written, the version returned, the writer and the clock of the
    write, the creation stamp of the document it replaces if there was one;
    reading with a version returns it for that version only, so the version
    it replaces can no longer be read; no other path is affected. *)
Theorem read_after_write path content expectedVersion now s :
  wr_success (fst (write sha256 path content expectedVersion now s)) = true →
  let r := fst (write sha256 path content expectedVersion now s) in
  let s' := snd (write sha256 path content expectedVersion now s) in
  (∃ doc, read path None s' = Some doc ∧
     doc_path doc = path ∧ doc_content doc = content ∧
     doc_version doc = wr_version r ∧ doc_contentHash doc = sha256 content ∧
     doc_updatedAt doc = now ∧ doc_updatedBy doc = currentAgent s ∧
     doc_createdAt doc = from_option doc_createdAt now (read path None s) ∧
     doc_createdBy doc = from_option doc_createdBy (currentAgent s) (read path None s) ∧
     ∀ v, read path (Some v) s' = if v =? wr_version r then Some doc else None) ∧
  getVersion path s' = Some (wr_version r) ∧ exists_ path s' = true ∧
  wr_previousVersion r = getVersion path s ∧
  (∀ v, v ≠ wr_version r → read path (Some v) s' = None) ∧
  (∀ path' v, path' ≠ path → read path' v s' = read path' v s).
Proof.
  unfold write.
  destruct (isValidPath path); simpl; [| discriminate].
  destruct (_ >? _); simpl; [discriminate |].
  destruct (stale _ _); simpl; [discriminate |].
  intros _. unfold read, getVersion, exists_. simpl. rewrite !lookup_insert_eq. simpl.
  split; [| split; [reflexivity | split; [reflexivity | split; [reflexivity | split]]]].
  - eexists. split; [reflexivity |]. simpl.
    repeat split; try (destruct (documents s !! path); reflexivity).
    intros v. rewrite Z.eqb_sym. reflexivity.
  - intros v Hv. destruct (Z.eqb_spec (currentVersion path s + 1) v); congruence.
  - intros path' v Hne. rewrite lookup_insert_ne by congruence. reflexivity.
Qed.

(** [delete] answers whether the path held a document; afterwards the path
    reads as absent at every version and a second delete finds nothing and
    changes nothing.  Exactly one [knowledge.deleted] event is emitted when a
    document was removed and none otherwise; no subscriber is called and no
    other path is affected. *)
Theorem delete_then_read path s :
  let existed := fst (delete path s) in
  let s' := snd (delete path s) in
  existed = exists_ path s ∧
  (∀ v, read path v s' = None) ∧ getVersion path s' = None ∧
  exists_ path s' = false ∧
  delete path s' = (false, s') ∧
  events s' = events s ++
    (if existed then [KNOWLEDGE_DELETED path (currentAgent s)] else []) ∧
  notifications s' = notifications s ∧ subscriptions s' = subscriptions s ∧
  (∀ path' v, path' ≠ path → read path' v s' = read path' v s).
Proof.
  unfold delete, exists_, read, getVersion.
  destruct (documents s !! path) as [doc |] eqn:Hdoc; simpl.
  - rewrite !lookup_delete_eq. simpl. repeat split.
    + intros path' v Hne. rewrite lookup_delete_ne by congruence. reflexivity.
  - rewrite !Hdoc. simpl. rewrite app_nil_r. repeat split.
Qed.

Lemma logged_versions_app path log log' :
  logged_versions path (log ++ log') =
  logged_versions path log ++ logged_versions path log'.
Proof. apply omap_app. Qed.

(** What one call adds to the versions the log reports for a path. *)
Lemma step_logged path op s :
  logged_versions path (events (snd (step sha256 op s))) =
  logged_versions path (events s) ++
  match op, fst (step sha256 op s) with
  | Write path' _ _ _, Some wr =>
      if wr_success wr && String.eqb path' path then [wr_version wr] else []
  | _, _ => []
  end.
Proof.
  destruct op as [path' content ev now | | path' | | | | | |]; simpl;
    try (rewrite app_nil_r; reflexivity).
  - unfold write.
    destruct (isValidPath path'); simpl; [| rewrite app_nil_r; reflexivity].
    destruct (_ >? _); simpl; [rewrite app_nil_r; reflexivity |].
    destruct (stale _ _); simpl.
    + rewrite logged_versions_app. reflexivity.
    + rewrite logged_versions_app. f_equal.
      destruct (documents s !! path'); simpl; destruct (String.eqb path' path);
        reflexivity.
  - unfold delete. destruct (documents s !! path'); simpl;
      [rewrite logged_versions_app |]; simpl; rewrite app_nil_r; reflexivity.
Qed.

(** The event log records every successful write: over any sequence of
    calls, the versions reported by the [knowledge.written] and
    [knowledge.updated] events added for a path are exactly the versions the
    successful writes to that path returned, in the same order.  A rejected
    write, a delete, a restore or a clear adds none. *)
Theorem log_records_writes path ops s :
  logged_versions path (events (run sha256 ops s)) =
  logged_versions path (events s) ++ written_versions sha256 path ops s.
Proof.
  revert s. induction ops as [| op ops IH]; intros s.
  - simpl. rewrite app_nil_r. reflexivity.
  - cbn [run written_versions]. rewrite IH.
    pose proof (step_logged path op s) as Hstep.
    destruct (step sha256 op s) as [r s'] eqn:Hs. cbn [fst snd] in *.
    rewrite Hstep, <- app_assoc. f_equal.
    destruct op as [path' content ev now | | | | | | | |];
      try rewrite Hs; cbn [fst]; try reflexivity.
    destruct r as [wr |]; [| reflexivity].
    destruct (wr_success wr && String.eqb path' path); reflexivity.
Qed.

End Observations.

(** ** Subscriptions *)

Lemma startsWith_refl s : Js.startsWith s s = true.
Proof.
  unfold Js.startsWith. induction s as [| c s IH]; simpl; [reflexivity |].
  destruct (ascii_dec c c); [exact IH | congruence].
Qed.

Lemma add_subscriber_registered p c subs cb key :
  (∃ cbs, (key, cbs) ∈ add_subscriber p c subs ∧ cb ∈ cbs) ↔
  (∃ cbs, (key, cbs) ∈ subs ∧ cb ∈ cbs) ∨ (cb = c ∧ key = p).
Proof.
  induction subs as [| [q cbs] rest IH]; simpl.
  - split.
    + intros (cbs & Hin & Hcb). apply list_elem_of_singleton in Hin.
      injection Hin as -> ->. apply list_elem_of_singleton in Hcb. auto.
    + intros [(cbs & Hin & _) | [-> ->]]; [inversion Hin |].
      exists [c]. split; apply list_elem_of_singleton; reflexivity.
  - destruct (String.eqb_spec q p) as [-> | Hne].
    + split.
      * intros (cbs' & Hin & Hcb). apply elem_of_cons in Hin as [Heq | Hin].
        -- injection Heq as -> ->. destruct (bool_decide (c ∈ cbs)).
           ++ left. exists cbs. split; [left | exact Hcb].
           ++ apply elem_of_app in Hcb as [Hcb | Hcb].
              ** left. exists cbs. split; [left | exact Hcb].
              ** apply list_elem_of_singleton in Hcb. auto.
        -- left. exists cbs'. split; [right; exact Hin | exact Hcb].
      * intros [(cbs' & Hin & Hcb) | [-> ->]].
        -- apply elem_of_cons in Hin as [Heq | Hin].
           ++ injection Heq as -> ->. eexists. split; [left |].
              destruct (bool_decide (c ∈ cbs)); [exact Hcb |].
              apply elem_of_app. auto.
           ++ exists cbs'. split; [right; exact Hin | exact Hcb].
        -- eexists. split; [left |].
           destruct (bool_decide (c ∈ cbs)) eqn:Hc.
           ++ apply bool_decide_eq_true in Hc. exact Hc.
           ++ apply elem_of_app. right. apply list_elem_of_singleton. reflexivity.
    + split.
      * intros (cbs' & Hin & Hcb). apply elem_of_cons in Hin as [Heq | Hin].
        -- left. exists cbs'. split; [rewrite Heq; left | exact Hcb].
        -- destruct (proj1 IH) as [(cbs2 & Hin2 & Hcb2) | Hnew]; [eauto | | auto].
           left. exists cbs2. split; [right; exact Hin2 | exact Hcb2].
      * intros [(cbs' & Hin & Hcb) | Hnew].
        -- apply elem_of_cons in Hin as [Heq | Hin].
           ++ exists cbs'. split; [rewrite Heq; left | exact Hcb].
           ++ destruct (proj2 IH) as (cbs2 & Hin2 & Hcb2); [eauto |].
              exists cbs2. split; [right; exact Hin2 | exact Hcb2].
        -- destruct (proj2 IH) as (cbs2 & Hin2 & Hcb2); [auto |].
           exists cbs2. split; [right; exact Hin2 | exact Hcb2].
Qed.

Lemma add_subscriber_twice p c subs :
  add_subscriber p c (add_subscriber p c subs) = add_subscriber p c subs.
Proof.
  induction subs as [| [q cbs] rest IH]; simpl.
  - rewrite String.eqb_refl. rewrite bool_decide_eq_true_2; [reflexivity |].
    apply list_elem_of_singleton. reflexivity.
  - destruct (String.eqb q p) eqn:Hq; simpl; rewrite Hq; [| rewrite IH; reflexivity].
    destruct (bool_decide (c ∈ cbs)) eqn:Hc; [rewrite Hc; reflexivity |].
    rewrite bool_decide_eq_true_2; [reflexivity |].
    apply elem_of_app. right. apply list_elem_of_singleton. reflexivity.
Qed.

Lemma add_subscriber_keys p c subs :
  (add_subscriber p c subs).*1 =
  if bool_decide (p ∈ subs.*1) then subs.*1 else subs.*1 ++ [p].
Proof.
  induction subs as [| [q cbs] rest IH]; [reflexivity |].
  cbn [add_subscriber].
  destruct (String.eqb_spec q p) as [-> | Hne]; cbn [fmap list_fmap fst].
  - rewrite bool_decide_eq_true_2; [reflexivity | left].
  - idtac.
    + rewrite IH. destruct (bool_decide (p ∈ rest.*1)) eqn:Hp.
      * apply bool_decide_eq_true in Hp.
        rewrite bool_decide_eq_true_2; [reflexivity | right; exact Hp].
      * apply bool_decide_eq_false in Hp. rewrite bool_decide_eq_false_2; [reflexivity |].
        intros Hin. apply elem_of_cons in Hin as [Heq | Hin]; congruence.
Qed.

Lemma unsubscribe_keys p c (subs : list (string * list nat)) :
  (map (λ e, if String.eqb (fst e) p
             then (fst e, filter (λ cb, cb ≠ c) (snd e)) else e) subs).*1 = subs.*1.
Proof.
  induction subs as [| [q cbs] rest IH]; simpl; [reflexivity |].
  f_equal; [destruct (String.eqb q p); reflexivity | exact IH].
Qed.

Lemma unsubscribe_registered p c (subs : list (string * list nat)) cb key :
  (∃ cbs, (key, cbs) ∈ map (λ e, if String.eqb (fst e) p
                                 then (fst e, filter (λ cb, cb ≠ c) (snd e)) else e) subs
          ∧ cb ∈ cbs) ↔
  (∃ cbs, (key, cbs) ∈ subs ∧ cb ∈ cbs) ∧ ¬ (cb = c ∧ key = p).
Proof.
  split.
  - intros (cbs & Hin & Hcb). apply list_elem_of_fmap in Hin as ([q cbs'] & Heq & Hin).
    simpl in Heq. destruct (String.eqb_spec q p) as [-> | Hne].
    + injection Heq as -> ->. apply list_elem_of_filter in Hcb as [Hne Hcb].
      split; [eauto |]. intros [-> _]. congruence.
    + injection Heq as -> ->. split; [eauto |]. intros [_ ->]. congruence.
  - intros [(cbs & Hin & Hcb) Hnot].
    destruct (String.eqb_spec key p) as [-> | Hne].
    + exists (filter (λ cb, cb ≠ c) cbs). split.
      * apply list_elem_of_fmap. exists (p, cbs). simpl.
        rewrite String.eqb_refl. auto.
      * apply list_elem_of_filter. split; [| exact Hcb]. intros ->. auto.
    + exists cbs. split; [| exact Hcb].
      apply list_elem_of_fmap. exists (key, cbs). simpl.
      destruct (String.eqb_spec key p); [contradiction | auto].
Qed.

(** The subscription map is a map of sets: a callback is registered under
    a path after [subscribe] and under the ones it was registered under
    before; subscribing it again changes nothing; the function [subscribe]
    returns removes it from that path and from no other. *)
Theorem subscription_registry path callback s cb key :
  (registered cb key (subscribe path callback s) ↔
     registered cb key s ∨ (cb = callback ∧ key = path)) ∧
  subscribe path callback (subscribe path callback s) = subscribe path callback s ∧
  (registered cb key (unsubscribe path callback s) ↔
     registered cb key s ∧ ¬ (cb = callback ∧ key = path)) ∧
  ¬ registered callback path (unsubscribe path callback s).
Proof.
  unfold registered, subscribe, unsubscribe. simpl.
  split; [apply add_subscriber_registered |].
  split; [rewrite add_subscriber_twice; reflexivity |].
  split; [apply unsubscribe_registered |].
  intros H. apply unsubscribe_registered in H as [_ H]. auto.
Qed.

Lemma unique_key {A B : Type} (l : list (A * B)) k v v' :
  NoDup l.*1 → (k, v) ∈ l → (k, v') ∈ l → v = v'.
Proof.
  induction l as [| [k0 v0] l IH]; simpl; intros Hnodup Hv Hv'; [inversion Hv |].
  apply NoDup_cons in Hnodup as [Hnotin Hnodup].
  apply elem_of_cons in Hv as [Hv | Hv]; apply elem_of_cons in Hv' as [Hv' | Hv'].
  - congruence.
  - injection Hv as -> ->. destruct Hnotin.
    apply list_elem_of_fmap. exists (k0, v'). auto.
  - injection Hv' as -> ->. destruct Hnotin.
    apply list_elem_of_fmap. exists (k0, v). auto.
  - auto.
Qed.

(** With one entry per key, the callbacks a write to a path calls are the
    ones registered under a key the path starts with. *)
Lemma elem_of_subscribers_of path subs cb :
  NoDup subs.*1 →
  cb ∈ subscribers_of path subs ↔
  ∃ key cbs, (key, cbs) ∈ subs ∧ cb ∈ cbs ∧ Js.startsWith path key = true.
Proof.
  intros Hnodup. unfold subscribers_of. rewrite elem_of_app. split.
  - intros [Hexact | Hprefix].
    + destruct (List.find _ subs) as [[key cbs] |] eqn:Hfind; [| inversion Hexact].
      apply find_some in Hfind as [Hin Hkey]. simpl in *.
      apply String.eqb_eq in Hkey as ->. apply list_elem_of_In in Hin.
      exists path, cbs. split; [exact Hin |]. split; [exact Hexact | apply startsWith_refl].
    + apply list_elem_of_In, in_flat_map in Hprefix as ([key cbs] & Hin & Hcb).
      simpl in Hcb. destruct (Js.startsWith path key) eqn:Hstart; [| inversion Hcb].
      destruct (negb _); [| inversion Hcb]. simpl in Hcb.
      exists key, cbs. split; [apply list_elem_of_In, Hin |].
      split; [apply list_elem_of_In, Hcb | exact Hstart].
  - intros (key & cbs & Hin & Hcb & Hstart).
    destruct (String.eqb_spec key path) as [-> | Hne].
    + left. destruct (List.find _ subs) as [[key' cbs'] |] eqn:Hfind.
      * apply find_some in Hfind as [Hin' Hkey]. simpl in *.
        apply String.eqb_eq in Hkey as ->. apply list_elem_of_In in Hin'.
        rewrite (unique_key subs path cbs' cbs Hnodup Hin' Hin). exact Hcb.
      * apply list_elem_of_In in Hin.
        pose proof (find_none _ _ Hfind _ Hin) as Habs. simpl in Habs.
        rewrite String.eqb_refl in Habs. discriminate.
    + right. apply list_elem_of_In, in_flat_map. exists (key, cbs).
      split; [apply list_elem_of_In, Hin |]. simpl. rewrite Hstart.
      destruct (String.eqb_spec key path); [contradiction |]. simpl.
      apply list_elem_of_In, Hcb.
Qed.

Section Notifications.

Variable sha256 : string -> string.

Lemma write_subscriptions path content ev now s :
  subscriptions (snd (write sha256 path content ev now s)) = subscriptions s.
Proof.
  unfold write. destruct (isValidPath path); simpl; [| reflexivity].
  destruct (_ >? _); simpl; [reflexivity |].
  destruct (stale _ _); reflexivity.
Qed.

(** A store driven through its calls keeps one entry per subscription
    key. *)
Lemma run_subscription_keys ops s :
  NoDup (subscriptions s).*1 → NoDup (subscriptions (run sha256 ops s)).*1.
Proof.
  revert s. induction ops as [| op ops IH]; intros s Hs; [exact Hs |].
  cbn [run]. apply IH.
  destruct op as [path content ev now | | path | | path cb | path cb | | |]; simpl;
    try exact Hs.
  - rewrite write_subscriptions. exact Hs.
  - unfold delete. destruct (documents s !! path); exact Hs.
  - rewrite add_subscriber_keys. destruct (bool_decide (path ∈ _)) eqn:Hp; [exact Hs |].
    apply bool_decide_eq_false in Hp. apply NoDup_app. split; [exact Hs |].
    split; [| apply NoDup_singleton].
    intros x Hx Hx'. apply list_elem_of_singleton in Hx'. congruence.
  - rewrite unsubscribe_keys. exact Hs.
  - apply NoDup_nil_2.
Qed.

(** On a store driven through its calls from a new one, a write appends to
    the record of callback calls: nothing when it is rejected; when it
    succeeds, calls with the stored document of exactly the callbacks that
    are registered under the path or under a key the path starts with (a
    string prefix, not a path prefix). *)
Theorem write_notifies_registered ops size path content expectedVersion now :
  let s := run sha256 ops (new size) in
  let r := fst (write sha256 path content expectedVersion now s) in
  let s' := snd (write sha256 path content expectedVersion now s) in
  ∃ calls,
    notifications s' = notifications s ++ calls ∧
    (wr_success r = false → calls = []) ∧
    (wr_success r = true →
     ∃ doc, read path None s' = Some doc ∧
       ∀ cb d, (cb, d) ∈ calls ↔
               d = doc ∧ ∃ key, registered cb key s ∧ Js.startsWith path key = true).
Proof.
  intros s r s'.
  assert (Hkeys : NoDup (subscriptions s).*1).
  { apply run_subscription_keys. simpl. apply NoDup_nil_2. }
  subst r s'. generalize dependent s. intros s Hkeys. unfold write.
  destruct (isValidPath path); simpl;
    [| exists []; rewrite app_nil_r; repeat split; discriminate].
  destruct (_ >? _); simpl;
    [exists []; rewrite app_nil_r; repeat split; discriminate |].
  destruct (stale _ _); simpl;
    [exists []; rewrite app_nil_r; repeat split; discriminate |].
  eexists. split; [reflexivity |]. split; [discriminate |]. intros _.
  unfold read. simpl. rewrite lookup_insert_eq. eexists. split; [reflexivity |].
  intros cb d. rewrite list_elem_of_fmap. split.
  - intros (cb' & Heq & Hcb). injection Heq as -> ->. split; [reflexivity |].
    apply elem_of_subscribers_of in Hcb as (key & cbs & Hin & Hcb & Hstart);
      [| exact Hkeys].
    exists key. split; [exists cbs; auto | exact Hstart].
  - intros [-> (key & (cbs & Hin & Hcb) & Hstart)]. exists cb. split; [reflexivity |].
    apply elem_of_subscribers_of; [exact Hkeys |]. eauto.
Qed.

End Notifications.

(** ** Listing and categories *)

(** [listPaths] returns each stored path that the prefix selects exactly
    once, in ascending order; a missing or empty prefix selects every
    path. *)
Theorem listPaths_sorted_exact prefix s :
  StronglySorted String.le (listPaths prefix s) ∧ NoDup (listPaths prefix s) ∧
  (∀ path, path ∈ listPaths prefix s ↔
           exists_ path s = true ∧
           ∀ p, prefix = Some p → Js.startsWith path p = true) ∧
  listPaths (Some "") s = listPaths None s.
Proof.
  unfold listPaths. split; [apply StronglySorted_merge_sort; apply _ |].
  split.
  - rewrite merge_sort_Permutation. apply NoDup_filter, NoDup_fst_map_to_list.
  - split; [| reflexivity].
    intros path. rewrite merge_sort_Permutation, list_elem_of_filter.
    unfold exists_. rewrite bool_decide_eq_true.
    assert (Hkey : path ∈ (map_to_list (documents s)).*1 ↔ is_Some (documents s !! path)).
    { rewrite list_elem_of_fmap. split.
      - intros ([k v] & -> & Hin). apply elem_of_map_to_list in Hin. eauto.
      - intros [v Hv]. exists (path, v). split; [reflexivity |].
        apply elem_of_map_to_list, Hv. }
    rewrite Hkey. unfold has_prefix. destruct prefix as [p |].
    + split.
      * intros [Hp Hdoc]. split; [exact Hdoc |]. intros p' [= <-].
        destruct p as [| c p]; [destruct path; reflexivity | exact Hp].
      * intros [Hdoc Hp]. split; [| exact Hdoc].
        rewrite (Hp p eq_refl). apply orb_true_r.
    + split; [intros [_ Hdoc]; split; [exact Hdoc | discriminate] |].
      intros [Hdoc _]. auto.
Qed.

(** ** The category of a path *)

Definition only_slashes (s : string) : bool := Js.all_chars (λ c, Ascii.eqb c "/") s.
Definition no_slash (s : string) : bool := Js.all_chars (λ c, negb (Ascii.eqb c "/")) s.

(** What may follow the first segment: nothing, or a [/] and anything. *)
Definition ends_segment (rest : string) : Prop := rest = "" ∨ ∃ r, rest = String "/" r.

Lemma append_cons c (s t : string) : String c s +:+ t = String c (s +:+ t).
Proof. reflexivity. Qed.

Lemma append_empty (s : string) : s +:+ "" = s.
Proof. induction s as [| c s IH]; [reflexivity |]. rewrite append_cons, IH. reflexivity. Qed.

Lemma rev_app_append (s t u : string) :
  String.rev_app s t +:+ u = String.rev_app s (t +:+ u).
Proof. revert t. induction s as [| c s IH]; intros t; [reflexivity |]. simpl. apply IH. Qed.

Lemma split_aux_segment cur seg rest :
  no_slash seg = true → ends_segment rest →
  ∃ others, Js.split_aux "/" cur (seg +:+ rest) = (String.rev cur +:+ seg) :: others.
Proof.
  intros Hseg Hrest. revert cur. induction seg as [| c seg IH]; intros cur.
  - rewrite append_empty. destruct Hrest as [-> | [r ->]]; simpl; eauto.
  - unfold no_slash in Hseg. cbn [Js.all_chars] in Hseg.
    apply andb_true_iff in Hseg as [Hc Hseg].
    rewrite append_cons. cbn [Js.split_aux]. destruct (Ascii.eqb c "/"); [discriminate |].
    destruct (IH Hseg (String c cur)) as [others ->]. exists others. f_equal.
    unfold String.rev. simpl. rewrite !rev_app_append. reflexivity.
Qed.

Lemma split_leading_slashes lead s :
  only_slashes lead = true →
  filter (λ p, Js.truthy p = true) (Js.split "/" (lead +:+ s)) =
  filter (λ p, Js.truthy p = true) (Js.split "/" s).
Proof.
  intros Hlead. induction lead as [| c lead IH]; [reflexivity |].
  unfold only_slashes in Hlead. cbn [Js.all_chars] in Hlead.
  apply andb_true_iff in Hlead as [Hc Hlead].
  unfold Js.split in *. rewrite append_cons. cbn [Js.split_aux]. rewrite Hc.
  rewrite filter_cons_False by discriminate. apply IH, Hlead.
Qed.

(** Every path is a run of [/], then a run of other characters, then
    nothing or a [/] and the rest; the middle run is empty only when nothing
    follows. *)
Lemma path_shape path :
  ∃ lead seg rest, path = lead +:+ seg +:+ rest ∧ only_slashes lead = true ∧
                   no_slash seg = true ∧ ends_segment rest ∧ (seg = "" → rest = "").
Proof.
  assert (Hseg : ∀ s, ∃ seg rest, s = seg +:+ rest ∧ no_slash seg = true ∧ ends_segment rest).
  { induction s as [| c s (seg & rest & -> & Hseg & Hrest)].
    - exists "", "". repeat split. left. reflexivity.
    - destruct (Ascii.eqb c "/") eqn:Hc.
      + apply Ascii.eqb_eq in Hc as ->. exists "", (String "/" (seg +:+ rest)).
        repeat split. right. eauto.
      + exists (String c seg), rest. split; [reflexivity |]. split; [| exact Hrest].
        unfold no_slash in *. cbn [Js.all_chars]. rewrite Hc. exact Hseg. }
  induction path as [| c path (lead & seg & rest & -> & Hlead & Hs & Hrest & Hmax)].
  - exists "", "", "". repeat split. left. reflexivity.
  - destruct (Ascii.eqb c "/") eqn:Hc.
    + exists (String c lead), seg, rest. split; [reflexivity |].
      split; [unfold only_slashes in *; cbn [Js.all_chars]; rewrite Hc; exact Hlead |].
      auto.
    + destruct (Hseg (lead +:+ seg +:+ rest)) as (seg' & rest' & Heq & Hs' & Hrest').
      exists "", (String c seg'), rest'. rewrite Heq.
      split; [reflexivity |]. split; [reflexivity |].
      split; [unfold no_slash in *; cbn [Js.all_chars]; rewrite Hc; exact Hs' |].
      split; [exact Hrest' | discriminate].
Qed.

(** The category recorded for a path is always one of the ten known
    categories.  It is read off the first segment that is not empty: the
    path is cut after its leading [/]s, however many, none included, and at
    the next [/]; the category is that segment if it is a known category and
    [metadata] otherwise, also when the path has no such segment. *)
Theorem category_is_known path :
  getCategoryFromPath path ∈ validCategories ∧
  (∃ lead seg rest, path = lead +:+ seg +:+ rest ∧ only_slashes lead = true ∧
                    no_slash seg = true ∧ ends_segment rest ∧ (seg = "" → rest = "")) ∧
  (∀ lead seg rest,
     only_slashes lead = true → no_slash seg = true → ends_segment rest →
     (seg = "" → rest = "") →
     getCategoryFromPath (lead +:+ seg +:+ rest) =
     if bool_decide (seg ∈ validCategories) then seg else "metadata").
Proof.
  split; [| split; [apply path_shape |]].
  - unfold getCategoryFromPath.
    destruct (filter _ _) as [| category parts]; [unfold validCategories; set_solver |].
    destruct (bool_decide (category ∈ validCategories)) eqn:Hc;
      [apply bool_decide_eq_true in Hc; exact Hc | unfold validCategories; set_solver].
  - intros lead seg rest Hlead Hseg Hrest Hmax. unfold getCategoryFromPath.
    rewrite (split_leading_slashes lead _ Hlead).
    destruct seg as [| c seg].
    + rewrite (Hmax eq_refl). reflexivity.
    + unfold Js.split.
      destruct (split_aux_segment "" (String c seg) rest Hseg Hrest) as [others ->].
      rewrite filter_cons_True by reflexivity. reflexivity.
Qed.

(** A leading [/] is not needed and repeated ones are skipped; the match is
    on the whole segment and in the segment's own case. *)
Example category_of_unrooted_paths :
  getCategoryFromPath "//plan" = "plan" ∧ getCategoryFromPath "plan/x" = "plan" ∧
  getCategoryFromPath "/planning/x" = "metadata" ∧ getCategoryFromPath "///" = "metadata" ∧
  getCategoryFromPath "/Plan" = "metadata".
Proof. vm_compute. repeat split; reflexivity. Qed.

Lemma read_after_write_witness :
  let s := snd (write (λ c, c) "/plan/main" "{}" None 0 (new None)) in
  let w := write (λ c, c) "/plan/main" "[]" (Some 1) 5 s in
  wr_success (fst w) = true ∧
  getVersion "/plan/main" (snd w) = Some 2 ∧
  read "/plan/main" (Some 1) (snd w) = None.
Proof.
  assert (H : wr_success
                (fst (write (λ c, c) "/plan/main" "[]" (Some 1) 5
                        (snd (write (λ c, c) "/plan/main" "{}" None 0 (new None)))))
              = true) by (vm_compute; reflexivity).
  split; [exact H |].
  pose proof (read_after_write (λ c, c) "/plan/main" "[]" (Some 1) 5 _ H) as Hread.
  cbv zeta in Hread. destruct Hread as (_ & Hv & _ & _ & Hold & _).
  split; [rewrite Hv; vm_compute; reflexivity |].
  apply Hold. vm_compute. discriminate.
Defined.

End KnowledgeStoreSpec.

Module CircuitBreakerSpec.
Import CircuitBreaker.

Lemma persistStatus_in_sync b : in_sync (persistStatus b).
Proof.
  unfold in_sync, persistStatus, loadStatus.
  destruct b as [n [| keys] th rt fw st f [last |]]; reflexivity.
Qed.

Lemma persistStatus_fields b :
  state (persistStatus b) = state b ∧ failures (persistStatus b) = failures b ∧
  lastFailure (persistStatus b) = lastFailure b ∧
  threshold (persistStatus b) = threshold b ∧
  resetTimeout (persistStatus b) = resetTimeout b.
Proof. unfold persistStatus. destruct (redis b); simpl; auto. Qed.

Lemma state_persistStatus b : state (persistStatus b) = state b.
Proof. apply persistStatus_fields. Qed.

Lemma failures_persistStatus b : failures (persistStatus b) = failures b.
Proof. apply persistStatus_fields. Qed.

Lemma lastFailure_persistStatus b : lastFailure (persistStatus b) = lastFailure b.
Proof. apply persistStatus_fields. Qed.

Lemma threshold_persistStatus b : threshold (persistStatus b) = threshold b.
Proof. apply persistStatus_fields. Qed.





(** ** What every call of [execute] leaves behind *)

Lemma loadStatus_in_sync b : in_sync (loadStatus b).
Proof.
  unfold in_sync, loadStatus.
  destruct b as [n [| [[kf |] [[kl |] |] [ks |]]] th rt fw st f last]; reflexivity.
Qed.

Lemma execute_in_sync {T E} (fn : Z -> Outcome T E * Z) now b :
  in_sync (breaker (execute fn now b)).
Proof.
  unfold execute.
  destruct (state (loadStatus b));
    try destruct (_ >? _); try destruct (fn now) as [[value | err] now'];
    cbn [breaker]; first [apply persistStatus_in_sync | apply loadStatus_in_sync].
Qed.





(** ** The state follows the failure count *)

(** The breaker agrees with redis and is [CLOSED] below the threshold or
    [OPEN] at or above it, with the time of the last failure known. *)
Definition settled (b : Breaker) : Prop :=
  in_sync b ∧ 0 ≤ failures b ∧
  (state b = CLOSED ∧ failures b < threshold b ∨
   state b = OPEN ∧ threshold b ≤ failures b ∧ is_Some (lastFailure b)).

Lemma execute_settled {T E} (fn : Z -> Outcome T E * Z) now b :
  0 < threshold b → settled b →
  settled (breaker (execute fn now b)) ∧
  threshold (breaker (execute fn now b)) = threshold b.
Proof.
  intros Hth (Hsync & Hpos & Hcase).
  split; [split; [apply execute_in_sync |] |]; unfold execute; rewrite Hsync.
  - destruct Hcase as [[Hst Hlt] | (Hst & Hle & Hlast)]; rewrite Hst.
    + destruct (fn now) as [[value | err] now']; cbn [breaker];
        rewrite state_persistStatus, failures_persistStatus, threshold_persistStatus,
          lastFailure_persistStatus;
        cbn [set_status state failures lastFailure threshold]; rewrite ?Hst.
      * split; [lia | left; split; [reflexivity | lia]].
      * split; [lia |].
        destruct (Z.geb_spec (failures b + 1) (threshold b));
          [right; split; [reflexivity | split; [lia | eauto]]
          | left; split; [reflexivity | lia]].
    + destruct (_ >? _).
      * destruct (fn now) as [[value | err] now']; cbn [breaker];
          rewrite state_persistStatus, failures_persistStatus, threshold_persistStatus,
            lastFailure_persistStatus;
          cbn [set_status state failures lastFailure threshold].
        -- split; [lia | left; split; [reflexivity | lia]].
        -- split; [lia | right]. split; [reflexivity |]. split; [lia | eauto].
      * cbn [breaker]. split; [exact Hpos | right; auto].
  - destruct (state b); try destruct (_ >? _);
      try destruct (fn now) as [[value | err] now']; cbn [breaker];
      rewrite ?threshold_persistStatus; reflexivity.
Qed.

Lemma execute_all_settled {T E} (runs : list ((Z -> Outcome T E * Z) * Z)) b :
  0 < threshold b → settled b →
  settled (execute_all runs b) ∧ threshold (execute_all runs b) = threshold b.
Proof.
  revert b. induction runs as [| [fn now] runs IH]; intros b Hth Hb; [auto |].
  cbn [execute_all].
  destruct (execute_settled fn now b Hth Hb) as [Hb' Hth'].
  assert (Hth2 : 0 < threshold (breaker (execute fn now b)))
    by (rewrite Hth'; exact Hth).
  destruct (IH _ Hth2 Hb') as [Hs Ht]. split; [exact Hs | congruence].
Qed.

(** A new breaker with a positive threshold, over a redis that is
    unreachable or holds none of its keys, is after any calls of [execute],
    however their functions settle and whatever the clock, [OPEN] exactly
    when its failure count has reached the threshold and [CLOSED] exactly
    when it is below; when [OPEN] it knows the time of the last failure.
    The count is the number of failures since the last success. *)
Theorem open_iff_threshold_reached {T E : Type} name redisClient opts
    (runs : list ((Z -> Outcome T E * Z) * Z)) :
  0 < default 3 (opt_threshold opts) →
  redisClient = Unreachable ∨ redisClient = Reachable (mkKeys None None None) →
  let b := execute_all runs (new name redisClient opts) in
  threshold b = default 3 (opt_threshold opts) ∧ 0 ≤ failures b ∧
  (state b = OPEN ↔ threshold b ≤ failures b) ∧
  (state b = CLOSED ↔ failures b < threshold b) ∧
  (state b = OPEN → is_Some (lastFailure b)).
Proof.
  intros Hth Hredis b.
  assert (Hnew : settled (new name redisClient opts)).
  { split; [destruct Hredis as [-> | ->]; reflexivity |].
    split; [simpl; lia | left]. split; [reflexivity | exact Hth]. }
  destruct (execute_all_settled runs (new name redisClient opts) Hth Hnew)
    as [(_ & Hpos & Hcase) Ht].
  fold b in Hpos, Hcase, Ht. change (threshold (new name redisClient opts))
    with (default 3 (opt_threshold opts)) in Ht.
  split; [exact Ht |]. split; [exact Hpos |].
  destruct Hcase as [[Hst Hlt] | (Hst & Hle & Hlast)]; rewrite Hst.
  - repeat split; try discriminate; try lia; auto.
  - repeat split; try discriminate; try lia; auto.
Qed.

(** ** Redis is only a copy *)

(** The same breaker over a redis whose every call throws. *)
Definition offline (b : Breaker) : Breaker :=
  mkBreaker (name b) Unreachable (threshold b) (resetTimeout b) (failureWindow b)
            (state b) (failures b) (lastFailure b).

Lemma offline_persistStatus st f last b :
  offline (persistStatus (set_status st f last b)) =
  persistStatus (set_status st f last (offline b)).
Proof. unfold persistStatus, offline. simpl. destruct (redis b); reflexivity. Qed.

Lemma execute_offline {T E} (fn : Z -> Outcome T E * Z) now b :
  in_sync b →
  result (execute fn now (offline b)) = result (execute fn now b) ∧
  calls (execute fn now (offline b)) = calls (execute fn now b) ∧
  breaker (execute fn now (offline b)) = offline (breaker (execute fn now b)).
Proof.
  intros Hsync. unfold execute. rewrite Hsync.
  change (loadStatus (offline b)) with (offline b).
  change (state (offline b)) with (state b).
  change (lastFailure (offline b)) with (lastFailure b).
  change (resetTimeout (offline b)) with (resetTimeout b).
  change (failures (offline b)) with (failures b).
  change (threshold (offline b)) with (threshold b).
  change (name (offline b)) with (name b).
  destruct (state b); try destruct (_ >? _);
    try destruct (fn now) as [[value | err] now']; cbn [result calls breaker];
    rewrite ?offline_persistStatus; auto.
Qed.

(** As long as redis agrees with the breaker when a run of calls starts
    (a single instance uses its keys), redis failing on every call changes
    nothing that callers observe: each [execute] settles the same way and
    makes the same calls, and the breaker ends with the same state, failure
    count and last failure. *)
Theorem redis_outage_is_invisible {T E : Type}
    (runs : list ((Z -> Outcome T E * Z) * Z)) (b : Breaker) :
  in_sync b →
  execute_all runs (offline b) = offline (execute_all runs b) ∧
  ∀ (fn : Z -> Outcome T E * Z) now,
    result (execute fn now (execute_all runs (offline b))) =
      result (execute fn now (execute_all runs b)) ∧
    calls (execute fn now (execute_all runs (offline b))) =
      calls (execute fn now (execute_all runs b)).
Proof.
  revert b. induction runs as [| [fn now] runs IH]; intros b Hsync.
  - split; [reflexivity |]. intros fn now.
    destruct (execute_offline fn now b Hsync) as (Hr & Hc & _). auto.
  - cbn [execute_all].
    destruct (execute_offline fn now b Hsync) as (_ & _ & ->).
    apply IH, execute_in_sync.
Qed.

(** ** Two instances over one redis *)

(** When a failing call leaves a breaker over a reachable redis [OPEN], any
    other instance over that redis, whatever its own fields say, refuses the
    next call without making it if no more than its [resetTimeout] has
    passed since that failure, and makes it as a [HALF_OPEN] trial
    otherwise. *)
Theorem open_state_is_shared {T E : Type} (fn fn' : Z -> Outcome T E * Z)
    (now now' : Z) (a b : Breaker) keys err :
  redis a = Reachable keys →
  result (execute fn now a) = Rethrew err →
  state (breaker (execute fn now a)) = OPEN →
  redis b = redis (breaker (execute fn now a)) →
  let x := execute fn' now' b in
  if now' - snd (fn now) >? resetTimeout b
  then calls x = [HALF_OPEN]
  else calls x = [] ∧ ∃ message, result x = ThrewOpen message.
Proof.
  intros Hredis Hresult Hopen Hshared.
  assert (Hkeys : redis (breaker (execute fn now a)) =
            Reachable (mkKeys (Some (failures (loadStatus a) + 1))
                              (Some (Some (snd (fn now)))) (Some OPEN))).
  { revert Hresult Hopen. unfold execute.
    assert (Hr : redis (loadStatus a) = Reachable keys).
    { unfold loadStatus. rewrite Hredis. exact Hredis. }
    destruct (state (loadStatus a)) eqn:Hst; try destruct (_ >? _);
      try discriminate;
      destruct (fn now) as [[value | err'] now'']; try discriminate;
      cbn [result breaker]; rewrite state_persistStatus;
      unfold persistStatus; cbn [set_status redis state failures lastFailure];
      rewrite Hr, ?Hst; cbn [redis state snd]; intros _ Hstate; congruence. }
  rewrite Hkeys in Hshared. unfold execute, loadStatus. rewrite Hshared.
  cbn [key_state key_failures key_lastFailure default from_option Datatypes.id
       set_status state lastFailure resetTimeout].
  destruct (_ >? _).
  - destruct (fn' now') as [[value | err'] now'']; reflexivity.
  - cbn [calls result]. eauto.
Qed.

Lemma open_iff_threshold_reached_witness :
  let boom : (Z -> Outcome unit string * Z) * Z := (λ t, (Rejected "timeout", t + 5), 100) in
  let fine : (Z -> Outcome unit string * Z) * Z := (λ t, (Resolved tt, t + 5), 200) in
  let b := execute_all [boom; boom; fine; boom; boom; boom]
             (new "llm" Unreachable (mkOptions None None None)) in
  0 < default 3 None ∧ failures b = 3 ∧ state b = OPEN.
Proof.
  split; [reflexivity |]. split; [reflexivity |].
  pose proof (@open_iff_threshold_reached unit string "llm" Unreachable
                (mkOptions None None None)
                [(λ t, (Rejected "timeout", t + 5), 100);
                 (λ t, (Rejected "timeout", t + 5), 100);
                 (λ t, (Resolved tt, t + 5), 200);
                 (λ t, (Rejected "timeout", t + 5), 100);
                 (λ t, (Rejected "timeout", t + 5), 100);
                 (λ t, (Rejected "timeout", t + 5), 100)]
                eq_refl (or_introl eq_refl)) as Hthm.
  cbv zeta in Hthm. destruct Hthm as (_ & _ & Hopen & _).
  apply Hopen. vm_compute. discriminate.
Defined.

Lemma redis_outage_is_invisible_witness :
  let boom : (Z -> Outcome unit string * Z) * Z := (λ t, (Rejected "timeout", t + 5), 100) in
  let b := new "llm" (Reachable (mkKeys None None None)) (mkOptions None None None) in
  in_sync b ∧
  execute_all [boom; boom; boom] (offline b) = offline (execute_all [boom; boom; boom] b).
Proof.
  split; [reflexivity |].
  apply (@redis_outage_is_invisible unit string
           [(λ t, (Rejected "timeout", t + 5), 100);
            (λ t, (Rejected "timeout", t + 5), 100);
            (λ t, (Rejected "timeout", t + 5), 100)]
           (new "llm" (Reachable (mkKeys None None None)) (mkOptions None None None))
           eq_refl).
Defined.

Lemma open_state_is_shared_witness :
  let boom : Z -> Outcome unit string * Z := λ t, (Rejected "timeout", t + 5) in
  let a := new "llm" (Reachable (mkKeys None None None)) (mkOptions (Some 1) None None) in
  let b := new "llm" (redis (breaker (execute boom 100 a))) (mkOptions (Some 1) None None) in
  state (breaker (execute boom 100 a)) = OPEN ∧ state b = CLOSED ∧
  calls (execute boom 30000 b) = [] ∧
  calls (execute boom 30106 b) = [HALF_OPEN].
Proof.
  split; [reflexivity |]. split; [reflexivity |]. split.
  - apply (@open_state_is_shared unit string (λ t, (Rejected "timeout", t + 5))
             (λ t, (Rejected "timeout", t + 5)) 100 30000
             (new "llm" (Reachable (mkKeys None None None)) (mkOptions (Some 1) None None))
             (new "llm"
                (redis (breaker (execute (λ t, (Rejected "timeout", t + 5)) 100
                   (new "llm" (Reachable (mkKeys None None None))
                        (mkOptions (Some 1) None None)))))
                (mkOptions (Some 1) None None))
             (mkKeys None None None) "timeout" eq_refl eq_refl eq_refl eq_refl).
  - apply (@open_state_is_shared unit string (λ t, (Rejected "timeout", t + 5))
             (λ t, (Rejected "timeout", t + 5)) 100 30106
             (new "llm" (Reachable (mkKeys None None None)) (mkOptions (Some 1) None None))
             (new "llm"
                (redis (breaker (execute (λ t, (Rejected "timeout", t + 5)) 100
                   (new "llm" (Reachable (mkKeys None None None))
                        (mkOptions (Some 1) None None)))))
                (mkOptions (Some 1) None None))
             (mkKeys None None None) "timeout" eq_refl eq_refl eq_refl eq_refl).
Defined.

End CircuitBreakerSpec.

Module BaseAgentSpec.
Import BaseAgent.

Section Loop.

Variable World : Type.
Variable create : list Message -> World -> (string + LLMResponse) * World.
Variable recordUsage : Z -> Z -> World -> option string * World.
Variable handleToolCall :
  option string -> option string -> World -> (string + ToolResult) * World.

Abbreviation process := (process World handleToolCall).
Abbreviation callLLM := (callLLM World create recordUsage).
Abbreviation loop := (loop World create recordUsage handleToolCall).

Definition is_tool_use (b : ContentBlock) : bool :=
  match block_type b with tool_use => true | _ => false end.




(** Every error [callLLM] throws is one of its own two. *)
Lemma callLLM_error messages a w err a' w' :
  callLLM messages a w = (inl err, a', w') →
  code err = "AGENT_BUDGET_EXCEEDED" ∨ code err = "LLM_API_ERROR".
Proof.
  unfold callLLM. destruct (_ >=? _).
  - intros [= <- _ _]. left. reflexivity.
  - destruct (create messages w) as [[msg | response] w1].
    + intros [= <- _ _]. right. reflexivity.
    + destruct (recordUsage _ _ _) as [[msg |] w2].
      * intros [= <- _ _]. right. reflexivity.
      * discriminate.
Qed.

End Loop.

(** ** The transcript and the budget *)

Definition not_result (b : ContentBlock) : bool :=
  match block_type b with tool_result => false | _ => true end.

Definition is_assistant (m : Message) : bool :=
  match role m with assistant => true | user => false end.

(** The assistant message the loop records for a response: its text and
    [tool_use] blocks. *)
Definition reply (r : LLMResponse) : Message :=
  mkMessage assistant (filter (λ b, not_result b = true) (content r)).

(** The results answer the [tool_use] blocks of a message, one each, in
    order, by id. *)
Definition answers (results content : list ContentBlock) : Prop :=
  map block_tool_use_id results =
    map block_id (filter (λ b, is_tool_use b = true) content) ∧
  Forall (λ b, block_type b = tool_result ∧ is_Some (block_is_error b)) results.

(** A well-formed continuation of a conversation: assistant messages, each
    one that calls tools directly followed by a user message with the
    results of exactly those calls, and no other user message. *)
Inductive turns : list Message -> Prop :=
| turns_end : turns []
| turns_text content rest :
    filter (λ b, is_tool_use b = true) content = [] →
    turns rest → turns (mkMessage assistant content :: rest)
| turns_tools content results rest :
    results ≠ [] → answers results content →
    turns rest →
    turns (mkMessage assistant content :: mkMessage user results :: rest).

(** The tokens the responses report. *)
Definition tokens_of (responses : list LLMResponse) : Z :=
  foldr (λ r acc, inputTokens r + outputTokens r + acc) 0 responses.

Section Transcript.

Variable World : Type.
Variable create : list Message -> World -> (string + LLMResponse) * World.
Variable recordUsage : Z -> Z -> World -> option string * World.
Variable handleToolCall :
  option string -> option string -> World -> (string + ToolResult) * World.

Abbreviation process := (process World handleToolCall).
Abbreviation callLLM := (callLLM World create recordUsage).
Abbreviation loop := (loop World create recordUsage handleToolCall).

(** Tools spend nothing of the agent's own budget. *)
Definition same_budget (a a' : Agent) : Prop :=
  maxCalls a' = maxCalls a ∧ callsMade a' = callsMade a ∧
  tokensUsed a' = tokensUsed a ∧ state_callsMade a' = state_callsMade a ∧
  state_tokensUsed a' = state_tokensUsed a ∧
  state_iterationsUsed a' = state_iterationsUsed a.

Lemma filter_tool_use_not_result (blocks : list ContentBlock) :
  filter (λ b, is_tool_use b = true) (filter (λ b, not_result b = true) blocks) =
  filter (λ b, is_tool_use b = true) blocks.
Proof.
  apply list_filter_filter_l. intros b. unfold is_tool_use, not_result.
  destruct (block_type b); auto.
Qed.

Lemma process_blocks blocks ac tr txt a w :
  (process blocks ac tr txt a w).1.1.1.1 =
    ac ++ filter (λ b, not_result b = true) blocks ∧
  (∃ new, (process blocks ac tr txt a w).1.1.1.2 = tr ++ new ∧ answers new blocks) ∧
  same_budget a (process blocks ac tr txt a w).1.2.
Proof.
  revert ac tr txt a w. induction blocks as [| block blocks IH]; intros.
  - simpl. rewrite app_nil_r. split; [reflexivity |]. split.
    + exists []. rewrite app_nil_r. split; [reflexivity |]. split; [reflexivity | constructor].
    + repeat split.
  - assert (Hnr : not_result block =
              match block_type block with tool_result => false | _ => true end)
      by reflexivity.
    assert (Htu : is_tool_use block =
              match block_type block with tool_use => true | _ => false end)
      by reflexivity.
    unfold answers. cbn [BaseAgent.process].
    destruct (block_type block) eqn:Hty.
    + rewrite (filter_cons_True (λ b, not_result b = true)) by exact Hnr.
      rewrite (filter_cons_False (λ b, is_tool_use b = true)) by congruence.
      destruct (IH (ac ++ [block]) tr (txt +:+ default "" (block_text block)) a w)
        as (Hac & Hnew & Hsame).
      rewrite Hac, <- app_assoc. split; [reflexivity |]. split; [exact Hnew | exact Hsame].
    + rewrite (filter_cons_True (λ b, not_result b = true)) by exact Hnr.
      rewrite (filter_cons_True (λ b, is_tool_use b = true)) by exact Htu.
      destruct (executeTool _ _ _ _ _ _) as [[result a1] w1] eqn:Hexec.
      destruct (IH (ac ++ [block])
                  (tr ++ [mkBlock tool_result None None None None (block_id block)
                            (match data result with
                             | Some d => Some d
                             | None => Js.JSON_stringify <$> error result
                             end)
                            (Some (negb (success result)))]) txt a1 w1)
        as (Hac & (new & Hnew & Hids & Hall) & Hsame).
      rewrite Hac, <- app_assoc. split; [reflexivity |]. split.
      * eexists (_ :: new). rewrite Hnew, <- app_assoc. split; [reflexivity |].
        split; [simpl; f_equal; exact Hids |].
        constructor; [split; [reflexivity | simpl; eauto] | exact Hall].
      * unfold executeTool in Hexec.
        destruct (handleToolCall _ _ w) as [r w0]. injection Hexec as _ <- _.
        exact Hsame.
    + rewrite (filter_cons_False (λ b, not_result b = true)) by congruence.
      rewrite (filter_cons_False (λ b, is_tool_use b = true)) by congruence.
      destruct (IH ac tr txt a w) as (Hac & Hnew & Hsame).
      rewrite Hac. split; [reflexivity |]. split; [exact Hnew | exact Hsame].
Qed.

(** A successful [callLLM] found budget left, counts one call and the
    tokens of the response, and copies both counters into the state; a
    failing one counts at most one call and stays within the budget. *)
Lemma callLLM_accounts messages a w :
  maxCalls (callLLM messages a w).1.2 = maxCalls a ∧
  match (callLLM messages a w).1.1 with
  | inr response =>
      callsMade a < maxCalls a ∧
      callsMade (callLLM messages a w).1.2 = callsMade a + 1 ∧
      tokensUsed (callLLM messages a w).1.2 =
        tokensUsed a + (inputTokens response + outputTokens response) ∧
      state_callsMade (callLLM messages a w).1.2 = callsMade a + 1 ∧
      state_tokensUsed (callLLM messages a w).1.2 =
        tokensUsed a + (inputTokens response + outputTokens response)
  | inl _ =>
      callsMade a ≤ callsMade (callLLM messages a w).1.2 ≤ callsMade a + 1 ∧
      (callsMade a ≤ maxCalls a → callsMade (callLLM messages a w).1.2 ≤ maxCalls a)
  end.
Proof.
  unfold BaseAgent.callLLM.
  destruct (Z.geb_spec (callsMade a) (maxCalls a)); simpl; [split; [reflexivity | lia] |].
  destruct (create messages w) as [[msg | response] w1]; simpl;
    [split; [reflexivity | lia] |].
  destruct (recordUsage _ _ _) as [[msg |] w2]; simpl; split; auto; lia.
Qed.

(** What a run of the loop adds to the conversation and to the counters,
    from the messages, the responses and the agent it is entered with. *)
Definition continues (messages0 : list Message) (received0 : list LLMResponse)
    (a0 : Agent) (x : Run World) : Prop :=
  maxCalls (agent World x) = maxCalls a0 ∧
  ∃ new,
    received World x = received0 ++ new ∧
    callsMade a0 + Z.of_nat (List.length new) ≤ callsMade (agent World x) ∧
    callsMade (agent World x) ≤ callsMade a0 + Z.of_nat (List.length new) + 1 ∧
    (callsMade a0 ≤ maxCalls a0 → callsMade (agent World x) ≤ maxCalls a0) ∧
    match settled World x with
    | inr (messages, _) =>
        callsMade (agent World x) = callsMade a0 + Z.of_nat (List.length new) ∧
        tokensUsed (agent World x) = tokensUsed a0 + tokens_of new ∧
        state_callsMade (agent World x) = callsMade (agent World x) ∧
        state_tokensUsed (agent World x) = tokensUsed (agent World x) ∧
        ∃ suffix, messages = messages0 ++ suffix ∧ turns suffix ∧
                  filter (λ m, is_assistant m = true) suffix = map reply new
    | inl _ => True
    end.

Lemma continues_step messages0 received0 a0 a1 response extra x :
  maxCalls a1 = maxCalls a0 → callsMade a0 < maxCalls a0 →
  callsMade a1 = callsMade a0 + 1 →
  tokensUsed a1 = tokensUsed a0 + (inputTokens response + outputTokens response) →
  turns (reply response :: extra) →
  filter (λ m, is_assistant m = true) extra = [] →
  continues ((messages0 ++ [reply response]) ++ extra) (received0 ++ [response]) a1 x →
  continues messages0 received0 a0 x.
Proof.
  intros Hmax Hleft Hcalls Htokens Hturn Hextra
    (Hmax' & new & Hrec & Hlo & Hhi & Hle & Hsettled).
  split; [congruence |]. exists (response :: new).
  rewrite Hrec, <- app_assoc. cbn [List.length]. rewrite Nat2Z.inj_succ.
  split; [reflexivity |]. split; [lia |]. split; [lia |].
  split; [intros _; rewrite <- Hmax; apply Hle; lia |].
  destruct (settled World x) as [err | [messages finalResponse]]; [exact I |].
  destruct Hsettled as (Hc & Ht & Hsc & Hst & suffix & -> & Hturns & Hreplies).
  split; [lia |]. split; [simpl; lia |]. split; [exact Hsc |]. split; [exact Hst |].
  exists (reply response :: extra ++ suffix). rewrite <- !app_assoc. split; [reflexivity |].
  split.
  - clear - Hturn Hturns. inversion Hturn as [| content rest Hnone Hrest | content results rest Hne Hans Hrest];
      subst.
    + apply turns_text; [exact Hnone |].
      clear - Hrest Hturns. induction Hrest; simpl; [exact Hturns | |];
        [apply turns_text | apply turns_tools]; auto.
    + apply turns_tools; auto.
      clear - Hrest Hturns. induction Hrest; simpl; [exact Hturns | |];
        [apply turns_text | apply turns_tools]; auto.
  - rewrite filter_cons_True by reflexivity. rewrite filter_app, Hextra, Hreplies.
    reflexivity.
Qed.

Lemma loop_continues remaining iterations messages calls got a w :
  continues messages got a (loop remaining iterations messages calls got a w).
Proof.
  revert iterations messages calls got a w.
  induction remaining as [| remaining IH]; intros.
  - split; [reflexivity |]. exists []. simpl. rewrite app_nil_r.
    repeat split; auto; lia.
  - cbn [BaseAgent.loop].
    pose proof (callLLM_accounts messages
                  (mkAgent (maxCalls a) (callsMade a) (tokensUsed a) (iterations + 1)
                           (state_callsMade a) (state_tokensUsed a) (emitted a)) w)
      as [Hmax Hcall].
    cbn [maxCalls callsMade tokensUsed] in Hmax, Hcall.
    destruct (callLLM messages _ w) as [[[err | response] a2] w2];
      cbn [fst snd] in Hmax, Hcall.
    + split; [exact Hmax |]. exists []. simpl. rewrite app_nil_r.
      repeat split; try lia; try exact (proj2 Hcall).
    + destruct Hcall as (Hleft & Hcalls & Htokens & Hsc & Hst).
      pose proof (process_blocks (content response) [] [] "" a2 w2)
        as (Hac & (new & Hnew & Hans) & Hsame).
      destruct (process (content response) [] [] "" a2 w2)
        as [[[[assistantContent toolResults] textResponse] a3] w3].
      cbn [fst snd] in Hac, Hnew, Hsame. simpl in Hac, Hnew. subst assistantContent new.
      destruct Hsame as (Hm3 & Hc3 & Ht3 & Hsc3 & Hst3 & _).
      fold (reply response).
      assert (Hsplit : ∀ extra,
                (messages ++ [reply response]) ++ extra =
                messages ++ reply response :: extra).
      { intros extra. rewrite <- app_assoc. reflexivity. }
      destruct toolResults as [| toolResult toolResults].
      * assert (Hnone : filter (λ b, is_tool_use b = true)
                          (filter (λ b, not_result b = true) (content response)) = []).
        { rewrite filter_tool_use_not_result. destruct Hans as [Hids _].
          destruct (filter _ (content response)); [reflexivity | discriminate]. }
        destruct (stopReason response).
        -- split; [simpl; congruence |]. exists [response]. simpl.
           repeat split; try lia.
           exists [reply response]. split; [reflexivity |].
           split; [apply turns_text; [exact Hnone | constructor] | reflexivity].
        -- eapply (continues_step messages got a a3 response []); try lia;
             [apply turns_text; [exact Hnone | constructor] | reflexivity |].
           rewrite app_nil_r. apply IH.
        -- eapply (continues_step messages got a a3 response []); try lia;
             [apply turns_text; [exact Hnone | constructor] | reflexivity |].
           rewrite app_nil_r. apply IH.
        -- eapply (continues_step messages got a a3 response []); try lia;
             [apply turns_text; [exact Hnone | constructor] | reflexivity |].
           rewrite app_nil_r. apply IH.
      * eapply (continues_step messages got a a3 response
                  [mkMessage user (toolResult :: toolResults)]); try lia;
          [| reflexivity | apply IH].
        apply turns_tools; [discriminate | | constructor].
        destruct Hans as [Hids Hall]. split; [| exact Hall].
        rewrite Hids. simpl. rewrite filter_tool_use_not_result. reflexivity.
Qed.

(** The counters of a loop entered with nothing received. *)
Lemma budget_from_start initialMessages a (x : Run World) :
  continues initialMessages [] a x →
  maxCalls (agent World x) = maxCalls a ∧
  (callsMade a ≤ maxCalls a →
   callsMade (agent World x) ≤ maxCalls a ∧
   Z.of_nat (List.length (received World x)) ≤ maxCalls a - callsMade a) ∧
  (∀ messages finalResponse, settled World x = inr (messages, finalResponse) →
   callsMade (agent World x) = callsMade a + Z.of_nat (List.length (received World x)) ∧
   tokensUsed (agent World x) = tokensUsed a + tokens_of (received World x) ∧
   state_callsMade (agent World x) = callsMade (agent World x) ∧
   state_tokensUsed (agent World x) = tokensUsed (agent World x)).
Proof.
  intros (Hmax & new & Hrec & Hlo & Hhi & Hle & Hsettled).
  change ([] ++ new) with new in Hrec. rewrite Hrec.
  split; [exact Hmax |].
  split; [intros Hstart; specialize (Hle Hstart); lia |].
  intros messages finalResponse Hinr. rewrite Hinr in Hsettled.
  destruct Hsettled as (Hc & Ht & Hsc & Hst & _). auto.
Qed.

(** The messages of a loop entered with nothing received. *)
Lemma transcript_from_start initialMessages a (x : Run World) :
  continues initialMessages [] a x →
  match settled World x with
  | inr (messages, _) =>
      ∃ suffix, messages = initialMessages ++ suffix ∧ turns suffix ∧
                filter (λ m, is_assistant m = true) suffix = map reply (received World x)
  | inl _ => True
  end.
Proof.
  intros (Hmax & new & Hrec & Hlo & Hhi & Hle & Hsettled).
  change ([] ++ new) with new in Hrec. rewrite Hrec.
  destruct (settled World x) as [err | [messages finalResponse]]; [exact I |].
  destruct Hsettled as (_ & _ & _ & _ & Hsuffix). exact Hsuffix.
Qed.

(** Whatever the model answers and the tools do, the call ceiling of the
    agent is never changed, and an agent that starts within its call budget
    ends within it, having received no more responses than the budget had
    calls left.  When the loop returns, the counters are exact: one call per
    response received and the sum of the tokens the responses report, both
    copied into the agent's state. *)
Theorem loop_stays_within_budget initialMessages a w :
  let x := runAgentLoop World create recordUsage handleToolCall initialMessages a w in
  maxCalls (agent World x) = maxCalls a ∧
  (callsMade a ≤ maxCalls a →
   callsMade (agent World x) ≤ maxCalls a ∧
   Z.of_nat (List.length (received World x)) ≤ maxCalls a - callsMade a) ∧
  (∀ messages finalResponse, settled World x = inr (messages, finalResponse) →
   callsMade (agent World x) = callsMade a + Z.of_nat (List.length (received World x)) ∧
   tokensUsed (agent World x) = tokensUsed a + tokens_of (received World x) ∧
   state_callsMade (agent World x) = callsMade (agent World x) ∧
   state_tokensUsed (agent World x) = tokensUsed (agent World x)).
Proof.
  intros x. apply (budget_from_start initialMessages a x).
  exact (loop_continues maxIterations 0 initialMessages 0 [] a w).
Qed.

(** When the loop returns, the messages it returns are the initial ones
    followed by one assistant message per response received, in order,
    holding the text and [tool_use] blocks of the response; each assistant
    message that calls tools is directly followed by a user message with one
    [tool_result] block per call, in the order and under the ids of the
    calls, and there is no other user message. *)
Theorem transcript_answers_every_tool_call initialMessages a w :
  let x := runAgentLoop World create recordUsage handleToolCall initialMessages a w in
  match settled World x with
  | inr (messages, _) =>
      ∃ suffix, messages = initialMessages ++ suffix ∧ turns suffix ∧
                filter (λ m, is_assistant m = true) suffix = map reply (received World x)
  | inl _ => True
  end.
Proof.
  intros x. apply (transcript_from_start initialMessages a x).
  exact (loop_continues maxIterations 0 initialMessages 0 [] a w).
Qed.

End Transcript.

(** ** The loop seen from outside *)

(** What the world outside sees of the agent: each call of
    [client.messages.create], with the conversation sent and what came back,
    and each call of the budget tracker, with what it threw. *)
Inductive Seen :=
| Asked (messages : list Message) (result : string + LLMResponse)
| Recorded (inputTokens outputTokens : Z) (thrown : option string).

Definition model_calls (seen : list Seen) : list (string + LLMResponse) :=
  omap (λ e, match e with Asked _ result => Some result | _ => None end) seen.


Section Observed.

Variable World : Type.
Variable create : list Message -> World -> (string + LLMResponse) * World.
Variable recordUsage : Z -> Z -> World -> option string * World.
Variable handleToolCall :
  option string -> option string -> World -> (string + ToolResult) * World.

(** The world together with what it has seen.  The model and the budget
    tracker write into the record; the loop, which is the same for every
    world, cannot. *)
Definition Observed : Type := World * list Seen.

Definition observed_create (messages : list Message) (o : Observed)
    : (string + LLMResponse) * Observed :=
  let (result, w) := create messages (fst o) in
  (result, (w, snd o ++ [Asked messages result])).

Definition observed_recordUsage (input output : Z) (o : Observed)
    : option string * Observed :=
  let (thrown, w) := recordUsage input output (fst o) in
  (thrown, (w, snd o ++ [Recorded input output thrown])).

Definition observed_handleToolCall (name input : option string) (o : Observed)
    : (string + ToolResult) * Observed :=
  let (result, w) := handleToolCall name input (fst o) in (result, (w, snd o)).

Abbreviation process := (process World handleToolCall).
Abbreviation callLLM := (callLLM World create recordUsage).
Abbreviation loop := (loop World create recordUsage handleToolCall).
Abbreviation process' := (BaseAgent.process Observed observed_handleToolCall).
Abbreviation callLLM' := (BaseAgent.callLLM Observed observed_create observed_recordUsage).
Abbreviation loop' :=
  (BaseAgent.loop Observed observed_create observed_recordUsage observed_handleToolCall).









End Observed.

(** A model that asks for a tool every time, tools that succeed, and a
    budget tracker that never throws. *)
Definition tool_call : LLMResponse :=
  mkResponse [mkBlock text (Some "Working.") None None None None None None;
              mkBlock tool_use None (Some "toolu_1") (Some "emit_progress") (Some "{}")
                      None None None]
             stop_tool_use 10 5.

Definition asking (messages : list Message) (w : unit) : (string + LLMResponse) * unit :=
  (inr tool_call, w).

Definition recording (input output : Z) (w : unit) : option string * unit := (None, w).

Definition succeeding_tool (name input : option string) (w : unit)
    : (string + ToolResult) * unit :=
  (inr (mkToolResult true (Some "{}") None), w).

Definition error_code {World : Type} (x : Run World) : option string :=
  match settled World x with inl err => Some (code err) | inr _ => None end.

Definition observed_run (maxCalls : Z) : Run (Observed unit) :=
  runAgentLoop (Observed unit) (observed_create unit asking)
               (observed_recordUsage unit recording)
               (observed_handleToolCall unit succeeding_tool)
               [mkMessage user [mkBlock text (Some "Build it.") None None None None None None]]
               (mkAgent maxCalls 0 0 0 0 0 []) (tt, []).


(** A model that asks for a tool twice and then answers; its world counts
    the calls made of it. *)
Definition answer : LLMResponse :=
  mkResponse [mkBlock text (Some "Done.") None None None None None None] end_turn 20 3.

Definition scripted (messages : list Message) (calls : nat)
    : (string + LLMResponse) * nat :=
  (inr (if (calls <? 2)%nat then tool_call else answer), S calls).

Definition returned_text {World : Type} (x : Run World) : option string :=
  match settled World x with inr (_, finalResponse) => Some finalResponse | inl _ => None end.

(** The loop returns the text of the third response, after three calls of
    the model and two of the tool. *)
Example final_response_is_returned :
  let x := runAgentLoop (Observed nat) (observed_create nat scripted)
             (observed_recordUsage nat (λ _ _ w, (None, w)))
             (observed_handleToolCall nat
                (λ _ _ w, (inr (mkToolResult true (Some "{}") None), w)))
             [mkMessage user [mkBlock text (Some "Build it.") None None None None None None]]
             (mkAgent 10 0 0 0 0 0 []) (0%nat, []) in
  returned_text x = Some "Done." ∧
  model_calls (snd (world (Observed nat) x)) = [inr tool_call; inr tool_call; inr answer] ∧
  fst (world (Observed nat) x) = 3%nat ∧
  callsMade (agent (Observed nat) x) = 3 ∧ tokensUsed (agent (Observed nat) x) = 53 ∧
  List.length (List.filter (λ e, match e with AGENT_TOOL_CALL _ _ => true | _ => false end)
                           (emitted (agent (Observed nat) x))) = 2%nat.
Proof. vm_compute. repeat split; reflexivity. Qed.

(** With budget enough, the model that always asks is called 50 times and
    the loop throws [AGENT_LOOP_DETECTED]. *)
Example loop_detected_after_50_calls :
  let x := observed_run 100 in
  model_calls (snd (world (Observed unit) x)) = repeat (inr tool_call) 50 ∧
  error_code x = Some "AGENT_LOOP_DETECTED" ∧
  callsMade (agent (Observed unit) x) = 50 ∧
  tokensUsed (agent (Observed unit) x) = 750.
Proof. vm_compute. repeat split; reflexivity. Qed.

End BaseAgentSpec.

Module OrchestratorSpec.
Import Orchestrator.

(** The specification's formula for the percentage, [round(100 * C / R)], in
    exact arithmetic, a tie going up as [Math.round] does. *)
Definition round_percent (C R : Z) : Z := (200 * C + R) / (2 * R).

Definition ids (first count : nat) : list string :=
  map (λ n : nat, "r" +:+ pretty n) (seq first count).

Definition requirements_of (ids : list string) : list Requirement :=
  map (λ i, mkRequirement i "") ids.

(** A store that holds the two documents the check reads, which only
    restoring a snapshot brings about. *)
Definition store_with (requirements plan : string) : KnowledgeStore.Store :=
  KnowledgeStore.restoreSnapshot
    (<["/requirements/main.json" :=
         KnowledgeStore.mkDoc "/requirements/main.json" requirements 1 0 0
                              "hermes" "hermes" ""]>
       (<["/plan/main.json" :=
            KnowledgeStore.mkDoc "/plan/main.json" plan 1 0 0 "athena" "athena" ""]> ∅))
    (KnowledgeStore.new None).

Definition forty_requirements : RequirementsDocument :=
  mkRequirements (requirements_of (ids 1 30)) (requirements_of (ids 31 10)).

Definition plan_covering_23 : PlanDocument :=
  mkPlan [mkTask "t1" (Some (ids 1 20)); mkTask "t2" None; mkTask "t3" (Some (ids 18 6))].


(** One requirement and a plan that covers it. *)
Definition one_requirement : RequirementsDocument :=
  mkRequirements [mkRequirement "r1" "sign in"] [].

Definition plan_covering_it : PlanDocument := mkPlan [mkTask "t1" (Some ["r1"])].

(** C5 at one requirement, covered: the agents' two writes fail, nothing is
    stored, and the check reports 0 percent, incomplete, with the gap
    [Documents not found], where 1 covered out of 1 is 100 percent, complete
    and without gaps, which is also what the body of the check computes from
    the two documents. *)
Example coverage_of_one_requirement :
  let w1 := KnowledgeStore.write (λ c, c) "/requirements/main.json" "requirements" None 1
              (KnowledgeStore.new None) in
  let w2 := KnowledgeStore.write (λ c, c) "/plan/main.json" "plan" None 2 (snd w1) in
  KnowledgeStore.wr_success (fst w1) = false ∧
  KnowledgeStore.wr_success (fst w2) = false ∧
  KnowledgeStore.documents (snd w2) = ∅ ∧
  validatePlanCoverage (λ _, inr one_requirement) (λ _, inr plan_covering_it) (snd w2) =
    inr (mkCoverage false 0 ["Documents not found"]) ∧
  coverage_of one_requirement plan_covering_it = mkCoverage true 100 [] ∧
  round_percent 1 1 = 100.
Proof. vm_compute. repeat split; reflexivity. Qed.

(** The arithmetic of the check, on documents it is handed: at 40
    requirements with distinct ids, 23 of them covered, it is not complete
    and lists the 17 uncovered ids, and the percentage is 57, where
    [round(100 * 23 / 40)] is 58: [(23 / 40) * 100] is [57.49999999999999]
    in double precision, one unit in the last place below [57.5 = 115 / 2]. *)
Example coverage_23_of_40_is_57 :
  let coverage := coverage_of forty_requirements plan_covering_23 in
  let allReqs := explicit forty_requirements ++ implicit forty_requirements in
  bool_decide (NoDup (map req_id allReqs)) = true ∧
  List.length allReqs = 40%nat ∧ size (coveredReqs plan_covering_23) = 23%nat ∧
  coverage = mkCoverage false 57 (ids 24 17) ∧
  round_percent 23 40 = 58 ∧
  Js.mul (Js.div (Js.of_int 23) (Js.of_int 40)) (Js.of_int 100) =
    S754_finite false 8092405580431359 (-47) ∧
  2 * 8092405580431359 + 2 = 115 * 2 ^ 47.
Proof. vm_compute. repeat split; reflexivity. Qed.

(** The ids the plan covers are those listed by some task. *)
Lemma elem_of_coveredReqs plan i :
  i ∈ coveredReqs plan ↔
  ∃ task l, task ∈ tasks plan ∧ coversRequirements task = Some l ∧ i ∈ l.
Proof.
  unfold coveredReqs.
  assert (Hinner : ∀ (l : list string) (acc : gset string),
            i ∈ foldl (λ covered reqId, covered ∪ {[reqId]}) acc l ↔ i ∈ acc ∨ i ∈ l).
  { induction l as [| x l IH]; intros acc; simpl.
    - split; [auto | intros [? | H]; [assumption | inversion H]].
    - rewrite IH, elem_of_union, elem_of_singleton, elem_of_cons. tauto. }
  assert (Houter : ∀ (ts : list PlanTask) (acc : gset string),
            i ∈ foldl (λ covered task,
                         foldl (λ covered reqId, covered ∪ {[reqId]}) covered
                               (default [] (coversRequirements task))) acc ts ↔
            i ∈ acc ∨ ∃ task l, task ∈ ts ∧ coversRequirements task = Some l ∧ i ∈ l).
  { induction ts as [| t ts IH]; intros acc; simpl.
    - split; [auto | intros [? | (task & l & H & _)]; [assumption | inversion H]].
    - rewrite IH, Hinner. split.
      + intros [[Hacc | Hin] | (task & l & Hts & Hl & Hi)].
        * left. exact Hacc.
        * right. destruct (coversRequirements t) as [l |] eqn:Hc; simpl in Hin;
            [| inversion Hin].
          exists t, l. split; [left | split; [exact Hc | exact Hin]].
        * right. exists task, l. repeat split; [right; exact Hts | exact Hl | exact Hi].
      + intros [Hacc | (task & l & Hts & Hl & Hi)]; [left; left; exact Hacc |].
        apply elem_of_cons in Hts as [-> | Hts].
        * left. right. rewrite Hl. exact Hi.
        * right. exists task, l. auto. }
  rewrite Houter. split; [intros [H | H]; [| exact H] | auto].
  apply not_elem_of_empty in H. contradiction.
Qed.

(** The parts of the coverage check that do not compute with fractions:
    [gaps] lists, in document order, the ids of the requirements no task
    covers; [isComplete] says there is none; when the requirement ids are
    pairwise distinct and the plan refers to no other id, [isComplete] is
    [C == R]; and with no requirement at all the percentage is 100. *)
Theorem coverage_gaps_and_completeness requirements plan :
  let coverage := coverage_of requirements plan in
  let allReqs := explicit requirements ++ implicit requirements in
  let covered := coveredReqs plan in
  gaps coverage = map req_id (filter (λ r, req_id r ∉ covered) allReqs) ∧
  (∀ i, i ∈ gaps coverage ↔ i ∈ map req_id allReqs ∧ i ∉ covered) ∧
  (isComplete coverage = true ↔ ∀ r, r ∈ allReqs → req_id r ∈ covered) ∧
  (NoDup (map req_id allReqs) → (∀ i, i ∈ covered → i ∈ map req_id allReqs) →
     (isComplete coverage = true ↔ size covered = List.length allReqs)) ∧
  (allReqs = [] → percentage coverage = 100).
Proof.
  intros coverage allReqs covered.
  assert (Hgaps : ∀ i, i ∈ gaps coverage ↔ i ∈ map req_id allReqs ∧ i ∉ covered).
  { intros i. unfold coverage, coverage_of. cbn [gaps]. fold allReqs covered.
    rewrite !list_elem_of_fmap. split.
    - intros (r & -> & Hr). apply list_elem_of_filter in Hr as [Hnot Hr]. eauto.
    - intros [(r & -> & Hr) Hnot]. exists r. split; [reflexivity |].
      apply list_elem_of_filter. auto. }
  assert (Hcomplete : isComplete coverage = true ↔ ∀ r, r ∈ allReqs → req_id r ∈ covered).
  { unfold coverage at 1, coverage_of. cbn [isComplete]. fold allReqs covered.
    rewrite bool_decide_eq_true. split.
    - intros Hnil r Hr. destruct (decide (req_id r ∈ covered)) as [| Hnot]; [assumption |].
      assert (Hin : req_id r ∈ map req_id (filter (λ r, req_id r ∉ covered) allReqs)).
      { apply list_elem_of_fmap. exists r. split; [reflexivity |].
        apply list_elem_of_filter. auto. }
      rewrite Hnil in Hin. inversion Hin.
    - intros Hall.
      destruct (filter (λ r, req_id r ∉ covered) allReqs) as [| r l] eqn:Hl;
        [reflexivity |].
      assert (Hr : r ∈ filter (λ r, req_id r ∉ covered) allReqs) by (rewrite Hl; left).
      apply list_elem_of_filter in Hr as [Hnot Hr]. destruct Hnot. auto. }
  split; [reflexivity |]. split; [exact Hgaps |]. split; [exact Hcomplete |]. split.
  - intros Hnodup Hsub. rewrite Hcomplete.
    rewrite <- (length_map req_id allReqs), <- (size_list_to_set (C:=gset string))
      by exact Hnodup.
    assert (Hsub' : covered ⊆ list_to_set (map req_id allReqs)).
    { intros i Hi. apply elem_of_list_to_set, Hsub, Hi. }
    split.
    + intros Hall. f_equal. apply set_eq. intros i. split; [apply Hsub' |].
      rewrite elem_of_list_to_set, list_elem_of_fmap. intros (r & -> & Hr). auto.
    + intros Hsize r Hr.
      assert (Heq : covered = list_to_set (map req_id allReqs)).
      { apply set_subseteq_size_eq; [exact Hsub' | lia]. }
      rewrite Heq. apply elem_of_list_to_set, list_elem_of_fmap. eauto.
  - intros Hnil. unfold coverage, coverage_of. fold allReqs. rewrite Hnil.
    vm_compute. reflexivity.
Qed.

(** A knowledge store that was filled through its own calls, none of them
    [restoreSnapshot], holds neither [/requirements/main.json] nor
    [/plan/main.json], since [write] rejects a path with a [.] in it; on such
    a store the coverage check answers that the documents are not found. *)
Theorem coverage_on_written_store sha256 parse_requirements parse_plan ops size :
  forallb (λ op, negb (KnowledgeStore.restores op)) ops = true →
  validatePlanCoverage parse_requirements parse_plan
    (KnowledgeStore.run sha256 ops (KnowledgeStore.new size)) =
  inr (mkCoverage false 0 ["Documents not found"]).
Proof.
  intros Hops. unfold validatePlanCoverage, KnowledgeStore.read.
  destruct (KnowledgeStore.documents _ !! "/requirements/main.json")
    as [doc |] eqn:Hdoc; [| reflexivity].
  apply (KnowledgeStoreSpec.run_valid_paths sha256 ops _ Hops) in Hdoc;
    [discriminate |].
  intros path d. simpl. rewrite lookup_empty. discriminate.
Qed.

Lemma coverage_on_written_store_witness :
  let ops := [KnowledgeStore.Write "/requirements/main.json" "{}" None 0;
              KnowledgeStore.Write "/requirements/main" "{}" None 1;
              KnowledgeStore.Write "/plan/main.json" "{}" None 2] in
  forallb (λ op, negb (KnowledgeStore.restores op)) ops = true ∧
  validatePlanCoverage (λ _, inr forty_requirements) (λ _, inr plan_covering_23)
    (KnowledgeStore.run (λ c, c) ops (KnowledgeStore.new None)) =
  inr (mkCoverage false 0 ["Documents not found"]).
Proof.
  split; [reflexivity |].
  exact (coverage_on_written_store (λ c, c) (λ _, inr forty_requirements)
           (λ _, inr plan_covering_23)
           [KnowledgeStore.Write "/requirements/main.json" "{}" None 0;
            KnowledgeStore.Write "/requirements/main" "{}" None 1;
            KnowledgeStore.Write "/plan/main.json" "{}" None 2]
           None eq_refl).
Defined.

(** With two requirements under one id and that id covered, the check is
    complete although one distinct id is covered out of two requirements, and
    it reports 50 percent. *)
Example duplicate_ids_complete_at_50 :
  coverage_of (mkRequirements (requirements_of ["a"]) (requirements_of ["a"]))
              (mkPlan [mkTask "t1" (Some ["a"])]) =
  mkCoverage true 50 [].
Proof. vm_compute. reflexivity. Qed.

Section Run.

Variable parse_requirements : string -> Thrown + RequirementsDocument.
Variable parse_plan : string -> Thrown + PlanDocument.
Variable agent_run : AgentName -> World -> (Thrown + AgentResult) * World.
Variable transitions : Phase -> list Phase.

Abbreviation phases := (phases parse_requirements parse_plan agent_run transitions).
Abbreviation run := (run parse_requirements parse_plan agent_run transitions).
Abbreviation transition := (transition transitions).

(** A phase that is not terminal. *)
Definition live (p : Phase) : Prop := p ≠ complete ∧ p ≠ failed.

(** A step that leaves the state machine in a live phase when it found it in
    one, however it ends; and one that does so at least when it throws. *)
Definition stays_live {A : Type} (m : M A) : Prop :=
  ∀ st r st', m st = (r, st') → live (phase st) → live (phase st').

Definition throws_live {A : Type} (m : M A) : Prop :=
  ∀ st e st', m st = (inl e, st') → live (phase st) → live (phase st').

Lemma stays_throws {A : Type} (m : M A) : stays_live m → throws_live m.
Proof. intros H st e st'. apply H. Qed.

Lemma stays_live_ret {A : Type} (x : A) : stays_live (ret x).
Proof. intros st r st' [= _ <-]. auto. Qed.

Lemma stays_live_throw {A : Type} (e : Thrown) : stays_live (@throw A e).
Proof. intros st r st' [= _ <-]. auto. Qed.

Lemma stays_live_emit e : stays_live (emit e).
Proof. intros st r st' [= _ <-]. auto. Qed.

Lemma stays_live_checkpoint tag : stays_live (checkpoint tag).
Proof. intros st r st' [= _ <-]. auto. Qed.

Lemma stays_live_validate : stays_live (validate parse_requirements parse_plan).
Proof. intros st r st' [= _ <-]. auto. Qed.

Lemma stays_live_run_agent name : stays_live (run_agent agent_run name).
Proof.
  intros st r st'. unfold run_agent. destruct (agent_run name (world st)).
  intros [= _ <-]. auto.
Qed.

Lemma stays_live_transition to reason : live to → stays_live (transition to reason).
Proof.
  intros Hto st r st'. unfold Orchestrator.transition.
  destruct (bool_decide _); intros [= _ <-]; auto.
Qed.

Lemma stays_live_bind {A B : Type} (m : M A) (k : A → M B) :
  stays_live m → (∀ x, stays_live (k x)) → stays_live (m ≫= k).
Proof.
  intros Hm Hk st r st'. unfold mbind, M_bind, bind.
  destruct (m st) as [[e | x] st1] eqn:Hst.
  - intros [= _ <-]. eapply Hm, Hst.
  - intros Hkx Hlive. eapply Hk; [exact Hkx |]. eapply Hm; eauto.
Qed.

Lemma throws_live_bind {A B : Type} (m : M A) (k : A → M B) :
  stays_live m → (∀ x, throws_live (k x)) → throws_live (m ≫= k).
Proof.
  intros Hm Hk st e st'. unfold mbind, M_bind, bind.
  destruct (m st) as [[e1 | x] st1] eqn:Hst.
  - intros [= _ <-]. eapply Hm, Hst.
  - intros Hkx Hlive. eapply Hk; [exact Hkx |]. eapply Hm; eauto.
Qed.

Lemma stays_live_must_succeed result : stays_live (must_succeed result).
Proof.
  unfold must_succeed. destruct (agent_success result);
    [apply stays_live_ret | apply stays_live_throw].
Qed.

Lemma stays_live_runPhase {A : Type} p label (fn : M A) :
  live p → stays_live fn → stays_live (runPhase transitions p label fn).
Proof.
  intros Hp Hfn. unfold runPhase.
  apply stays_live_bind; [apply stays_live_transition, Hp | intros _].
  apply stays_live_bind; [apply stays_live_emit | intros _].
  apply stays_live_bind; [exact Hfn | intros x].
  apply stays_live_bind; [apply stays_live_checkpoint | intros _].
  apply stays_live_bind; [apply stays_live_emit | intros _].
  apply stays_live_ret.
Qed.

Ltac live_phase := split; discriminate.

Ltac stays :=
  repeat lazymatch goal with
  | |- stays_live (runPhase _ _ _ _) => apply stays_live_runPhase; [live_phase |]
  | |- stays_live (mbind _ _) => apply stays_live_bind; [| intros ?]
  | |- stays_live (Orchestrator.transition _ _ _) =>
      apply stays_live_transition; live_phase
  | |- stays_live (run_agent _ _) => apply stays_live_run_agent
  | |- stays_live (must_succeed _) => apply stays_live_must_succeed
  | |- stays_live (validate _ _) => apply stays_live_validate
  | |- stays_live (emit _) => apply stays_live_emit
  | |- stays_live (ret _) => apply stays_live_ret
  | |- stays_live (throw _) => apply stays_live_throw
  end.

Lemma stays_live_deploy : stays_live (deploy agent_run transitions).
Proof.
  intros st r st' Heq Hlive. unfold deploy in Heq.
  destruct (opt_skipDeploy (options st)).
  - eapply stays_live_ret; eauto.
  - refine (stays_live_runPhase deployment _ _ _ _ st r st' Heq Hlive);
      [live_phase |].
    stays. destruct (agent_data _); stays.
Qed.

(** When the phases throw, the state machine is in a live phase. *)
Lemma phases_throw_live : throws_live phases.
Proof.
  unfold Orchestrator.phases.
  apply throws_live_bind; [stays | intros _].
  apply throws_live_bind; [stays | intros _].
  apply throws_live_bind.
  { stays. destruct (isComplete _); stays. destruct (isComplete _); stays. }
  intros _.
  apply throws_live_bind; [stays | intros _].
  apply throws_live_bind.
  { stays. destruct (agent_success _); stays. unfold runFixLoop. stays. }
  intros _.
  apply throws_live_bind; [apply stays_live_deploy | intros deployed].
  intros st e st'. unfold mbind, M_bind, bind, Orchestrator.transition.
  destruct (bool_decide _); [discriminate |]. intros [= _ <-]. auto.
Qed.

(** The state in which the phases start: [GENERATION_STARTED] has been
    emitted. *)
Definition started (st : State) : State :=
  snd (emit (GENERATION_STARTED (opt_projectId (options st))
               (opt_projectName (options st)) (opt_prompt (options st))) st).

(** C8.  Let the transition table allow [failed] from every phase that is
    not terminal, and let the run start in such a phase.  Whenever the phases
    throw, whatever was thrown and wherever, [run] returns (it does not throw)
    an unsuccessful result with the error's message; the state machine is in
    [failed]; the last event of the stream is [GENERATION_FAILED]; and the
    result carries the files the sandbox held and the tokens the budget
    counted when the error was thrown. *)
Theorem failed_run_keeps_artifacts st e st1 :
  (∀ p, live p → failed ∈ transitions p) →
  live (phase st) →
  phases (started st) = (inl e, st1) →
  ∃ result st',
    run st = (inr result, st') ∧
    success result = false ∧ error result = Some (message_of e) ∧
    phase st' = failed ∧
    stream (world st') =
      stream (world st1) ++ [GENERATION_FAILED (message_of e) failed] ∧
    files result = sandbox (world st1) ∧
    filesCount result = size (sandbox (world st1)) ∧
    tokensUsed result = totalTokens (budget (world st1)) ∧
    sandbox (world st') = sandbox (world st1).
Proof.
  intros Htable Hlive Hthrow.
  assert (Hlive1 : live (phase st1)).
  { eapply phases_throw_live; [exact Hthrow | exact Hlive]. }
  unfold Orchestrator.run, started in *.
  unfold mbind, M_bind, bind, get, try_catch in *. cbn [emit snd] in *.
  unfold mbind, M_bind, bind in Hthrow. rewrite Hthrow.
  unfold Orchestrator.transition.
  rewrite bool_decide_eq_true_2 by (apply Htable, Hlive1).
  cbn. eexists _, _. repeat split.
Qed.

End Run.

(** ** How a run ends, and what [skipDeploy] skips *)

Lemma bind_returns {A B : Type} (m : M A) (k : A → M B) st x st' :
  (m ≫= k) st = (inr x, st') →
  ∃ y st1, m st = (inr y, st1) ∧ k y st1 = (inr x, st').
Proof.
  unfold mbind, M_bind, bind. destruct (m st) as [[e | y] st1]; [discriminate | eauto].
Qed.

Section Outcome.

Variable parse_requirements : string -> Thrown + RequirementsDocument.
Variable parse_plan : string -> Thrown + PlanDocument.
Variable agent_run : AgentName -> World -> (Thrown + AgentResult) * World.
Variable transitions : Phase -> list Phase.

Abbreviation phases := (phases parse_requirements parse_plan agent_run transitions).
Abbreviation run := (run parse_requirements parse_plan agent_run transitions).

(** When the phases return, the state machine is in [complete]. *)
Lemma phases_return_complete st deployed st1 :
  phases st = (inr deployed, st1) → phase st1 = complete.
Proof.
  unfold Orchestrator.phases. intros H.
  do 6 (apply bind_returns in H as (? & ? & _ & H)).
  apply bind_returns in H as ([] & st7 & Ht & H).
  injection H as _ <-. unfold transition in Ht.
  destruct (bool_decide _); [injection Ht as <-; reflexivity | discriminate].
Qed.

(** Let the transition table allow [failed] from every phase that is not
    terminal, and let the run start in such a phase.  Then [run] never
    throws; it returns a result that carries the files of the sandbox and
    the tokens of the budget as they are at the end, and it ends in one of
    two ways: successful, with no error, the state machine in [complete] and
    [GENERATION_COMPLETED] with that result the last event of the stream; or
    unsuccessful, with an error message and no deployed URL, the state
    machine in [failed] and [GENERATION_FAILED] with that message the last
    event. *)
Theorem run_ends_complete_or_failed st :
  (∀ p, live p → failed ∈ transitions p) →
  live (phase st) →
  ∃ result st',
    run st = (inr result, st') ∧
    files result = sandbox (world st') ∧
    filesCount result = size (sandbox (world st')) ∧
    tokensUsed result = totalTokens (budget (world st')) ∧
    (success result = true ∧ error result = None ∧ phase st' = complete ∧
     last (stream (world st')) = Some (GENERATION_COMPLETED result)
     ∨
     success result = false ∧ deployedUrl result = None ∧ phase st' = failed ∧
     ∃ message, error result = Some message ∧
                last (stream (world st')) = Some (GENERATION_FAILED message failed)).
Proof.
  intros Htable Hlive.
  destruct (phases (started st)) as [[e | deployed] st1] eqn:Hphases.
  - assert (Hlive1 : live (phase st1)).
    { eapply (phases_throw_live parse_requirements parse_plan agent_run transitions);
        [exact Hphases | exact Hlive]. }
    unfold Orchestrator.run, started in *.
    unfold mbind, M_bind, bind, get, try_catch in *. cbn [emit snd] in *.
    unfold mbind, M_bind, bind in Hphases. rewrite Hphases.
    unfold transition.
    rewrite bool_decide_eq_true_2 by (apply Htable, Hlive1).
    cbn. eexists _, _. split; [reflexivity |]. cbn.
    split; [reflexivity |]. split; [reflexivity |]. split; [reflexivity |].
    right. split; [reflexivity |]. split; [reflexivity |]. split; [reflexivity |].
    eexists. split; [reflexivity |]. apply last_snoc.
  - pose proof (phases_return_complete _ _ _ Hphases) as Hcomplete.
    unfold Orchestrator.run, started in *.
    unfold mbind, M_bind, bind, get, try_catch in *. cbn [emit snd] in *.
    unfold mbind, M_bind, bind in Hphases. rewrite Hphases.
    cbn. eexists _, _. split; [reflexivity |]. cbn.
    split; [reflexivity |]. split; [reflexivity |]. split; [reflexivity |].
    left. split; [reflexivity |]. split; [reflexivity |]. split; [exact Hcomplete |].
    apply last_snoc.
Qed.

End Outcome.

Section SkipDeploy.

Variable parse_requirements : string -> Thrown + RequirementsDocument.
Variable parse_plan : string -> Thrown + PlanDocument.
Variable transitions : Phase -> list Phase.

(** Two sets of agents that differ at most in the deployment agent. *)
Variables agent_run agent_run' : AgentName -> World -> (Thrown + AgentResult) * World.
Hypothesis same_agents : ∀ name w, name ≠ artemis → agent_run name w = agent_run' name w.

Definition skipping (st : State) : Prop := opt_skipDeploy (options st) = true.

(** Two steps that do the same from every state in which [skipDeploy] is
    set, and leave it set. *)
Definition agree {A : Type} (m m' : M A) : Prop :=
  ∀ st, skipping st → m st = m' st ∧ skipping (snd (m st)).

Lemma agree_bind {A B : Type} (m m' : M A) (k k' : A → M B) :
  agree m m' → (∀ x, agree (k x) (k' x)) → agree (m ≫= k) (m' ≫= k').
Proof.
  intros Hm Hk st Hst. unfold mbind, M_bind, bind.
  destruct (Hm st Hst) as [Heq Hskip]. rewrite <- Heq.
  destruct (m st) as [[e | x] st1]; [auto | apply Hk, Hskip].
Qed.

Lemma agree_try_catch {A : Type} (m m' : M A) (h h' : Thrown → M A) :
  agree m m' → (∀ e, agree (h e) (h' e)) → agree (try_catch m h) (try_catch m' h').
Proof.
  intros Hm Hh st Hst. unfold try_catch.
  destruct (Hm st Hst) as [Heq Hskip]. rewrite <- Heq.
  destruct (m st) as [[e | x] st1]; [apply Hh, Hskip | auto].
Qed.

Lemma agree_ret {A : Type} (x : A) : agree (ret x) (ret x).
Proof. intros st Hst. auto. Qed.

Lemma agree_throw {A : Type} (e : Thrown) : agree (@throw A e) (throw e).
Proof. intros st Hst. auto. Qed.

Lemma agree_emit e : agree (emit e) (emit e).
Proof. intros st Hst. auto. Qed.

Lemma agree_get {A : Type} (f : State → A) : agree (get f) (get f).
Proof. intros st Hst. auto. Qed.

Lemma agree_checkpoint tag : agree (checkpoint tag) (checkpoint tag).
Proof. intros st Hst. auto. Qed.

Lemma agree_validate :
  agree (validate parse_requirements parse_plan) (validate parse_requirements parse_plan).
Proof. intros st Hst. auto. Qed.

Lemma agree_transition to reason :
  agree (transition transitions to reason) (transition transitions to reason).
Proof.
  intros st Hst. split; [reflexivity |]. unfold transition.
  destruct (bool_decide _); exact Hst.
Qed.

Lemma agree_result_of ok deployed err summary :
  agree (result_of ok deployed err summary) (result_of ok deployed err summary).
Proof. intros st Hst. auto. Qed.

Lemma agree_must_succeed result : agree (must_succeed result) (must_succeed result).
Proof. unfold must_succeed. destruct (agent_success result); intros st Hst; auto. Qed.

Lemma agree_run_agent name :
  name ≠ artemis → agree (run_agent agent_run name) (run_agent agent_run' name).
Proof.
  intros Hname st Hst. unfold run_agent. rewrite (same_agents name _ Hname).
  destruct (agent_run' name (world st)). auto.
Qed.

Lemma agree_runPhase {A : Type} p label (fn fn' : M A) :
  agree fn fn' → agree (runPhase transitions p label fn) (runPhase transitions p label fn').
Proof.
  intros Hfn. unfold runPhase.
  apply agree_bind; [apply agree_transition | intros _].
  apply agree_bind; [apply agree_emit | intros _].
  apply agree_bind; [exact Hfn | intros x].
  apply agree_bind; [apply agree_checkpoint | intros _].
  apply agree_bind; [apply agree_emit | intros _].
  apply agree_ret.
Qed.

(** With [skipDeploy] set, the deployment step returns at once. *)
Lemma agree_deploy : agree (deploy agent_run transitions) (deploy agent_run' transitions).
Proof. intros st Hst. unfold deploy. rewrite Hst. auto. Qed.

Ltac agrees :=
  repeat lazymatch goal with
  | |- agree (runPhase _ _ _ _) (runPhase _ _ _ _) => apply agree_runPhase
  | |- agree (mbind _ _) (mbind _ _) => apply agree_bind; [| intros ?]
  | |- agree (try_catch _ _) (try_catch _ _) => apply agree_try_catch; [| intros ?]
  | |- agree (transition _ _ _) _ => apply agree_transition
  | |- agree (run_agent _ _) _ => apply agree_run_agent; discriminate
  | |- agree (must_succeed _) _ => apply agree_must_succeed
  | |- agree (validate _ _) _ => apply agree_validate
  | |- agree (deploy _ _) _ => apply agree_deploy
  | |- agree (result_of _ _ _ _) _ => apply agree_result_of
  | |- agree (get _) _ => apply agree_get
  | |- agree (emit _) _ => apply agree_emit
  | |- agree (ret _) _ => apply agree_ret
  | |- agree (throw _) _ => apply agree_throw
  end.

Lemma agree_phases :
  agree (Orchestrator.phases parse_requirements parse_plan agent_run transitions)
        (Orchestrator.phases parse_requirements parse_plan agent_run' transitions).
Proof.
  unfold Orchestrator.phases. agrees.
  - destruct (isComplete _); agrees. destruct (isComplete _); agrees.
  - destruct (agent_success _); agrees. unfold runFixLoop. agrees.
Qed.

Lemma agree_run :
  agree (Orchestrator.run parse_requirements parse_plan agent_run transitions)
        (Orchestrator.run parse_requirements parse_plan agent_run' transitions).
Proof. unfold Orchestrator.run. agrees. apply agree_phases. Qed.

End SkipDeploy.

(** With [skipDeploy] set, the deployment agent is never run: two runs whose
    agents differ at most in the deployment agent return the same result and
    leave the same state, events included. *)
Theorem skip_deploy_never_runs_artemis parse_requirements parse_plan transitions
    (agent_run agent_run' : AgentName -> World -> (Thrown + AgentResult) * World) st :
  (∀ name w, name ≠ artemis → agent_run name w = agent_run' name w) →
  opt_skipDeploy (options st) = true →
  run parse_requirements parse_plan agent_run transitions st =
  run parse_requirements parse_plan agent_run' transitions st.
Proof.
  intros Hsame Hskip.
  apply (agree_run parse_requirements parse_plan transitions agent_run agent_run' Hsame st
           Hskip).
Qed.

(** A table that allows every move. *)
Definition any_phase (p : Phase) : list Phase :=
  [idle; intake; research; architecture; plan_validation; building;
   verification; deployment; complete; failed].

(** Intake writes a file, spends tokens and reports failure. *)
Definition failing_intake (name : AgentName) (w : World)
    : (Thrown + AgentResult) * World :=
  (inr (mkAgentResult false None (Some "model refused")),
   mkWorld (knowledge w) (<["README.md" := "# todo"]> (sandbox w))
           (mkTotalBudget (totalTokens (budget w) + 1200) (estimatedCost (budget w)))
           (stream w)).

Definition fresh : State :=
  mkState (mkGenerationOptions "p1" "todo" "build a todo app" false) idle [] []
          (mkWorld (KnowledgeStore.new None) ∅ (mkTotalBudget 0 (Js.of_int 0)) []).

Lemma failed_run_keeps_artifacts_witness :
  let run := run (λ _, inl NotAnError) (λ _, inl NotAnError) failing_intake any_phase in
  (∀ p, live p → failed ∈ any_phase p) ∧ live (phase fresh) ∧
  ∃ result st',
    run fresh = (inr result, st') ∧ success result = false ∧
    phase st' = failed ∧ files result = {["README.md" := "# todo"]} ∧
    tokensUsed result = 1200.
Proof.
  assert (Htable : ∀ p, live p → failed ∈ any_phase p).
  { intros p _. unfold any_phase. set_solver. }
  assert (Hlive : live (phase fresh)) by (split; discriminate).
  split; [exact Htable |]. split; [exact Hlive |].
  destruct (failed_run_keeps_artifacts (λ _, inl NotAnError) (λ _, inl NotAnError)
              failing_intake any_phase fresh (ErrorObject "model refused")
              (snd (Orchestrator.phases (λ _, inl NotAnError) (λ _, inl NotAnError)
                      failing_intake any_phase
                      (started fresh)))
              Htable Hlive eq_refl)
    as (result & st' & Hrun & Hsuccess & _ & Hphase & _ & Hfiles & _ & Htokens & _).
  exists result, st'. repeat split; assumption.
Defined.

(** Agents that all succeed, on a store that holds both documents, with
    deployment skipped. *)
Definition succeeding (name : AgentName) (w : World) : (Thrown + AgentResult) * World :=
  (inr (mkAgentResult true None None), w).

Definition undeployable (name : AgentName) (w : World) : (Thrown + AgentResult) * World :=
  match name with
  | artemis => (inl (ErrorObject "no deployment target"), w)
  | _ => succeeding name w
  end.

Definition skipping_deploy : State :=
  mkState (mkGenerationOptions "p1" "todo" "build a todo app" true) idle [] []
          (mkWorld (store_with "{}" "{}") ∅ (mkTotalBudget 0 (Js.of_int 0)) []).

Lemma run_ends_complete_or_failed_witness :
  let run := run (λ _, inr (mkRequirements [] [])) (λ _, inr (mkPlan []))
                 succeeding any_phase in
  (∀ p, live p → failed ∈ any_phase p) ∧ live (phase skipping_deploy) ∧
  ∃ result st',
    run skipping_deploy = (inr result, st') ∧
    files result = sandbox (world st') ∧
    (phase st' = complete ∨ phase st' = failed).
Proof.
  assert (Htable : ∀ p, live p → failed ∈ any_phase p).
  { intros p _. unfold any_phase. set_solver. }
  assert (Hlive : live (phase skipping_deploy)) by (split; discriminate).
  split; [exact Htable |]. split; [exact Hlive |].
  destruct (run_ends_complete_or_failed (λ _, inr (mkRequirements [] []))
              (λ _, inr (mkPlan [])) succeeding any_phase skipping_deploy Htable Hlive)
    as (result & st' & Hrun & Hfiles & _ & _ & Hend).
  exists result, st'. split; [exact Hrun |]. split; [exact Hfiles |].
  destruct Hend as [(_ & _ & Hphase & _) | (_ & _ & Hphase & _)]; auto.
Defined.

Lemma skip_deploy_never_runs_artemis_witness :
  (∀ name w, name ≠ artemis → succeeding name w = undeployable name w) ∧
  opt_skipDeploy (options skipping_deploy) = true ∧
  run (λ _, inr (mkRequirements [] [])) (λ _, inr (mkPlan [])) succeeding any_phase
      skipping_deploy =
  run (λ _, inr (mkRequirements [] [])) (λ _, inr (mkPlan [])) undeployable any_phase
      skipping_deploy.
Proof.
  assert (Hsame : ∀ name w, name ≠ artemis → succeeding name w = undeployable name w).
  { intros [] w Hname; try reflexivity. contradiction. }
  split; [exact Hsame |]. split; [reflexivity |].
  exact (skip_deploy_never_runs_artemis (λ _, inr (mkRequirements [] []))
           (λ _, inr (mkPlan [])) any_phase succeeding undeployable skipping_deploy
           Hsame eq_refl).
Defined.

End OrchestratorSpec.

Module N8nCallbackSpec.
Import N8nCallback.

Section Route.

Variable hmac_sha256_hex : string -> string -> string.
Variable parse : string -> option Payload.
Variable now : string.

Lemma truthy_not_empty (x : string) : Js.truthy x = true → x ≠ "".
Proof. intros H ->. discriminate. Qed.

Lemma missing_false (x : string) : Js.truthy x = true → missing (Some x) = false.
Proof. intros H. simpl. rewrite H. reflexivity. Qed.

(** C6.  A delivery that is authenticated (the secret is configured and the
    signature header is the HMAC of the body), whose payload names a request,
    a task and a status, for a task that exists under that request and whose
    stored status is anything but [in_progress], is answered with HTTP 200 and
    a [success: true] body that reports the stored status; the tables, the
    event log and the orchestrator's resume list are exactly what they
    were. *)
Theorem duplicate_delivery_is_noop secret request payload rid tid st task w :
  Js.truthy secret = true →
  signature_header request = Some (hmac_sha256_hex secret (rawBody request)) →
  Js.truthy (hmac_sha256_hex secret (rawBody request)) = true →
  parse (rawBody request) = Some payload →
  requestId payload = Some rid → Js.truthy rid = true →
  taskId payload = Some tid → Js.truthy tid = true →
  status payload = Some st → Js.truthy st = true →
  select_task tid rid w = Some task →
  task_status task ≠ "in_progress" →
  POST (Some secret) hmac_sha256_hex parse now request w =
    (mkResponse 200
       (AlreadyDone "Task already completed or cancelled" (task_status task)), w) ∧
  body_success (body (fst (POST (Some secret) hmac_sha256_hex parse now request w)))
    = true.
Proof.
  intros Hsecret Hsig Hsigt Hparse Hrid Hridt Htid Htidt Hst Hstt Hsel Hstatus.
  assert (Hpost : POST (Some secret) hmac_sha256_hex parse now request w =
            (mkResponse 200
               (AlreadyDone "Task already completed or cancelled" (task_status task)),
             w)).
  { unfold POST.
    destruct secret as [| c secret]; [discriminate |].
    rewrite Hsig.
    destruct (hmac_sha256_hex _ _) as [| c' sig] eqn:Hmac; [discriminate |].
    rewrite Nat.eqb_refl, String.eqb_refl. cbn [negb].
    rewrite Hparse, Hrid, Htid, Hst.
    rewrite !missing_false by assumption.
    cbn [orb default from_option Datatypes.id]. rewrite Hsel.
    destruct (String.eqb_spec (task_status task) "in_progress") as [Heq | _];
      [contradiction | reflexivity]. }
  rewrite Hpost. split; reflexivity.
Qed.

End Route.

(** A toy keyed digest and a parser that knows one body, for running the
    route. *)
Definition toy_hmac (key body : string) : string := key +:+ ":" +:+ body.

Definition done_body : string := "{requestId:r1,taskId:t1,status:success}".

Definition toy_parse (body : string) : option Payload :=
  if String.eqb body done_body
  then Some (mkPayload (Some "r1") (Some "t1") (Some "e1") None (Some "success")
                       (Some (mkResultData (Some "https://cdn/x.mp4") "{}")) None)
  else None.

Definition delivery : Request := mkRequest (Some (toy_hmac "s3cret" done_body)) done_body.

Definition pending_world : World :=
  mkWorld [mkTask "t1" "r1" "in_progress" "render" "n8n" None None None None]
          ["r1"] [] [] [].

(** The first delivery completes the task, logs and resumes; the same
    delivery again changes nothing. *)
Lemma duplicate_delivery_is_noop_witness :
  let POST := POST (Some "s3cret") toy_hmac toy_parse "2026-01-09T00:00:00Z" in
  let w1 := snd (POST delivery pending_world) in
  (List.length (logged w1) = 2%nat ∧ resumed w1 = ["r1"] ∧
   List.length (provider_metadata w1) = 1%nat) ∧
  select_task "t1" "r1" w1 =
    Some (mkTask "t1" "r1" "completed" "render" "n8n" (Some "{}")
                 (Some "https://cdn/x.mp4") None (Some "2026-01-09T00:00:00Z")) ∧
  POST delivery w1 =
    (mkResponse 200 (AlreadyDone "Task already completed or cancelled" "completed"), w1).
Proof.
  split; [vm_compute; auto |]. split; [vm_compute; reflexivity |].
  apply (duplicate_delivery_is_noop toy_hmac toy_parse "2026-01-09T00:00:00Z"
           "s3cret" delivery
           (mkPayload (Some "r1") (Some "t1") (Some "e1") None (Some "success")
                      (Some (mkResultData (Some "https://cdn/x.mp4") "{}")) None)
           "r1" "t1" "success"
           (mkTask "t1" "r1" "completed" "render" "n8n" (Some "{}")
                   (Some "https://cdn/x.mp4") None (Some "2026-01-09T00:00:00Z")));
    try reflexivity.
  discriminate.
Defined.

(** ** Unauthenticated and repeated deliveries *)

Section Deliveries.

Variable webhookSecret : option string.
Variable hmac_sha256_hex : string -> string -> string.
Variable parse : string -> option Payload.
Variable now : string.

Abbreviation POST := (POST webhookSecret hmac_sha256_hex parse now).

(** A request whose signature header is not the HMAC of its body under the
    configured secret, or any request when no secret is configured, changes
    nothing: no table, no log entry, no resume; it is answered 401, or 500
    when the secret is missing or the header has another length than the
    digest, always with [success: false]. *)
Theorem unauthenticated_request_changes_nothing request w :
  (∀ secret, webhookSecret = Some secret →
             signature_header request ≠ Some (hmac_sha256_hex secret (rawBody request))) →
  snd (POST request w) = w ∧
  (http_status (fst (POST request w)) = 401 ∨ http_status (fst (POST request w)) = 500) ∧
  body_success (body (fst (POST request w))) = false.
Proof.
  intros Hauth. unfold N8nCallback.POST.
  destruct webhookSecret as [[| c secret] |]; cbn [fst snd http_status body body_success];
    auto.
  specialize (Hauth _ eq_refl).
  destruct (signature_header request) as [[| c' signature] |];
    cbn [fst snd http_status body body_success]; auto.
  cbv zeta.
  destruct (negb (_ =? _)%nat); cbn [fst snd http_status body body_success]; auto.
  destruct (String.eqb_spec (String c' signature)
              (hmac_sha256_hex (String c secret) (rawBody request))) as [Heq | Hne];
    cbn [negb fst snd http_status body body_success]; auto.
  rewrite Heq in Hauth. contradiction.
Qed.

Lemma filter_map_same {A : Type} (P : A → Prop) `{∀ x, Decision (P x)} (f : A → A) l :
  (∀ x, P (f x) ↔ P x) → filter P (map f l) = map f (filter P l).
Proof.
  intros HP. induction l as [| x l IH]; [reflexivity |].
  cbn [map]. rewrite !filter_cons.
  destruct (decide (P (f x))) as [H1 | H1], (decide (P x)) as [H2 | H2];
    cbn [map]; rewrite ?IH; try reflexivity; exfalso;
    [apply H2, HP, H1 | apply H1, HP, H2].
Qed.

(** Selecting a task reads the two tables only, and an update that keeps
    the keys of every row selects the updated row. *)
Lemma select_task_resumeRequest taskId requestId x w :
  select_task taskId requestId (resumeRequest x w) = select_task taskId requestId w.
Proof. reflexivity. Qed.

Lemma select_task_log taskId requestId e w :
  select_task taskId requestId (log e w) = select_task taskId requestId w.
Proof. reflexivity. Qed.

Lemma select_task_insert_metadata taskId requestId row w :
  select_task taskId requestId (insert_metadata row w) = select_task taskId requestId w.
Proof. reflexivity. Qed.

Lemma select_task_update_task taskId requestId change w :
  (∀ t, id (change t) = id t ∧ request_id (change t) = request_id t) →
  select_task taskId requestId (update_task taskId change w) =
  change <$> select_task taskId requestId w.
Proof.
  intros Hkeys. unfold select_task, update_task. cbn [request_tasks content_requests].
  rewrite filter_map_same.
  - destruct (filter _ (request_tasks w)) as [| task [| task' rest]] eqn:Hfilter;
      try reflexivity.
    simpl. f_equal.
    assert (Hin : task ∈ filter (λ t, id t = taskId ∧ request_id t = requestId ∧
                                      request_id t ∈ content_requests w)
                                (request_tasks w))
      by (rewrite Hfilter; left).
    apply list_elem_of_filter in Hin as [[Hid _] _].
    rewrite decide_True by exact Hid. reflexivity.
  - intros t. destruct (decide (id t = taskId)); [| reflexivity].
    destruct (Hkeys t) as [-> ->]. reflexivity.
Qed.

Abbreviation check := (check webhookSecret hmac_sha256_hex parse).
Abbreviation complete := (complete now).

(** Run without interruption and with every write carried out, the two
    halves are the route. *)
Lemma POST_check_complete request w :
  POST request w =
  match check request w with
  | Answered response => (response, w)
  | InProgress payload task => complete true true payload task w
  end.
Proof.
  unfold N8nCallback.POST, N8nCallback.check, N8nCallback.complete.
  destruct webhookSecret as [[| c secret] |]; try reflexivity.
  destruct (signature_header request) as [[| c' signature] |]; try reflexivity.
  cbv zeta.
  destruct (negb (_ =? _)%nat); [reflexivity |].
  destruct (negb (String.eqb _ _)); [reflexivity |].
  destruct (parse (rawBody request)) as [payload |]; [| reflexivity].
  destruct (missing (requestId payload) || missing (taskId payload) ||
            missing (status payload)); [reflexivity |].
  destruct (select_task _ _ w) as [task |]; [| reflexivity].
  destruct (negb (String.eqb (task_status task) "in_progress")); [reflexivity |].
  rewrite orb_false_r. reflexivity.
Qed.

(** A delivery that finds its task in progress has passed every test
    before; on other tables the same delivery is decided by the task row it
    finds there. *)
Lemma check_in_progress request w payload task :
  check request w = InProgress payload task →
  select_task (default "" (taskId payload)) (default "" (requestId payload)) w = Some task ∧
  task_status task = "in_progress" ∧
  ∀ w', check request w' =
        match select_task (default "" (taskId payload)) (default "" (requestId payload)) w'
        with
        | None => Answered (mkResponse 404 (Failure "Task not found or request mismatch"))
        | Some task' =>
            if negb (String.eqb (task_status task') "in_progress") then
              Answered (mkResponse 200
                          (AlreadyDone "Task already completed or cancelled"
                                       (task_status task')))
            else InProgress payload task'
        end.
Proof.
  unfold N8nCallback.check.
  destruct webhookSecret as [[| c secret] |]; try discriminate.
  destruct (signature_header request) as [[| c' signature] |]; try discriminate.
  cbv zeta.
  destruct (negb (_ =? _)%nat); [discriminate |].
  destruct (negb (String.eqb _ _)); [discriminate |].
  destruct (parse (rawBody request)) as [payload' |]; [| discriminate].
  destruct (missing (requestId payload') || missing (taskId payload') ||
            missing (status payload')); [discriminate |].
  destruct (select_task _ _ w) as [task' |] eqn:Hselect; [| discriminate].
  destruct (String.eqb_spec (task_status task') "in_progress") as [Hstatus | Hstatus];
    [| discriminate].
  cbn [negb]. intros [= <- <-]. auto.
Qed.

(** What [complete] leaves behind: the two tables as they were but for the
    update, two more log entries, and one more request to resume. *)
Lemma complete_effects inserted updated payload task w :
  let out := complete inserted updated payload task w in
  (∃ message, fst out = mkResponse 200 (Done message (default "" (taskId payload)))) ∧
  content_requests (snd out) = content_requests w ∧
  (updated = false → request_tasks (snd out) = request_tasks w) ∧
  (updated = true →
   ∃ change status,
     (status = "completed" ∨ status = "failed") ∧
     (∀ t, id (change t) = id t ∧ request_id (change t) = request_id t ∧
           task_status (change t) = status) ∧
     ∀ tid rid, select_task tid rid (snd out) =
                select_task tid rid (update_task (default "" (taskId payload)) change w)) ∧
  List.length (logged (snd out)) = (List.length (logged w) + 2)%nat ∧
  resumed (snd out) = resumed w ++ [default "" (requestId payload)] ∧
  List.length (provider_metadata (snd out)) =
    (List.length (provider_metadata w) +
     if missing (executionId payload) || negb inserted ||
        negb (String.eqb (default "" (status payload)) "success")
     then 0 else 1)%nat.
Proof.
  assert (Hlen : ∀ (l : list Logged) e1 e2,
            List.length ((l ++ [e1]) ++ [e2]) = (List.length l + 2)%nat).
  { intros l e1 e2. rewrite !length_app. cbn [List.length]. lia. }
  unfold N8nCallback.complete. cbv zeta.
  destruct (String.eqb (default "" (status payload)) "success"); cbn [fst snd].
  - split; [eauto |]. rewrite orb_false_r.
    destruct (missing (executionId payload) || negb inserted), updated;
      (split; [reflexivity |]);
      (split; [first [discriminate | intros _; reflexivity] |]);
      (split;
       [first [discriminate
              | intros _; eexists _, "completed"; split; [left; reflexivity |];
                (split; [| intros tid rid; reflexivity]); intros t; repeat split] |]);
      (split; [apply Hlen |]); (split; [reflexivity |]);
      cbn [provider_metadata resumeRequest log update_task insert_metadata];
      rewrite ?length_app; cbn [List.length]; lia.
  - split; [eauto |]. rewrite orb_true_r.
    destruct updated;
      (split; [reflexivity |]);
      (split; [first [discriminate | intros _; reflexivity] |]);
      (split;
       [first [discriminate
              | intros _; eexists _, "failed"; split; [right; reflexivity |];
                (split; [| intros tid rid; reflexivity]); intros t; repeat split] |]);
      (split; [apply Hlen |]); (split; [reflexivity |]);
      cbn [provider_metadata resumeRequest log update_task]; lia.
Qed.

(** Whether a delivery given again is a no-op depends on how far the first
    one has come.  A delivery that [check] answers (refused, task not found,
    or task not in progress) changes nothing, so it is answered the same way
    however often it is given.  For a delivery that finds its task in
    progress: once the update of the first has been carried out, the task is
    [completed] or [failed], and the delivery given again is answered 200 as
    already done and changes nothing; when the database did not carry out
    the update, which the route does not notice, the delivery given again
    finds the task in progress as before; and a second delivery that read the
    task before the update of the first goes through [complete] as well:
    both are answered alike as done, the request is resumed twice and the
    events are logged twice. *)
Theorem redelivery_repeats_until_updated request w :
  match check request w with
  | Answered response => POST request w = (response, w)
  | InProgress payload task =>
      POST request w = complete true true payload task w ∧
      (∀ inserted,
         let w1 := snd (complete inserted true payload task w) in
         ∃ status, (status = "completed" ∨ status = "failed") ∧
           POST request w1 =
             (mkResponse 200 (AlreadyDone "Task already completed or cancelled" status),
              w1)) ∧
      (∀ inserted,
         let w1 := snd (complete inserted false payload task w) in
         check request w1 = InProgress payload task) ∧
      (∀ inserted updated inserted' updated',
         let first := complete inserted updated payload task w in
         let second := complete inserted' updated' payload task (snd first) in
         (∃ message, fst first = mkResponse 200 (Done message (default "" (taskId payload))) ∧
                     fst second = fst first) ∧
         resumed (snd second) =
           resumed w ++ [default "" (requestId payload); default "" (requestId payload)] ∧
         List.length (logged (snd second)) = (List.length (logged w) + 4)%nat)
  end.
Proof.
  destruct (check request w) as [response | payload task] eqn:Hcheck.
  - rewrite POST_check_complete, Hcheck. reflexivity.
  - destruct (check_in_progress _ _ _ _ Hcheck) as (Hselect & Hstatus & Hlater).
    split; [rewrite POST_check_complete, Hcheck; reflexivity |].
    split; [| split].
    + intros inserted. cbv zeta.
      destruct (complete_effects inserted true payload task w)
        as (_ & _ & _ & Hupdated & _).
      destruct (Hupdated eq_refl) as (change & status & Hst & Hkeys & Hsel).
      exists status. split; [exact Hst |].
      rewrite POST_check_complete, Hlater, Hsel, select_task_update_task, Hselect
        by (intros t; split; apply (Hkeys t)).
      cbn [fmap option_fmap option_map].
      destruct (Hkeys task) as (_ & _ & ->).
      destruct Hst as [-> | ->]; reflexivity.
    + intros inserted. cbv zeta.
      destruct (complete_effects inserted false payload task w)
        as (_ & Hrequests & Htasks & _).
      rewrite Hlater. unfold select_task. rewrite Hrequests, (Htasks eq_refl).
      fold (select_task (default "" (taskId payload)) (default "" (requestId payload)) w).
      rewrite Hselect, Hstatus. reflexivity.
    + intros inserted updated inserted' updated'. cbv zeta.
      destruct (complete_effects inserted updated payload task w)
        as ((message & Hfirst) & _ & _ & _ & Hlog & Hresumed & _).
      destruct (complete_effects inserted' updated' payload task
                  (snd (complete inserted updated payload task w)))
        as (_ & _ & _ & _ & Hlog' & Hresumed' & _).
      split; [| split].
      * exists message. split; [exact Hfirst |].
        unfold N8nCallback.complete. cbv zeta.
        destruct (String.eqb (default "" (status payload)) "success"); reflexivity.
      * rewrite Hresumed', Hresumed, <- app_assoc. reflexivity.
      * rewrite Hlog', Hlog. lia.
Qed.

End Deliveries.

(** Two deliveries of one callback that overlap: both read the task while
    it is in progress, then both write.  Each is answered as having
    completed the task; the request is resumed twice, four events are logged
    and two rows of provider metadata inserted.  Given one after the other,
    the second is answered as already done and nothing is added. *)
Example overlapping_deliveries_apply_twice :
  let check := check (Some "s3cret") toy_hmac toy_parse in
  let complete := complete "2026-01-09T00:00:00Z" true true in
  let POST := POST (Some "s3cret") toy_hmac toy_parse "2026-01-09T00:00:00Z" in
  let payload := mkPayload (Some "r1") (Some "t1") (Some "e1") None (Some "success")
                           (Some (mkResultData (Some "https://cdn/x.mp4") "{}")) None in
  let task := mkTask "t1" "r1" "in_progress" "render" "n8n" None None None None in
  check delivery pending_world = InProgress payload task ∧
  (let first := complete payload task pending_world in
   let second := complete payload task (snd first) in
   fst first = mkResponse 200 (Done "Task completed successfully" "t1") ∧
   fst second = mkResponse 200 (Done "Task completed successfully" "t1") ∧
   resumed (snd second) = ["r1"; "r1"] ∧
   List.length (logged (snd second)) = 4%nat ∧
   List.length (provider_metadata (snd second)) = 2%nat) ∧
  (let first := POST delivery pending_world in
   let second := POST delivery (snd first) in
   fst second =
     mkResponse 200 (AlreadyDone "Task already completed or cancelled" "completed") ∧
   snd second = snd first ∧ resumed (snd second) = ["r1"]).
Proof. vm_compute. repeat split; reflexivity. Qed.

Lemma unauthenticated_request_changes_nothing_witness :
  let forged := mkRequest (Some (toy_hmac "guess1" done_body)) done_body in
  let POST := POST (Some "s3cret") toy_hmac toy_parse "2026-01-09T00:00:00Z" in
  signature_header forged ≠ Some (toy_hmac "s3cret" (rawBody forged)) ∧
  snd (POST forged pending_world) = pending_world.
Proof.
  split; [discriminate |].
  apply (unauthenticated_request_changes_nothing (Some "s3cret") toy_hmac toy_parse
           "2026-01-09T00:00:00Z"
           (mkRequest (Some (toy_hmac "guess1" done_body)) done_body) pending_world).
  intros secret [= <-]. discriminate.
Defined.

End N8nCallbackSpec.

Module ResponseHandlerSpec.
Import ResponseHandler.

Definition answer_text (answer : Answer) : string :=
  match answer with Plain r => r | Structured r _ => r | Nullish => "" end.

Definition answer_option (answer : Answer) : option string :=
  match answer with Structured _ o => o | _ => None end.

(** What [submitResponse] does with a string or an object for a pending
    question. *)
Lemma submitResponse_pending sid qid answer now h pq :
  pendingQuestions h !! makeKey sid qid = Some pq → answer ≠ Nullish →
  submitResponse sid qid answer now h =
  (Returned true,
   mkHandler (delete (makeKey sid qid) (pendingQuestions h)) (defaultTimeout h)
             (delete (timeout pq) (timers h))
             (resolved h ++
              [mkResolution (resolve pq) (BySubmit answer)
                 (mkUserResponse qid (answer_text answer) (answer_option answer)
                    false now)])
             (next h)).
Proof.
  intros Hpq Hanswer. unfold submitResponse. rewrite Hpq.
  destruct answer; [reflexivity | reflexivity | contradiction].
Qed.



















(** An answer that is [undefined] or [null] strands the waiter as well, as
    when a [PUT] request has no [response] in its body: [submitResponse]
    clears the timer and deletes the entry, then throws before it calls
    [resolve], and the route answers 500.  Neither the timer nor a later
    answer resolves the promise. *)
Example nullish_answer_strands_the_waiter :
  let h := step (Wait "s1" "q1" None 0) new in
  let out := submitResponse "s1" "q1" Nullish 40 h in
  PUT (Some (mkPutBody (Some "s1") (Some "q1") Nullish)) 40 h = (500, snd out) ∧
  fst out = TypeError ∧
  resolutions 0 (snd out) = [] ∧
  timers (snd out) = ∅ ∧ pendingQuestions (snd out) = ∅ ∧
  fire 0 120000 (snd out) = snd out ∧
  submitResponse "s1" "q1" (Plain "yes") 50 (snd out) = (Returned false, snd out).
Proof. vm_compute. repeat split; reflexivity. Qed.

(** ** Late answers and cancelled sessions *)

(** An answer counts once.  For a question that is not pending
    [submitResponse] returns [false] and changes nothing, whatever the
    answer.  For a pending question it returns [true] when the answer is a
    string or an object; when the answer is [undefined] or [null] it throws,
    having cleared the timer and deleted the entry, and no resolution is
    fired.  Either way the question is not pending afterwards, so a second
    answer, a cancellation or the question's timer coming due finds nothing
    and changes nothing; no other question is affected.  The [PUT] route does
    the same to the handler and answers 200 whatever [submitResponse]
    returns, and 500 when it throws. *)
Theorem answer_counts_once sid qid answer now h :
  let out := submitResponse sid qid answer now h in
  (hasPending sid qid h = false → out = (Returned false, h)) ∧
  (hasPending sid qid h = true →
     (answer ≠ Nullish → fst out = Returned true) ∧
     (answer = Nullish → fst out = TypeError ∧ resolved (snd out) = resolved h) ∧
     ∀ pq, pendingQuestions h !! makeKey sid qid = Some pq →
           timers (snd out) = delete (timeout pq) (timers h)) ∧
  hasPending sid qid (snd out) = false ∧
  (∀ answer' now', submitResponse sid qid answer' now' (snd out) =
                   (Returned false, snd out)) ∧
  (∀ now', cancel sid qid now' (snd out) = (false, snd out)) ∧
  (∀ pq now', pendingQuestions h !! makeKey sid qid = Some pq →
              fire (timeout pq) now' (snd out) = snd out) ∧
  (∀ key, key ≠ makeKey sid qid →
          pendingQuestions (snd out) !! key = pendingQuestions h !! key) ∧
  (Js.truthy sid = true → Js.truthy qid = true →
   PUT (Some (mkPutBody (Some sid) (Some qid) answer)) now h =
   (match fst out with Returned _ => 200 | TypeError => 500 end, snd out)).
Proof.
  assert (Hput : Js.truthy sid = true → Js.truthy qid = true →
            PUT (Some (mkPutBody (Some sid) (Some qid) answer)) now h =
            (match fst (submitResponse sid qid answer now h) with
             | Returned _ => 200
             | TypeError => 500
             end, snd (submitResponse sid qid answer now h))).
  { intros Hsid Hqid. unfold PUT. cbn [put_sessionId put_questionId put_response].
    rewrite Hsid, Hqid. cbn [andb].
    destruct (submitResponse sid qid answer now h) as [[answered |] h']; reflexivity. }
  cbv zeta. revert Hput. unfold hasPending.
  destruct (pendingQuestions h !! makeKey sid qid) as [pq |] eqn:Hkey; intros Hput.
  - assert (Hafter : pendingQuestions (snd (submitResponse sid qid answer now h)) =
                       delete (makeKey sid qid) (pendingQuestions h) ∧
                     timers (snd (submitResponse sid qid answer now h)) =
                       delete (timeout pq) (timers h)).
    { unfold submitResponse. rewrite Hkey. destruct answer; split; reflexivity. }
    destruct Hafter as [Hpending Htimers]. cbv zeta.
    assert (Hgone : pendingQuestions (snd (submitResponse sid qid answer now h))
                      !! makeKey sid qid = None)
      by (rewrite Hpending; apply lookup_delete_eq).
    split; [intros Habs; apply bool_decide_eq_false in Habs; destruct Habs; eauto |].
    split.
    { intros _. split; [| split].
      - intros Hanswer. rewrite (submitResponse_pending _ _ _ _ _ _ Hkey Hanswer).
        reflexivity.
      - intros ->. unfold submitResponse. rewrite Hkey. split; reflexivity.
      - intros pq' [= <-]. exact Htimers. }
    split; [apply bool_decide_eq_false; rewrite Hgone; intros [? ?]; discriminate |].
    split; [intros answer' now'; unfold submitResponse at 1; rewrite Hgone; reflexivity |].
    split; [intros now'; unfold cancel; rewrite Hgone; reflexivity |].
    split; [| split; [| exact Hput]].
    + intros pq' now' [= <-]. unfold fire. rewrite Htimers, lookup_delete_eq.
      reflexivity.
    + intros key Hne. rewrite Hpending. apply lookup_delete_ne. congruence.
  - assert (Hout : submitResponse sid qid answer now h = (Returned false, h))
      by (unfold submitResponse; rewrite Hkey; reflexivity).
    rewrite Hout in *. cbn [fst snd] in *.
    split; [reflexivity |].
    split; [intros Habs; apply bool_decide_eq_true in Habs as [? ?]; discriminate |].
    split; [apply bool_decide_eq_false; rewrite Hkey; intros [? ?]; discriminate |].
    split; [intros answer' now'; unfold submitResponse; rewrite Hkey; reflexivity |].
    split; [intros now'; unfold cancel; rewrite Hkey; reflexivity |].
    split; [intros pq now' [=] |]. split; [reflexivity | exact Hput].
Qed.

(** The resolution [cancel] fires for a pending question. *)
Definition cancelled (now : Z) (pq : PendingQuestion) : Resolution :=
  mkResolution (resolve pq) ByCancel (mkUserResponse (questionId pq) "" None true now).

Lemma omap_agree {A B : Type} (f g : A → option B) (l : list A) :
  (∀ x, x ∈ l → f x = g x) → omap f l = omap g l.
Proof.
  induction l as [| x l IH]; intros Hfg; [reflexivity |].
  cbn [omap list_omap]. rewrite (Hfg x) by left.
  rewrite IH; [reflexivity |]. intros y Hy. apply Hfg. right. exact Hy.
Qed.

(** Cancelling, one after the other, distinct keys that are all pending. *)
Lemma cancel_keys now keys h :
  NoDup keys → (∀ key, key ∈ keys → is_Some (pendingQuestions h !! key)) →
  let h' := foldl (λ h key, snd (cancel_key key now h)) h keys in
  (∀ key, pendingQuestions h' !! key =
          if decide (key ∈ keys) then None else pendingQuestions h !! key) ∧
  resolved h' =
    resolved h ++ omap (λ key, cancelled now <$> pendingQuestions h !! key) keys.
Proof.
  revert h. induction keys as [| key keys IH]; intros h Hnodup Hpending; cbn [foldl].
  - split; [intros key; reflexivity | simpl; rewrite app_nil_r; reflexivity].
  - apply NoDup_cons in Hnodup as [Hnotin Hnodup].
    destruct (Hpending key ltac:(left)) as [pq Hpq].
    assert (Hstep : snd (cancel_key key now h) =
              mkHandler (delete key (pendingQuestions h)) (defaultTimeout h)
                        (delete (timeout pq) (timers h))
                        (resolved h ++ [cancelled now pq]) (next h)).
    { unfold cancel_key. rewrite Hpq. reflexivity. }
    rewrite Hstep.
    destruct (IH (mkHandler (delete key (pendingQuestions h)) (defaultTimeout h)
                            (delete (timeout pq) (timers h))
                            (resolved h ++ [cancelled now pq]) (next h)) Hnodup)
      as [Hlookup Hresolved].
    { intros key' Hin. cbn [pendingQuestions].
      rewrite lookup_delete_ne by (intros ->; contradiction).
      apply Hpending. right. exact Hin. }
    cbv zeta. split.
    + intros key'. rewrite Hlookup. cbn [pendingQuestions].
      destruct (decide (key' ∈ keys)) as [Hin | Hout].
      * rewrite decide_True by (right; exact Hin). reflexivity.
      * destruct (decide (key' = key)) as [-> | Hne].
        -- rewrite lookup_delete_eq, decide_True by left. reflexivity.
        -- rewrite lookup_delete_ne by congruence.
           rewrite decide_False; [reflexivity |].
           intros Hin. apply elem_of_cons in Hin as [? | ?]; contradiction.
    + rewrite Hresolved. cbn [resolved omap list_omap]. rewrite Hpq. cbn [fmap option_fmap option_map].
      rewrite <- app_assoc. cbn [app]. do 2 f_equal.
      apply omap_agree. intros key' Hin. cbn [pendingQuestions].
      rewrite lookup_delete_ne by (intros ->; contradiction). reflexivity.
Qed.

(** [cancelSession] cancels the pending questions of the session and no
    other: it returns how many there were; afterwards the pending questions
    are those of the other sessions; the promise of each cancelled question
    is resolved with the empty answer and [timedOut = true]; and the number
    of resolutions fired is the number returned. *)
Theorem cancelSession_cancels_the_session sid now h :
  let out := cancelSession sid now h in
  fst out = size (filter (λ kv, sessionId kv.2 = sid) (pendingQuestions h)) ∧
  pendingQuestions (snd out) =
    filter (λ kv, sessionId kv.2 ≠ sid) (pendingQuestions h) ∧
  (getPendingCount (snd out) + fst out = getPendingCount h)%nat ∧
  List.length (resolved (snd out)) = (List.length (resolved h) + fst out)%nat ∧
  (∀ r, r ∈ resolved (snd out) ↔
        r ∈ resolved h ∨
        ∃ key pq, pendingQuestions h !! key = Some pq ∧ sessionId pq = sid ∧
                  r = cancelled now pq).
Proof.
  unfold cancelSession. cbn [fst snd].
  set (keys := (map_to_list (filter (λ kv, sessionId kv.2 = sid) (pendingQuestions h))).*1).
  assert (Hkeys : ∀ key, key ∈ keys ↔
            ∃ pq, pendingQuestions h !! key = Some pq ∧ sessionId pq = sid).
  { intros key. unfold keys. rewrite list_elem_of_fmap. split.
    - intros ([k pq] & -> & Hin). apply elem_of_map_to_list in Hin.
      apply map_lookup_filter_Some in Hin. eauto.
    - intros (pq & Hpq & Hsid). exists (key, pq). split; [reflexivity |].
      apply elem_of_map_to_list, map_lookup_filter_Some. auto. }
  assert (Hlen : List.length keys =
            size (filter (λ kv, sessionId kv.2 = sid) (pendingQuestions h))).
  { unfold keys. rewrite length_fmap. apply length_map_to_list. }
  destruct (cancel_keys now keys h) as [Hlookup Hresolved].
  { apply NoDup_fst_map_to_list. }
  { intros key Hin. apply Hkeys in Hin as (pq & Hpq & _). eauto. }
  assert (Hpending : pendingQuestions (foldl (λ h key, snd (cancel_key key now h)) h keys) =
            filter (λ kv, sessionId kv.2 ≠ sid) (pendingQuestions h)).
  { apply map_eq. intros key. rewrite Hlookup. symmetry.
    destruct (decide (key ∈ keys)) as [Hin | Hout].
    - apply Hkeys in Hin as (pq & Hpq & Hsid).
      apply map_lookup_filter_None. right. intros pq' Hpq'. simpl. congruence.
    - destruct (pendingQuestions h !! key) as [pq |] eqn:Hpq.
      + apply map_lookup_filter_Some. split; [exact Hpq |]. simpl.
        intros Hsid. apply Hout, Hkeys. eauto.
      + apply map_lookup_filter_None. left. exact Hpq. }
  assert (Homap : omap (λ key, cancelled now <$> pendingQuestions h !! key) keys =
            map (λ kv, cancelled now kv.2)
                (map_to_list (filter (λ kv, sessionId kv.2 = sid) (pendingQuestions h)))).
  { unfold keys.
    assert (Hall : ∀ kv, kv ∈ map_to_list (filter (λ kv, sessionId kv.2 = sid)
                                              (pendingQuestions h)) →
              pendingQuestions h !! kv.1 = Some kv.2).
    { intros [k pq] Hin. apply elem_of_map_to_list, map_lookup_filter_Some in Hin.
      apply Hin. }
    revert Hall. generalize (map_to_list (filter (λ kv, sessionId kv.2 = sid)
                                            (pendingQuestions h))).
    induction l as [| kv l IH]; intros Hall; [reflexivity |].
    cbn [fmap list_fmap omap list_omap map]. rewrite (Hall kv) by left.
    cbn [fmap option_fmap option_map]. f_equal. apply IH.
    intros kv' Hin. apply Hall. right. exact Hin. }
  split; [exact Hlen |]. split; [exact Hpending |]. split; [| split].
  - unfold getPendingCount. rewrite Hpending, Hlen.
    rewrite <- (map_filter_union_complement (λ kv, sessionId kv.2 = sid)
                  (pendingQuestions h)) at 3.
    rewrite map_size_disj_union by apply map_disjoint_filter_complement. lia.
  - rewrite Hresolved, length_app, Homap, length_map, length_map_to_list, Hlen.
    reflexivity.
  - intros r. rewrite Hresolved, elem_of_app, Homap, list_elem_of_fmap. split.
    + intros [Hold | ([k pq] & -> & Hin)]; [left; exact Hold | right].
      apply elem_of_map_to_list, map_lookup_filter_Some in Hin as [Hpq Hsid].
      exists k, pq. auto.
    + intros [Hold | (key & pq & Hpq & Hsid & ->)]; [left; exact Hold | right].
      exists (key, pq). split; [reflexivity |].
      apply elem_of_map_to_list, map_lookup_filter_Some. auto.
Qed.

End ResponseHandlerSpec.

Module MemorySandboxSpec.
Import MemorySandbox.

(** ** Paths *)

Definition no_backslash (s : string) : bool :=
  Js.all_chars (λ c, negb (Ascii.eqb c "\")) s.

Lemma slashes_no_backslash s : no_backslash (slashes s) = true.
Proof.
  induction s as [| c s IH]; [reflexivity |].
  cbn [slashes no_backslash Js.all_chars]. fold (no_backslash (slashes s)). rewrite IH.
  destruct (Ascii.eqb c "\") eqn:Hc; [reflexivity | rewrite Hc; reflexivity].
Qed.

Lemma no_backslash_cons c s :
  no_backslash (String c s) = true → Ascii.eqb c "\" = false ∧ no_backslash s = true.
Proof.
  unfold no_backslash. cbn [Js.all_chars]. intros H. apply andb_prop in H as [Hc Hs].
  apply negb_true_iff in Hc. auto.
Qed.

Lemma tidy_collapse b s : no_backslash s = true → tidy b (collapse_from b s) = true.
Proof.
  revert b. induction s as [| c s IH]; intros b H; [reflexivity |].
  apply no_backslash_cons in H as [Hc Hs]. cbn [collapse_from].
  destruct (Ascii.eqb c "/") eqn:Hslash.
  - destruct b; [apply IH, Hs |]. cbn [tidy]. change (Ascii.eqb "/" "\") with false.
    change (Ascii.eqb "/" "/") with true. cbn [negb andb]. apply IH, Hs.
  - cbn [tidy]. rewrite Hc, Hslash. apply IH, Hs.
Qed.

Lemma tidy_strip s :
  no_backslash s = true → tidy true (collapse_from false (strip_leading s)) = true.
Proof.
  induction s as [| c s IH]; intros H; [reflexivity |].
  apply no_backslash_cons in H as [Hc Hs]. cbn [strip_leading].
  destruct (Ascii.eqb c "/") eqn:Hslash; [apply IH, Hs |].
  cbn [collapse_from]. rewrite Hslash. cbn [tidy]. rewrite Hc, Hslash.
  apply tidy_collapse, Hs.
Qed.

Lemma normalizePath_normal path : normal (normalizePath path) = true.
Proof. apply tidy_strip, slashes_no_backslash. Qed.

Lemma tidy_fixed b s : tidy b s = true → slashes s = s ∧ collapse_from b s = s.
Proof.
  revert b. induction s as [| c s IH]; intros b; [auto |].
  cbn [tidy slashes collapse_from].
  destruct (Ascii.eqb c "\") eqn:Hc; [discriminate |].
  destruct (Ascii.eqb c "/") eqn:Hslash.
  - intros H. apply andb_prop in H as [Hb Ht]. destruct b; [discriminate |].
    destruct (IH true Ht) as [-> ->]. apply Ascii.eqb_eq in Hslash as ->. auto.
  - intros Ht. destruct (IH false Ht) as [-> ->]. auto.
Qed.

Lemma tidy_weaken s : tidy true s = true → tidy false s = true.
Proof.
  destruct s as [| c s]; [auto |]. cbn [tidy].
  destruct (Ascii.eqb c "\"); [auto |]. destruct (Ascii.eqb c "/"); [discriminate | auto].
Qed.

Lemma normal_fixed path : normal path = true → normalizePath path = path.
Proof.
  unfold normal, normalizePath, collapse. intros H.
  destruct (tidy_fixed true path H) as [-> _].
  assert (Hstrip : strip_leading path = path).
  { destruct path as [| c s]; [reflexivity |]. cbn [tidy strip_leading] in *.
    destruct (Ascii.eqb c "\"); [discriminate |].
    destruct (Ascii.eqb c "/"); [discriminate | reflexivity]. }
  rewrite Hstrip. apply (tidy_fixed false), tidy_weaken, H.
Qed.

(** [normalizePath] puts a path in normal form: the result has no
    backslash, no slash at the start and no two slashes in a row;
    normalising it again changes nothing; and the paths it leaves as they
    are, are exactly those already of that form. *)
Theorem normalizePath_gives_normal_form path :
  normal (normalizePath path) = true ∧
  normalizePath (normalizePath path) = normalizePath path ∧
  (normalizePath path = path ↔ normal path = true).
Proof.
  split; [apply normalizePath_normal |].
  split; [apply normal_fixed, normalizePath_normal |].
  split; [intros <-; apply normalizePath_normal | apply normal_fixed].
Qed.

(** ** Files *)

(** Files are kept under their normalised path: what is written under one
    spelling of a path is read, found and deleted under every spelling with
    the same normal form, and under no other; reading a file that is not
    there throws [File not found] with the path as given. *)
Theorem files_are_keyed_by_normal_form path path' content s :
  readFile path (writeFile path' content s) =
    (if decide (normalizePath path = normalizePath path') then inr content
     else readFile path s) ∧
  fileExists path (writeFile path' content s) =
    (if decide (normalizePath path = normalizePath path') then true
     else fileExists path s) ∧
  fst (deleteFile path' s) = fileExists path' s ∧
  readFile path (snd (deleteFile path' s)) =
    (if decide (normalizePath path = normalizePath path')
     then inl ("File not found: " +:+ path) else readFile path s) ∧
  deleteFile path' (snd (deleteFile path' s)) = (false, snd (deleteFile path' s)).
Proof.
  unfold readFile, fileExists, writeFile, deleteFile. cbn [files emit].
  split; [| split; [| split; [| split]]].
  - destruct (decide (normalizePath path = normalizePath path')) as [-> | Hne].
    + rewrite lookup_insert_eq. reflexivity.
    + rewrite lookup_insert_ne by congruence. reflexivity.
  - destruct (decide (normalizePath path = normalizePath path')) as [-> | Hne].
    + rewrite lookup_insert_eq. apply bool_decide_eq_true. eauto.
    + rewrite lookup_insert_ne by congruence. reflexivity.
  - destruct (files s !! normalizePath path') eqn:Hl; cbn [fst].
    + symmetry. apply bool_decide_eq_true. eauto.
    + symmetry. apply bool_decide_eq_false. intros [? ?]. discriminate.
  - destruct (files s !! normalizePath path') eqn:Hl; cbn [snd files emit].
    + destruct (decide (normalizePath path = normalizePath path')) as [-> | Hne].
      * rewrite lookup_delete_eq. reflexivity.
      * rewrite lookup_delete_ne by congruence. reflexivity.
    + destruct (decide (normalizePath path = normalizePath path')) as [-> | Hne];
        [rewrite Hl |]; reflexivity.
  - destruct (files s !! normalizePath path') eqn:Hl; cbn [snd files emit].
    + rewrite lookup_delete_eq. reflexivity.
    + rewrite Hl. reflexivity.
Qed.

(** Every file name, in the sandbox and in its snapshots, is in normal
    form. *)
Definition tidy_keys (m : gmap string string) : Prop :=
  ∀ key, is_Some (m !! key) → normal key = true.

Definition well_keyed (s : Sandbox) : Prop :=
  tidy_keys (files s) ∧ Forall (λ snapshot, tidy_keys (snap_files snapshot)) (snapshots s).

Lemma step_well_keyed op s : well_keyed s → well_keyed (step op s).
Proof.
  intros [Hfiles Hsnaps].
  destruct op as [path content | path | id now metadata | snapshotId |]; cbn [step].
  - split; [| exact Hsnaps]. intros key. unfold writeFile. cbn [files emit].
    destruct (decide (key = normalizePath path)) as [-> | Hne].
    + intros _. apply normalizePath_normal.
    + rewrite lookup_insert_ne by congruence. apply Hfiles.
  - unfold deleteFile. destruct (files s !! normalizePath path);
      [| split; assumption].
    split; [| exact Hsnaps]. intros key. cbn [snd files emit].
    intros [content Hl]. apply lookup_delete_Some in Hl as [_ Hl]. apply Hfiles. eauto.
  - split; [exact Hfiles |]. cbn [createSnapshot snd snapshots emit].
    apply Forall_drop, Forall_app. split; [exact Hsnaps |].
    constructor; [exact Hfiles | constructor].
  - unfold restoreSnapshot.
    destruct (List.find _ (snapshots s)) as [snapshot |] eqn:Hfind;
      [| split; assumption].
    split; [| exact Hsnaps]. cbn [snd files emit].
    apply find_some in Hfind as [Hin _]. apply list_elem_of_In in Hin.
    rewrite Forall_forall in Hsnaps. apply Hsnaps, Hin.
  - split; [| exact Hsnaps]. intros key [content Hl]. cbn [clear files] in Hl.
    rewrite lookup_empty in Hl. discriminate.
Qed.

Lemma run_well_keyed ops s : well_keyed s → well_keyed (run ops s).
Proof.
  revert s. induction ops as [| op ops IH]; intros s Hs; [exact Hs |].
  apply IH, step_well_keyed, Hs.
Qed.

(** In a sandbox that started empty, [writeFile] reports [FILE_UPDATED]
    only when the file exists and the path is given in normal form;
    overwriting a file through any other spelling of its path is reported
    as [FILE_CREATED].  The event carries the path as given. *)
Theorem overwrite_is_reported_for_normal_paths_only ops path content :
  let s := run ops (new None) in
  events (writeFile path content s) =
  events s ++
  [(if fileExists path s && normal path then FILE_UPDATED else FILE_CREATED)
     path (String.length content) (List.length (Js.split "010" content))].
Proof.
  intros s.
  assert (Hkeys : well_keyed s).
  { apply run_well_keyed. split; [| constructor].
    intros key [content' Hl]. cbn in Hl. rewrite lookup_empty in Hl. discriminate. }
  unfold writeFile. cbn [events emit]. do 3 f_equal.
  unfold fileExists. destruct (normal path) eqn:Hnormal.
  - rewrite (normal_fixed path Hnormal), andb_true_r. reflexivity.
  - rewrite andb_false_r. rewrite bool_decide_eq_false_2; [reflexivity |].
    intros Hsome. apply (proj1 Hkeys) in Hsome. congruence.
Qed.

(** ** Snapshots *)

Definition other_id (id : string) (snapshot : SandboxSnapshot) : Prop :=
  snap_id snapshot ≠ id.

(** Where the snapshot taken under [id] is after [later] more snapshots:
    still in the list, behind it exactly the later ones, as long as there are
    fewer than five of them; gone afterwards. *)
Definition kept (id : string) (snapshot : SandboxSnapshot) (later : nat)
    (l : list SandboxSnapshot) : Prop :=
  (List.length l ≤ 5)%nat ∧
  if (later <? 5)%nat
  then ∃ older newer, l = older ++ snapshot :: newer ∧ List.length newer = later ∧
                      Forall (other_id id) older ∧ Forall (other_id id) newer
  else Forall (other_id id) l.

Lemma push_kept id snapshot later l pushed :
  kept id snapshot later l → other_id id pushed →
  kept id snapshot (S later)
       (drop (List.length (l ++ [pushed]) - maxSnapshots) (l ++ [pushed])).
Proof.
  intros [Hlen Hcase] Hnew. unfold maxSnapshots.
  assert (Hpushed : List.length (l ++ [pushed]) = S (List.length l))
    by (rewrite length_app; simpl; lia).
  split; [rewrite length_drop, Hpushed; lia |].
  destruct (Nat.ltb_spec later 5) as [Hlater | Hlater].
  - destruct Hcase as (older & newer & Hl & Hnewer & Holder & Hfresh).
    assert (Hsize : List.length l = (List.length older + S later)%nat)
      by (rewrite Hl, length_app; simpl; lia).
    assert (Hgrown : List.length (newer ++ [pushed]) = S later)
      by (rewrite length_app; simpl; lia).
    assert (Hnewer' : Forall (other_id id) (newer ++ [pushed]))
      by (apply Forall_app; auto).
    destruct (decide (List.length l ≤ 4)%nat) as [Hroom | Hfull].
    + replace (List.length (l ++ [pushed]) - 5)%nat with 0%nat by lia. rewrite drop_0.
      destruct (Nat.ltb_spec (S later) 5); [| lia].
      exists older, (newer ++ [pushed]). rewrite Hl, <- app_assoc. auto.
    + replace (List.length (l ++ [pushed]) - 5)%nat with 1%nat by lia.
      destruct older as [| oldest older]; cbn [List.length] in Hsize.
      * destruct (Nat.ltb_spec (S later) 5); [lia |].
        rewrite Hl. cbn [app drop]. exact Hnewer'.
      * destruct (Nat.ltb_spec (S later) 5); [| lia].
        exists older, (newer ++ [pushed]). rewrite Hl. cbn [app drop].
        rewrite <- app_assoc. apply Forall_cons in Holder as [_ Holder]. auto.
  - destruct (Nat.ltb_spec (S later) 5) as [Hnext | Hnext]; [lia |].
    apply Forall_drop, Forall_app. auto.
Qed.

Lemma step_snapshots op s :
  snapshots (step op s) =
  match op with
  | CreateSnapshot id now metadata =>
      drop (List.length (snapshots s ++ [mkSnapshot id now (files s) metadata])
            - maxSnapshots)
           (snapshots s ++ [mkSnapshot id now (files s) metadata])
  | _ => snapshots s
  end.
Proof.
  destruct op as [path content | path | id now metadata | snapshotId |]; cbn [step];
    try reflexivity.
  - unfold deleteFile. destruct (files s !! normalizePath path); reflexivity.
  - unfold restoreSnapshot. destruct (List.find _ (snapshots s)); reflexivity.
Qed.

Lemma run_kept id snapshot ops s later :
  kept id snapshot later (snapshots s) → id ∉ created_ids ops →
  kept id snapshot (later + creates ops) (snapshots (run ops s)).
Proof.
  revert s later. induction ops as [| op ops IH]; intros s later Hkept Hfresh.
  - unfold creates. cbn. rewrite Nat.add_0_r. exact Hkept.
  - change (run (op :: ops) s) with (run ops (step op s)).
    pose proof (step_snapshots op s) as Hstep.
    destruct op as [path content | path | id' now metadata | snapshotId |];
      try (apply IH; [rewrite Hstep; exact Hkept | exact Hfresh]).
    cbn [created_ids] in Hfresh. apply not_elem_of_cons in Hfresh as [Hne Hfresh].
    replace (later + creates (CreateSnapshot id' now metadata :: ops))%nat
      with (S later + creates ops)%nat by (unfold creates; cbn; lia).
    apply IH; [| exact Hfresh]. rewrite Hstep. apply push_kept; [exact Hkept |].
    unfold other_id. cbn. congruence.
Qed.

Lemma find_other_ids id (l : list SandboxSnapshot) rest :
  Forall (other_id id) l →
  List.find (λ snapshot, String.eqb (snap_id snapshot) id) (l ++ rest) =
  List.find (λ snapshot, String.eqb (snap_id snapshot) id) rest.
Proof.
  induction 1 as [| snapshot l Hother _ IH]; [reflexivity |].
  cbn. destruct (String.eqb_spec (snap_id snapshot) id); [contradiction | exact IH].
Qed.

(** A snapshot taken under an id that no other snapshot has can be
    restored, giving back exactly the files of the moment it was taken,
    after any writes, deletes, restores and fewer than five later snapshots;
    once five later snapshots have been taken it is gone and restoring it
    returns [false] and changes nothing.  The sandbox never keeps more than
    five snapshots. *)
Theorem snapshot_outlives_four_later_ones id now metadata ops s :
  Forall (other_id id) (snapshots s) → id ∉ created_ids ops →
  let s' := run ops (snd (createSnapshot id now metadata s)) in
  (List.length (snapshots s') ≤ 5)%nat ∧
  if (creates ops <? 5)%nat
  then fst (restoreSnapshot id s') = true ∧ files (snd (restoreSnapshot id s')) = files s
  else restoreSnapshot id s' = (false, s').
Proof.
  intros Hothers Hfresh s'.
  assert (Hstart : kept id (mkSnapshot id now (files s) metadata) 0
                        (snapshots (snd (createSnapshot id now metadata s)))).
  { cbn [createSnapshot snd snapshots emit]. unfold maxSnapshots. split.
    - rewrite length_drop, length_app. simpl. lia.
    - cbn. exists (drop (List.length (snapshots s ++ [mkSnapshot id now (files s) metadata]) - 5)
                        (snapshots s)), [].
      split; [| split; [reflexivity | split; [apply Forall_drop, Hothers | constructor]]].
      apply drop_app_le. rewrite length_app. simpl. lia. }
  pose proof (run_kept id _ ops _ 0 Hstart Hfresh) as [Hlen Hcase].
  fold s' in Hlen, Hcase. cbn [Nat.add] in Hcase.
  split; [exact Hlen |].
  unfold restoreSnapshot.
  destruct (creates ops <? 5)%nat.
  - destruct Hcase as (older & newer & -> & _ & Holder & _).
    rewrite find_other_ids by exact Holder. cbn. rewrite String.eqb_refl. auto.
  - assert (Hnone : List.find (λ snapshot, String.eqb (snap_id snapshot) id)
                              (snapshots s') = None).
    { rewrite <- (app_nil_r (snapshots s')). rewrite find_other_ids by exact Hcase.
      reflexivity. }
    rewrite Hnone. reflexivity.
Qed.

Lemma snapshot_outlives_four_later_ones_witness :
  let ops := [WriteFile "/src//app.ts" "v2"; CreateSnapshot "s2" 20 None;
              DeleteFile "src/app.ts"; CreateSnapshot "s3" 30 None] in
  let s := writeFile "src/app.ts" "v1" (new None) in
  let s' := run ops (snd (createSnapshot "s1" 10 None s)) in
  Forall (other_id "s1") (snapshots s) ∧ ("s1" ∉ created_ids ops) ∧
  readFile "src/app.ts" s' = inl "File not found: src/app.ts" ∧
  readFile "src/app.ts" (snd (restoreSnapshot "s1" s')) = inr "v1".
Proof.
  assert (Hothers : Forall (other_id "s1")
                      (snapshots (writeFile "src/app.ts" "v1" (new None))))
    by constructor.
  assert (Hfresh : "s1" ∉ created_ids
                     [WriteFile "/src//app.ts" "v2"; CreateSnapshot "s2" 20 None;
                      DeleteFile "src/app.ts"; CreateSnapshot "s3" 30 None]).
  { cbn. rewrite !not_elem_of_cons. repeat split; try discriminate. apply not_elem_of_nil. }
  split; [exact Hothers |]. split; [exact Hfresh |]. split; [vm_compute; reflexivity |].
  pose proof (snapshot_outlives_four_later_ones "s1" 10 None _ _ Hothers Hfresh)
    as Hthm.
  cbv zeta in Hthm. destruct Hthm as [_ Hrestore].
  change (creates _ <? 5)%nat with true in Hrestore. destruct Hrestore as [_ Hfiles].
  unfold readFile. rewrite Hfiles. vm_compute. reflexivity.
Defined.

End MemorySandboxSpec.

Module SessionManagerSpec.
Import SessionManager.

(** The loop of [cleanup] over a list of entries with distinct keys. *)
Definition sweep (now : Z) (m : gmap string Session) (entries : list (string * Session))
    : gmap string Session :=
  foldl (λ m entry,
           if too_old now (snd entry) then delete (fst entry) m
           else if finished_and_idle now (snd entry) then delete (fst entry) m
           else m) m entries.

Definition due (now : Z) (session : Session) : bool :=
  too_old now session || finished_and_idle now session.

Lemma sweep_lookup now (entries : list (string * Session)) (m : gmap string Session) key :
  NoDup entries.*1 →
  (∀ session, (key, session) ∈ entries → due now session = true →
              sweep now m entries !! key = None) ∧
  ((∀ session, (key, session) ∈ entries → due now session = false) →
   sweep now m entries !! key = m !! key).
Proof.
  revert m. induction entries as [| [k session] entries IH]; intros m Hnodup.
  - split; [intros session Hin; inversion Hin | reflexivity].
  - cbn [fmap list_fmap fst] in Hnodup. apply NoDup_cons in Hnodup as [Hnotin Hnodup].
    unfold sweep. cbn [foldl fst snd].
    assert (Hstep : (if too_old now session then delete k m
                     else if finished_and_idle now session then delete k m else m) =
                    if due now session then delete k m else m).
    { unfold due. destruct (too_old now session), (finished_and_idle now session);
        reflexivity. }
    rewrite Hstep. fold (sweep now (if due now session then delete k m else m) entries).
    destruct (IH (if due now session then delete k m else m) Hnodup) as [Hgone Hkept].
    split.
    + intros session' Hin Hdue. apply elem_of_cons in Hin as [[= <- <-] | Hin];
        [| eapply Hgone; eauto].
      rewrite Hkept.
      * rewrite Hdue. apply lookup_delete_eq.
      * intros other Hin. destruct Hnotin.
        apply list_elem_of_fmap. exists (key, other). auto.
    + intros Hnone. rewrite Hkept.
      * destruct (decide (key = k)) as [-> | Hne].
        -- rewrite (Hnone session) by left. reflexivity.
        -- destruct (due now session); [apply lookup_delete_ne; congruence | reflexivity].
      * intros session' Hin. apply Hnone. right. exact Hin.
Qed.

(** A cleanup removes exactly the sessions that are more than an hour old
    and the completed or failed ones that have been idle for more than five
    minutes, whatever the order in which the map is visited; every other
    session is kept as it is.  So an active or an aborted session survives
    every cleanup of its first hour, however long it has been idle, and no
    session survives a cleanup after its first hour, however recently it was
    touched. *)
Theorem cleanup_keeps_young_and_unfinished now mgr sessionId :
  get sessionId (cleanup now mgr) =
    match get sessionId mgr with
    | Some session =>
        if too_old now session || finished_and_idle now session then None
        else Some session
    | None => None
    end ∧
  (∀ session, get sessionId mgr = Some session →
     (status session = active ∨ status session = aborted) →
     now - createdAt session ≤ 3600000 →
     get sessionId (cleanup now mgr) = Some session) ∧
  (∀ session, get sessionId mgr = Some session →
     3600000 < now - createdAt session →
     get sessionId (cleanup now mgr) = None).
Proof.
  assert (Hget : get sessionId (cleanup now mgr) =
            match get sessionId mgr with
            | Some session =>
                if too_old now session || finished_and_idle now session then None
                else Some session
            | None => None
            end).
  { unfold get, cleanup. cbn [sessions with_sessions].
    fold (sweep now (sessions mgr) (map_to_list (sessions mgr))). fold (due now).
    destruct (sweep_lookup now (map_to_list (sessions mgr)) (sessions mgr) sessionId
                (NoDup_fst_map_to_list _)) as [Hgone Hkept].
    destruct (sessions mgr !! sessionId) as [session |] eqn:Hl.
    - fold (due now session). destruct (due now session) eqn:Hdue.
      + apply (Hgone session); [apply elem_of_map_to_list, Hl | exact Hdue].
      + rewrite Hkept; [reflexivity |].
        intros session' Hin. apply elem_of_map_to_list in Hin.
        replace session' with session by congruence. exact Hdue.
    - rewrite Hkept; [reflexivity |].
      intros session' Hin. apply elem_of_map_to_list in Hin. congruence. }
  split; [exact Hget |]. split.
  - intros session Hl Hstatus Hage. rewrite Hget, Hl.
    unfold too_old, finished_and_idle, maxSessionAge.
    destruct (Z.gtb_spec (now - createdAt session) 3600000); [lia |].
    destruct Hstatus as [-> | ->]; reflexivity.
  - intros session Hl Hage. rewrite Hget, Hl.
    unfold too_old, maxSessionAge.
    destruct (Z.gtb_spec (now - createdAt session) 3600000); [reflexivity | lia].
Qed.

Definition counts (session : Session) (count : nat) : nat :=
  match status session with active => S count | _ => count end.

Lemma counts_comm (s1 s2 : Session) (count : nat) :
  counts s1 (counts s2 count) = counts s2 (counts s1 count).
Proof. unfold counts. destruct (status s1), (status s2); reflexivity. Qed.

(** The active count of a map with one session replaced. *)
Lemma active_count_insert sessionId session (m : gmap string Session) :
  map_fold (λ _, counts) 0%nat (<[sessionId := session]> m) =
  counts session (map_fold (λ _, counts) 0%nat (delete sessionId m)).
Proof.
  rewrite <- insert_delete_eq.
  apply (map_fold_insert_L (λ _, counts)); [| apply lookup_delete_eq].
  intros. apply counts_comm.
Qed.

Lemma active_count_lookup sessionId session (m : gmap string Session) :
  m !! sessionId = Some session →
  map_fold (λ _, counts) 0%nat m =
  counts session (map_fold (λ _, counts) 0%nat (delete sessionId m)).
Proof.
  intros Hl. rewrite <- (insert_id m sessionId session Hl) at 1.
  apply active_count_insert.
Qed.

(** [abort] succeeds exactly on an active session, and once: it returns
    [true] when the session exists and is active and marks it aborted, which
    takes one off the active count; in every other case, a second abort
    included, it returns [false] and changes nothing.  No other session is
    touched.  A later [unregister] turns the aborted session into a completed
    one. *)
Theorem abort_succeeds_once sessionId mgr :
  let out := abort sessionId mgr in
  (fst out = true ↔ ∃ session, get sessionId mgr = Some session ∧ status session = active) ∧
  (fst out = true → status <$> get sessionId (snd out) = Some aborted) ∧
  (fst out = false → snd out = mgr) ∧
  abort sessionId (snd out) = (false, snd out) ∧
  (getActiveCount (snd out) + (if fst out then 1 else 0) = getActiveCount mgr)%nat ∧
  (∀ other, other ≠ sessionId → get other (snd out) = get other mgr) ∧
  (fst out = true →
   status <$> get sessionId (unregister sessionId (snd out)) = Some completed).
Proof.
  unfold abort, get, unregister, getActiveCount.
  change (λ (_ : string) (session : Session) (count : nat),
            match status session with active => S count | _ => count end)
    with (λ _ : string, counts).
  destruct (sessions mgr !! sessionId) as [session |] eqn:Hl.
  - destruct (status session) eqn:Hstatus; cbn [fst snd sessions with_sessions].
    + rewrite !lookup_insert_eq. cbn.
      split; [split; eauto |]. split; [reflexivity |]. split; [discriminate |].
      split; [reflexivity |]. split.
      * rewrite active_count_insert, (active_count_lookup _ _ _ Hl).
        unfold counts. cbn. rewrite Hstatus. lia.
      * split; [| intros _; rewrite lookup_alter_eq, lookup_insert_eq; reflexivity].
        intros other Hne. rewrite lookup_insert_ne by congruence. reflexivity.
    + rewrite !Hl, !Hstatus. cbn.
      split; [split; [discriminate | intros (? & [= <-] & ?); congruence] |].
      repeat split; try discriminate; lia.
    + rewrite !Hl, !Hstatus. cbn.
      split; [split; [discriminate | intros (? & [= <-] & ?); congruence] |].
      repeat split; try discriminate; lia.
    + rewrite !Hl, !Hstatus. cbn.
      split; [split; [discriminate | intros (? & [= <-] & ?); congruence] |].
      repeat split; try discriminate; lia.
  - cbn [fst snd]. rewrite !Hl.
    split; [split; [discriminate | intros (? & [=] & ?)] |].
    repeat split; try discriminate; lia.
Qed.

End SessionManagerSpec.

Module MemoryStoreSpec.
Import MemoryStore.

(** Every key is the id of its entry, and no key occurs twice. *)
Definition well_formed (l : list (string * MemoryEntry)) : Prop :=
  NoDup l.*1 ∧ Forall (λ kv, fst kv = id (snd kv)) l.

Lemma less_used_spec a b :
  less_used a b = true ↔
  accessCount a < accessCount b ∨
  accessCount a = accessCount b ∧ lastAccessedAt a < lastAccessedAt b.
Proof.
  unfold less_used.
  destruct (Z.ltb_spec (accessCount a) (accessCount b)),
           (Z.eqb_spec (accessCount a) (accessCount b)),
           (Z.ltb_spec (lastAccessedAt a) (lastAccessedAt b)); simpl;
    split; intros; try discriminate; try reflexivity; try lia; auto.
Qed.

Lemma not_less_used a b :
  less_used a b = false ↔
  accessCount b < accessCount a ∨
  accessCount a = accessCount b ∧ lastAccessedAt b ≤ lastAccessedAt a.
Proof.
  rewrite <- not_true_iff_false, less_used_spec. lia.
Qed.

(** The loop of [evictLeastUsed] from a candidate already found. *)
Lemma least_from candidate (l : list (string * MemoryEntry)) :
  ∃ least,
    foldl (λ least kv,
             match least with
             | None => Some (snd kv)
             | Some least' =>
                 if less_used (snd kv) least' then Some (snd kv) else Some least'
             end) (Some candidate) l = Some least ∧
    (least = candidate ∨ ∃ key, (key, least) ∈ l) ∧
    less_used candidate least = false ∧
    ∀ key entry, (key, entry) ∈ l → less_used entry least = false.
Proof.
  revert candidate. induction l as [| [k e] l IH]; intros candidate; cbn [foldl snd].
  - exists candidate. split; [reflexivity |]. split; [auto |].
    split; [apply not_less_used; lia |]. intros key entry Hin. inversion Hin.
  - destruct (less_used e candidate) eqn:Hless.
    + destruct (IH e) as (least & Hfold & Hin & Hself & Hall).
      exists least. split; [exact Hfold |]. split.
      * right. destruct Hin as [-> | [key Hin]]; [exists k; left | exists key; right; exact Hin].
      * apply less_used_spec in Hless. apply not_less_used in Hself.
        split; [apply not_less_used; lia |].
        intros key entry Hentry. apply elem_of_cons in Hentry as [[= -> ->] | Hentry];
          [exact (proj2 (not_less_used _ _) Hself) | eapply Hall, Hentry].
    + destruct (IH candidate) as (least & Hfold & Hin & Hself & Hall).
      exists least. split; [exact Hfold |]. split.
      * destruct Hin as [-> | [key Hin]]; [left; reflexivity | right; exists key; right; exact Hin].
      * split; [exact Hself |].
        intros key entry Hentry. apply elem_of_cons in Hentry as [[= -> ->] | Hentry];
          [| eapply Hall, Hentry].
        apply not_less_used in Hless. apply not_less_used in Hself.
        apply not_less_used. lia.
Qed.

(** In a map that is not empty the loop finds an entry of the map than
    which none is less used. *)
Lemma leastUsed_spec (l : list (string * MemoryEntry)) :
  l ≠ [] →
  ∃ least key, leastUsed l = Some least ∧ (key, least) ∈ l ∧
               ∀ key' entry, (key', entry) ∈ l → less_used entry least = false.
Proof.
  destruct l as [| [k e] l]; [contradiction |]. intros _.
  unfold leastUsed. cbn [foldl snd].
  destruct (least_from e l) as (least & Hfold & Hin & Hself & Hall).
  exists least. destruct Hin as [-> | [key Hin]].
  - exists k. split; [exact Hfold |]. split; [left |].
    intros key' entry Hentry. apply elem_of_cons in Hentry as [[= -> ->] | Hentry];
      [exact Hself | eapply Hall, Hentry].
  - exists key. split; [exact Hfold |]. split; [right; exact Hin |].
    intros key' entry Hentry. apply elem_of_cons in Hentry as [[= -> ->] | Hentry];
      [exact Hself | eapply Hall, Hentry].
Qed.

Lemma map_get_set key key' entry l :
  map_get key (map_set key' entry l) =
  if decide (key = key') then Some entry else map_get key l.
Proof.
  unfold map_get. induction l as [| [k e] l IH]; cbn [map_set List.find fst].
  - destruct (String.eqb_spec key' key) as [-> | Hne].
    + rewrite decide_True by reflexivity. reflexivity.
    + rewrite decide_False by congruence. reflexivity.
  - destruct (String.eqb_spec k key') as [-> | Hne]; cbn [List.find fst].
    + destruct (String.eqb_spec key' key) as [-> | Hne'].
      * rewrite decide_True by reflexivity. reflexivity.
      * rewrite decide_False by congruence. reflexivity.
    + destruct (String.eqb_spec k key) as [-> | Hne'].
      * rewrite decide_False by congruence. reflexivity.
      * exact IH.
Qed.

Lemma map_get_delete key key' l :
  map_get key (map_delete key' l) =
  if decide (key = key') then None else map_get key l.
Proof.
  unfold map_get, map_delete. induction l as [| [k e] l IH].
  - destruct (decide (key = key')); reflexivity.
  - rewrite filter_cons. cbn [fst]. destruct (decide (k ≠ key')) as [Hne | Heq].
    + cbn [List.find fst]. destruct (String.eqb_spec k key) as [-> | Hne'].
      * rewrite decide_False by congruence. reflexivity.
      * exact IH.
    + apply dec_stable in Heq as ->. rewrite IH.
      destruct (decide (key = key')) as [-> | Hne]; [reflexivity |].
      cbn [List.find fst]. destruct (String.eqb_spec key' key); [congruence | reflexivity].
Qed.

Lemma map_set_keys key entry l :
  (map_set key entry l).*1 = if bool_decide (key ∈ l.*1) then l.*1 else l.*1 ++ [key].
Proof.
  induction l as [| [k e] l IH]; [reflexivity |].
  cbn [map_set]. destruct (String.eqb_spec k key) as [-> | Hne]; cbn [fmap list_fmap fst].
  - rewrite bool_decide_eq_true_2; [reflexivity | left].
  - rewrite IH. destruct (bool_decide (key ∈ l.*1)) eqn:Hin.
    + apply bool_decide_eq_true in Hin.
      rewrite bool_decide_eq_true_2; [reflexivity | right; exact Hin].
    + apply bool_decide_eq_false in Hin. rewrite bool_decide_eq_false_2; [reflexivity |].
      intros H. apply elem_of_cons in H as [H | H]; congruence.
Qed.

Lemma map_set_well_formed key entry l :
  id entry = key → well_formed l → well_formed (map_set key entry l).
Proof.
  intros Hid [Hnodup Hids]. split.
  - rewrite map_set_keys. destruct (bool_decide (key ∈ l.*1)) eqn:Hin; [exact Hnodup |].
    apply bool_decide_eq_false in Hin. apply NoDup_app. split; [exact Hnodup |].
    split; [| apply NoDup_singleton].
    intros x Hx Hx'. apply list_elem_of_singleton in Hx'. congruence.
  - clear Hnodup. induction l as [| [k e] l IH]; cbn [map_set].
    + constructor; [symmetry; exact Hid | constructor].
    + apply Forall_cons in Hids as [Hk Hids].
      destruct (String.eqb_spec k key) as [-> | Hne].
      * constructor; [symmetry; exact Hid | exact Hids].
      * constructor; [exact Hk | apply IH, Hids].
Qed.

Lemma map_set_length key entry l :
  (List.length (map_set key entry l) ≤ S (List.length l))%nat.
Proof.
  induction l as [| [k e] l IH]; cbn [map_set]; [cbn; lia |].
  destruct (String.eqb k key); cbn [List.length]; lia.
Qed.

Lemma map_delete_well_formed key l : well_formed l → well_formed (map_delete key l).
Proof.
  intros [Hnodup Hids]. unfold map_delete. split.
  - induction l as [| [k e] l IH]; [constructor |].
    cbn [fmap list_fmap fst] in Hnodup. apply NoDup_cons in Hnodup as [Hnotin Hnodup].
    apply Forall_cons in Hids as [_ Hids].
    rewrite filter_cons. destruct (decide (fst (k, e) ≠ key)); [| apply IH; assumption].
    cbn [fmap list_fmap fst]. apply NoDup_cons. split; [| apply IH; assumption].
    intros Hin. apply Hnotin.
    apply list_elem_of_fmap in Hin as (kv & -> & Hin).
    apply list_elem_of_filter in Hin as [_ Hin]. apply list_elem_of_fmap. eauto.
  - apply Forall_forall. intros kv Hin. apply list_elem_of_filter in Hin as [_ Hin].
    rewrite Forall_forall in Hids. apply Hids, Hin.
Qed.

Lemma map_delete_length key l :
  NoDup l.*1 → key ∈ l.*1 →
  S (List.length (map_delete key l)) = List.length l.
Proof.
  unfold map_delete. induction l as [| [k e] l IH]; intros Hnodup Hin; [inversion Hin |].
  cbn [fmap list_fmap fst] in Hnodup, Hin. apply NoDup_cons in Hnodup as [Hnotin Hnodup].
  rewrite filter_cons. cbn [fst]. destruct (decide (k ≠ key)) as [Hne | Heq].
  - apply elem_of_cons in Hin as [-> | Hin]; [contradiction |].
    cbn [List.length]. rewrite IH by assumption. reflexivity.
  - apply dec_stable in Heq as ->. cbn [List.length]. f_equal.
    clear IH Hin Hnodup. induction l as [| [k' e'] l IH]; [reflexivity |].
    rewrite filter_cons. cbn [fst].
    destruct (decide (k' ≠ key)) as [Hne | Heq].
    + cbn [List.length]. f_equal. apply IH. intros Hin. apply Hnotin. right. exact Hin.
    + apply dec_stable in Heq as ->. destruct Hnotin. left.
Qed.

Lemma map_delete_length_le key (l : list (string * MemoryEntry)) :
  (List.length (map_delete key l) ≤ List.length l)%nat.
Proof. apply length_filter. Qed.

Section Store.

Variable embed : string -> option (list spec_float).

Abbreviation store := (store embed).
Abbreviation run := (run embed).

(** The entry [store] builds. *)
Definition stored (entry : NewEntry) (newId : string) (now : Z) (s : Store) : MemoryEntry :=
  mkEntry newId (new_type entry) (new_category entry) (new_content entry)
          (if embeddingEnabled s then embed (new_content entry) else None)
          (new_tags entry) (new_sourceProject entry) (new_createdBy entry)
          (new_createdAt entry) 0 now (new_confidence entry) (new_metadata entry).

(** [store] passes its two checks. *)
Definition accepted (entry : NewEntry) (s : Store) : Prop :=
  Z.of_nat (String.length (new_content entry)) ≤ maxContentSize s ∧
  SFltb (new_confidence entry) (minConfidence s) = false.

Lemma store_accepted entry newId now s :
  accepted entry s →
  store entry newId now s =
  (mkStoreResult true (Some newId) None,
   with_entries
     (map_set newId (stored entry newId now s)
        (entries (if Z.of_nat (List.length (entries s)) >=? maxEntries s
                  then evictLeastUsed s else s))) s).
Proof.
  intros [Hsize Hconfidence]. unfold MemoryStore.store.
  destruct (Z.gtb_spec (Z.of_nat (String.length (new_content entry))) (maxContentSize s));
    [lia |].
  rewrite Hconfidence. cbv zeta. unfold stored, evictLeastUsed.
  destruct (_ >=? _); [| reflexivity].
  destruct (leastUsed (entries s)); reflexivity.
Qed.

Lemma evict_makes_room s :
  well_formed (entries s) → entries s ≠ [] →
  well_formed (entries (evictLeastUsed s)) ∧
  S (List.length (entries (evictLeastUsed s))) = List.length (entries s).
Proof.
  intros Hwf Hne. unfold evictLeastUsed.
  destruct (leastUsed_spec (entries s) Hne) as (least & key & -> & Hin & _).
  cbn [entries with_entries]. split; [apply map_delete_well_formed, Hwf |].
  destruct Hwf as [Hnodup Hids]. apply map_delete_length; [exact Hnodup |].
  rewrite Forall_forall in Hids. specialize (Hids _ Hin). cbn [fst snd] in Hids.
  rewrite <- Hids. apply list_elem_of_fmap. exists (key, least). auto.
Qed.

(** Without another call in between, the two halves of [store] are
    [store]. *)
Lemma store_begin_finish entry newId now s :
  store entry newId now s =
  match store_begin entry newId now s with
  | (inl refusal, s') => (refusal, s')
  | (inr call, s') =>
      store_finish call (if embeddingEnabled s' then embed (new_content entry) else None) s'
  end.
Proof.
  unfold MemoryStore.store, store_begin, store_finish.
  destruct (_ >? _); [reflexivity |]. destruct (SFltb _ _); reflexivity.
Qed.

(** When [store] accepts an entry and the store is full, it evicts one
    entry, and that entry is a least used one: no entry of the store has a
    lower access count, or the same access count and an earlier last access.
    The new entry is then held under the new id with access count 0; every
    other entry is as it was. *)
Theorem store_evicts_a_least_used entry newId now s :
  well_formed (entries s) → entries s ≠ [] →
  maxEntries s ≤ Z.of_nat (List.length (entries s)) →
  accepted entry s →
  ∃ victim,
    get (id victim) s = Some victim ∧
    (∀ key other, get key s = Some other →
       accessCount victim < accessCount other ∨
       accessCount victim = accessCount other ∧
       lastAccessedAt victim ≤ lastAccessedAt other) ∧
    fst (store entry newId now s) = mkStoreResult true (Some newId) None ∧
    ∀ key, get key (snd (store entry newId now s)) =
           if decide (key = newId) then Some (stored entry newId now s)
           else if decide (key = id victim) then None
           else get key s.
Proof.
  intros Hwf Hne Hfull Haccepted.
  destruct (leastUsed_spec (entries s) Hne) as (victim & key & Hleast & Hin & Hall).
  assert (Hkey : key = id victim).
  { destruct Hwf as [_ Hids]. rewrite Forall_forall in Hids. apply (Hids _ Hin). }
  subst key.
  assert (Hget : ∀ k e, (k, e) ∈ entries s → get k s = Some e).
  { intros k e Hke. unfold get, map_get.
    destruct (List.find _ (entries s)) as [[k' e'] |] eqn:Hfind.
    - apply find_some in Hfind as [Hin' Hk]. cbn [fst] in Hk.
      apply String.eqb_eq in Hk as ->. apply list_elem_of_In in Hin'. cbn. f_equal.
      destruct Hwf as [Hnodup _].
      exact (KnowledgeStoreSpec.unique_key _ _ _ _ Hnodup Hin' Hke).
    - apply list_elem_of_In in Hke. pose proof (find_none _ _ Hfind _ Hke) as Habs.
      cbn in Habs. rewrite String.eqb_refl in Habs. discriminate. }
  exists victim. split; [apply Hget, Hin |]. split.
  - intros k other Hother. unfold get, map_get in Hother.
    destruct (List.find _ (entries s)) as [[k' e'] |] eqn:Hfind; [| discriminate].
    injection Hother as <-. apply find_some in Hfind as [Hin' _].
    apply list_elem_of_In in Hin'. specialize (Hall _ _ Hin').
    apply not_less_used in Hall. lia.
  - rewrite (store_accepted entry newId now s Haccepted). cbn [fst snd].
    split; [reflexivity |]. intros k. unfold get. cbn [entries with_entries].
    rewrite map_get_set. destruct (decide (k = newId)); [reflexivity |].
    destruct (Z.geb_spec (Z.of_nat (List.length (entries s))) (maxEntries s)); [| lia].
    unfold evictLeastUsed. rewrite Hleast. cbn [entries with_entries].
    apply map_get_delete.
Qed.

End Store.

(** ** Calls of [store] that overlap *)

Lemma take_flight_spec newId calls :
  match take_flight newId calls with
  | (Some call, rest) => S (List.length rest) = List.length calls
  | (None, rest) => rest = calls
  end.
Proof.
  induction calls as [| call calls IH]; [reflexivity |]. cbn [take_flight].
  destruct (String.eqb (flight_id call) newId); [reflexivity |].
  destruct (take_flight newId calls) as [[found |] rest]; cbn [List.length]; congruence.
Qed.

(** A call that gets past the capacity test leaves the entries well formed
    and room for itself, unless the store holds more than it should. *)
Lemma store_begin_room entry newId now s call s' :
  well_formed (entries s) → 1 ≤ maxEntries s →
  store_begin entry newId now s = (inr call, s') →
  well_formed (entries s') ∧ maxEntries s' = maxEntries s ∧
  embeddingEnabled s' = embeddingEnabled s ∧
  Z.of_nat (List.length (entries s')) ≤
    Z.max (maxEntries s - 1) (Z.of_nat (List.length (entries s)) - 1).
Proof.
  intros Hwf Hmax. unfold store_begin.
  destruct (_ >? _); [discriminate |]. destruct (SFltb _ _); [discriminate |].
  intros [= _ <-].
  destruct (Z.geb_spec (Z.of_nat (List.length (entries s))) (maxEntries s)) as [Hfull | Hroom].
  - assert (Hne : entries s ≠ []).
    { intros Hnil. rewrite Hnil in Hfull. cbn in Hfull. lia. }
    destruct (evict_makes_room s Hwf Hne) as [Hwf' Hlen].
    split; [exact Hwf' |].
    unfold evictLeastUsed in *. destruct (leastUsed (entries s));
      (split; [reflexivity |]; split; [reflexivity |]; lia).
  - split; [exact Hwf |]. split; [reflexivity |]. split; [reflexivity |]. lia.
Qed.

Lemma store_begin_refused entry newId now s refusal s' :
  store_begin entry newId now s = (inl refusal, s') → s' = s.
Proof.
  unfold store_begin. destruct (_ >? _); [congruence |].
  destruct (SFltb _ _); [congruence | discriminate].
Qed.

Lemma store_finish_adds call embedding s :
  well_formed (entries s) →
  well_formed (entries (snd (store_finish call embedding s))) ∧
  maxEntries (snd (store_finish call embedding s)) = maxEntries s ∧
  (List.length (entries (snd (store_finish call embedding s))) ≤
   S (List.length (entries s)))%nat.
Proof.
  intros Hwf. unfold store_finish. cbn [snd entries maxEntries with_entries].
  split; [apply map_set_well_formed; [reflexivity | exact Hwf] |].
  split; [reflexivity | apply map_set_length].
Qed.

Lemma recordAccess_keeps key now s :
  well_formed (entries s) →
  well_formed (entries (recordAccess key now s)) ∧
  List.length (entries (recordAccess key now s)) = List.length (entries s).
Proof.
  intros [Hnodup Hids]. unfold recordAccess, with_entries; cbn [entries].
  match goal with |- context [map ?f (entries s)] => set (bump := f) end.
  assert (Hkeys : ∀ l : list (string * MemoryEntry), (map bump l).*1 = l.*1).
  { induction l as [| [k e] l IH]; [reflexivity |].
    cbn [map fmap list_fmap]. cbn [fmap] in IH. rewrite IH. f_equal.
    unfold bump. cbn [fst]. destruct (String.eqb k key); reflexivity. }
  assert (Hmap : ∀ l : list (string * MemoryEntry),
            Forall (λ kv, fst kv = id (snd kv)) l →
            Forall (λ kv, fst kv = id (snd kv)) (map bump l)).
  { induction 1 as [| [k e] l Hk _ IH]; [constructor |].
    cbn [map]. constructor; [| exact IH].
    unfold bump. cbn [fst snd] in *. destruct (String.eqb k key); exact Hk. }
  split; [split; [rewrite Hkeys; exact Hnodup | apply Hmap, Hids] | apply length_map].
Qed.

(** What holds along a run in which at most [b] calls were ever between the
    capacity test and [entries.set] at one time. *)
Definition bounded (b : nat) (m : Machine) : Prop :=
  well_formed (entries (the_store m)) ∧ 1 ≤ maxEntries (the_store m) ∧
  (List.length (waiting m) ≤ b)%nat ∧
  Z.of_nat (List.length (entries (the_store m)) + List.length (waiting m)) ≤
    maxEntries (the_store m) - 1 + Z.of_nat b.

Lemma advance_bounded e b m :
  bounded b m →
  bounded (Nat.max b (if passes e m then S (List.length (waiting m)) else 0)) (advance e m) ∧
  maxEntries (the_store (advance e m)) = maxEntries (the_store m).
Proof.
  intros (Hwf & Hmax & Hwait & Hsum). unfold bounded.
  destruct e as [entry newId now | newId embedding | key | key now |];
    cbn [advance passes].
  - destruct (store_begin entry newId now (the_store m)) as [[refusal | call] s'] eqn:Hbegin.
    + apply store_begin_refused in Hbegin as ->. cbn [the_store waiting].
      split; [| reflexivity]. split; [exact Hwf |]. split; [exact Hmax |]. split; lia.
    + destruct (store_begin_room _ _ _ _ _ _ Hwf Hmax Hbegin)
        as (Hwf' & Hmax' & _ & Hroom).
      destruct (embeddingEnabled s').
      * cbn [the_store waiting]. rewrite Hmax'. split; [| reflexivity].
        rewrite length_app. cbn [List.length].
        split; [exact Hwf' |]. split; [exact Hmax |]. split; lia.
      * destruct (store_finish_adds call None s' Hwf') as (Hwf'' & Hmax'' & Hlen).
        cbn [the_store waiting]. rewrite Hmax'', Hmax'. split; [| reflexivity].
        split; [exact Hwf'' |]. split; [exact Hmax |]. split; lia.
  - pose proof (take_flight_spec newId (waiting m)) as Htake.
    destruct (take_flight newId (waiting m)) as [[call |] rest].
    + destruct (store_finish_adds call embedding (the_store m) Hwf) as (Hwf' & Hmax' & Hlen).
      cbn [the_store waiting]. rewrite Hmax'. split; [| reflexivity].
      split; [exact Hwf' |]. split; [exact Hmax |]. split; lia.
    + split; [| reflexivity]. split; [exact Hwf |]. split; [exact Hmax |]. split; lia.
  - unfold delete. cbn [snd the_store waiting entries maxEntries with_entries].
    split; [| reflexivity].
    pose proof (map_delete_length_le key (entries (the_store m))).
    split; [apply map_delete_well_formed, Hwf |]. split; [exact Hmax |]. split; lia.
  - destruct (recordAccess_keeps key now (the_store m) Hwf) as [Hwf' Hlen].
    assert (Hsame : maxEntries (recordAccess key now (the_store m)) =
                      maxEntries (the_store m)) by reflexivity.
    cbn [the_store waiting]. split; [| reflexivity]. rewrite Hlen, Hsame.
    split; [exact Hwf' |]. split; [exact Hmax |]. split; lia.
  - cbn [the_store waiting clear with_entries entries maxEntries List.length].
    split; [| reflexivity]. split; [split; constructor |]. split; [exact Hmax |].
    split; lia.
Qed.

Lemma execute_bounded events b m :
  bounded b m →
  bounded (Nat.max b (overlap events m)) (execute events m) ∧
  maxEntries (the_store (execute events m)) = maxEntries (the_store m).
Proof.
  revert b m. induction events as [| e events IH]; intros b m Hm.
  - cbn [overlap execute foldl]. rewrite Nat.max_0_r. auto.
  - change (execute (e :: events) m) with (execute events (advance e m)).
    cbn [overlap].
    destruct (advance_bounded e b m Hm) as [Hstep Hmax].
    destruct (IH _ _ Hstep) as [Hrun Hmax']. split; [| congruence].
    rewrite Nat.max_assoc. exact Hrun.
Qed.

(** A new store with room for at least one entry holds, after any calls in
    any order that the [await] in [store] allows, at most [maxEntries - 1]
    entries and one more for each call of [store] that was in progress at the
    same time as others: the calls still waiting counted with the entries,
    their sum is at most [maxEntries - 1] plus the largest number of calls
    that were past the capacity test together.  When calls of [store] never
    overlap, the store holds at most [maxEntries] entries.  No id occurs
    twice and every entry is kept under its own id. *)
Theorem store_stays_within_capacity config events :
  1 ≤ default 10000 (cfg_maxEntries config) →
  let start := mkMachine (new config) [] in
  let m := execute events start in
  let capacity := default 10000 (cfg_maxEntries config) in
  Z.of_nat (List.length (entries (the_store m)) + List.length (waiting m)) ≤
    capacity - 1 + Z.of_nat (overlap events start) ∧
  ((overlap events start ≤ 1)%nat →
   Z.of_nat (List.length (entries (the_store m))) ≤ capacity) ∧
  NoDup (entries (the_store m)).*1 ∧
  ∀ key entry, get key (the_store m) = Some entry → id entry = key.
Proof.
  intros Hroom start m capacity.
  assert (Hstart : bounded 0 start).
  { split; [split; constructor |]. split; [exact Hroom |]. cbn. split; lia. }
  destruct (execute_bounded events 0 start Hstart) as [((Hnodup & Hids) & _ & _ & Hsum) Hmax].
  fold m in Hnodup, Hids, Hsum, Hmax. cbn [Nat.max] in Hsum.
  change (maxEntries (the_store start)) with capacity in Hmax. rewrite Hmax in Hsum.
  split; [exact Hsum |]. split; [intros Hseq; lia |]. split; [exact Hnodup |].
  intros key entry. unfold get, map_get.
  destruct (List.find _ (entries (the_store m))) as [[k e] |] eqn:Hfind; [| discriminate].
  intros [= <-]. apply find_some in Hfind as [Hin Hkey]. cbn [fst] in Hkey.
  apply String.eqb_eq in Hkey as <-. apply list_elem_of_In in Hin.
  rewrite Forall_forall in Hids. symmetry. apply (Hids _ Hin).
Qed.

Definition note (text : string) (confidence : Z) : NewEntry :=
  mkNewEntry "pattern" "auth" text [] None "athena" 0 (Js.of_int confidence) None.

Definition two_slots : MemoryConfig := mkConfig (Some 2) None None (Some false).

Definition one_slot : MemoryConfig := mkConfig (Some 1) None None None.

(** Two calls of [store] that overlap on a store with room for one entry:
    both pass the capacity test while the store is empty, and both entries
    are set. *)
Lemma store_stays_within_capacity_witness :
  let events := [StoreStarts (note "a" 1) "m1" 10; StoreStarts (note "b" 1) "m2" 20;
                 EmbeddingArrives "m1" None; EmbeddingArrives "m2" None] in
  let m := execute events (mkMachine (new one_slot) []) in
  1 ≤ default 10000 (cfg_maxEntries one_slot) ∧
  overlap events (mkMachine (new one_slot) []) = 2%nat ∧
  (entries (the_store m)).*1 = ["m1"; "m2"] ∧
  Z.of_nat (List.length (entries (the_store m)) + List.length (waiting m)) ≤ 1 - 1 + 2.
Proof.
  split; [vm_compute; discriminate |]. split; [vm_compute; reflexivity |].
  split; [vm_compute; reflexivity |].
  apply (store_stays_within_capacity one_slot
           [StoreStarts (note "a" 1) "m1" 10; StoreStarts (note "b" 1) "m2" 20;
            EmbeddingArrives "m1" None; EmbeddingArrives "m2" None]).
  vm_compute. discriminate.
Defined.

(** The same two calls one after the other: the second evicts the entry of
    the first. *)
Example stores_in_sequence_evict :
  let events := [StoreStarts (note "a" 1) "m1" 10; EmbeddingArrives "m1" None;
                 StoreStarts (note "b" 1) "m2" 20; EmbeddingArrives "m2" None] in
  let m := execute events (mkMachine (new one_slot) []) in
  overlap events (mkMachine (new one_slot) []) = 1%nat ∧
  (entries (the_store m)).*1 = ["m2"] ∧ waiting m = [].
Proof. vm_compute. repeat split; reflexivity. Qed.

Lemma store_evicts_a_least_used_witness :
  let s := run (λ _, None)
             [StoreEntry (note "a" 1) "m1" 10; StoreEntry (note "b" 1) "m2" 20;
              RecordAccess "m1" 30] (new two_slots) in
  well_formed (entries s) ∧ entries s ≠ [] ∧
  maxEntries s ≤ Z.of_nat (List.length (entries s)) ∧ accepted (note "c" 1) s ∧
  fst (store (λ _, None) (note "c" 1) "m3" 40 s) = mkStoreResult true (Some "m3") None ∧
  get "m2" (snd (store (λ _, None) (note "c" 1) "m3" 40 s)) = None ∧
  accessCount <$> get "m1" (snd (store (λ _, None) (note "c" 1) "m3" 40 s)) = Some 1.
Proof.
  assert (Hwf : well_formed
                  (entries (run (λ _, None)
                     [StoreEntry (note "a" 1) "m1" 10; StoreEntry (note "b" 1) "m2" 20;
                      RecordAccess "m1" 30] (new two_slots)))).
  { split.
    - apply (bool_decide_unpack _). vm_compute. exact I.
    - vm_compute. repeat constructor. }
  split; [exact Hwf |]. split; [vm_compute; discriminate |].
  split; [vm_compute; discriminate |].
  assert (Haccepted : accepted (note "c" 1)
                        (run (λ _, None)
                           [StoreEntry (note "a" 1) "m1" 10;
                            StoreEntry (note "b" 1) "m2" 20;
                            RecordAccess "m1" 30] (new two_slots))).
  { split; [vm_compute; discriminate | vm_compute; reflexivity]. }
  split; [exact Haccepted |].
  destruct (store_evicts_a_least_used (λ _, None) (note "c" 1) "m3" 40 _ Hwf
              ltac:(vm_compute; discriminate) ltac:(vm_compute; discriminate) Haccepted)
    as (victim & _ & _ & Hresult & _).
  split; [exact Hresult |]. split; vm_compute; reflexivity.
Defined.

End MemoryStoreSpec.

Module EmbeddingServiceSpec.
Import EmbeddingService.



Section Embed.

Variable create : string -> string -> Z -> option (list spec_float).



End Embed.





End EmbeddingServiceSpec.
